(** * Seed-generator: password-derived wallets

    A shallow embedding of [generator.js] (secp256k1 / EVM accounts) and
    [sol-generator.js] (Ed25519 / base-58 accounts).

    JavaScript strings are sequences of UTF-16 code units, buffers are
    sequences of bytes.  The library primitives the two programs call
    (SHA-256, scrypt, base-58, Ed25519, Keccak-256, secp256k1) are written
    out after their standards; the hash functions, PBKDF2, scrypt, base-58
    and the check-summed address are checked against published test
    vectors.

    [main] is given over the answers of its four prompts first, then with
    the hidden prompt [getPassword] in front of it, a state machine over
    the 'data' events of a terminal. *)

From Stdlib Require Import String Ascii.
From Stdlib Require Import ZArith List Lia Bool.
From Stdlib Require Import Init.Byte Strings.Byte.
Import ListNotations.
Local Open Scope Z_scope.

(** Closed equations between values are settled by evaluation, once. *)
Ltac by_evaluation :=
  match goal with
  | |- ?a = ?b => vm_cast_no_check (@eq_refl _ b)
  end.

(** Case analysis on every test of a range in the goal. *)
Ltac split_ranges :=
  repeat match goal with
         | |- context [if (?a <=? ?b) && (?c <=? ?d) then _ else _] =>
             destruct (Z.leb_spec a b), (Z.leb_spec c d); cbn [andb]
         end.

(* ===================================================================== *)
(** ** Buffers and strings *)
(* ===================================================================== *)

(** A Node [Buffer] / [Uint8Array]. *)
Definition bytes := list byte.

(** A JavaScript string: its UTF-16 code units. *)
Definition jsstring := list Z.

Definition byte_to_Z (b : byte) : Z := Z.of_N (Byte.to_N b).

Definition byte_of_Z (z : Z) : byte :=
  match Byte.of_N (Z.to_N (z mod 256)) with
  | Some b => b
  | None => x00
  end.

(** Big-endian and little-endian views of a number on [n] bytes. *)
Fixpoint be_bytes (n : nat) (z : Z) : bytes :=
  match n with
  | O => []
  | S k => byte_of_Z (Z.shiftr z (8 * Z.of_nat k)) :: be_bytes k z
  end.

Fixpoint le_bytes (n : nat) (z : Z) : bytes :=
  match n with
  | O => []
  | S k => byte_of_Z z :: le_bytes k (Z.shiftr z 8)
  end.

Definition be_value (bs : bytes) : Z :=
  fold_left (fun acc b => acc * 256 + byte_to_Z b) bs 0.

Definition le_value (bs : bytes) : Z :=
  fold_right (fun b acc => byte_to_Z b + 256 * acc) 0 bs.

Definition xor_bytes (a b : bytes) : bytes :=
  map (fun p => byte_of_Z (Z.lxor (byte_to_Z (fst p)) (byte_to_Z (snd p))))
      (combine a b).

(** Cut a list into consecutive pieces of [n] elements (the last one may be
    shorter). *)
Fixpoint chunk_fuel {A} (fuel n : nat) (l : list A) : list (list A) :=
  match fuel with
  | O => []
  | S f =>
      match l with
      | [] => []
      | _ => firstn n l :: chunk_fuel f n (skipn n l)
      end
  end.

Definition chunk {A} (n : nat) (l : list A) : list (list A) :=
  chunk_fuel (length l) n l.

(** An ASCII literal as a JavaScript string. *)
Definition js (s : string) : jsstring :=
  map (fun a => Z.of_N (N_of_ascii a)) (list_ascii_of_string s).

(** [String.prototype.toString('hex')] of a buffer: two lower-case digits
    per byte. *)
Definition hex_digit (d : Z) : Z :=
  if d <? 10 then 48 + d else 87 + d.

Definition hex (bs : bytes) : jsstring :=
  flat_map (fun b => [hex_digit (byte_to_Z b / 16);
                      hex_digit (byte_to_Z b mod 16)]) bs.

(** The value of a hexadecimal digit, either case. *)
Definition hex_value (c : Z) : option Z :=
  if (48 <=? c) && (c <=? 57) then Some (c - 48)
  else if (97 <=? c) && (c <=? 102) then Some (c - 87)
  else if (65 <=? c) && (c <=? 70) then Some (c - 55)
  else None.

Fixpoint unhex (s : jsstring) : option bytes :=
  match s with
  | [] => Some []
  | hi :: lo :: rest =>
      match hex_value hi, hex_value lo, unhex rest with
      | Some h, Some l, Some bs => Some (byte_of_Z (16 * h + l) :: bs)
      | _, _, _ => None
      end
  | _ => None
  end.

(* ===================================================================== *)
(** ** SHA-2 (FIPS 180-4) *)
(* ===================================================================== *)

Module SHA2.

(** The first eighty primes, by trial division. *)
Definition is_prime (n : Z) : bool :=
  (2 <=? n) &&
  forallb (fun d => negb (n mod Z.of_nat d =? 0))
          (seq 2 (Z.to_nat n - 2)).

Definition primes : list Z :=
  Eval vm_compute in
    firstn 80 (filter is_prime (map Z.of_nat (seq 0 420))).

(** Integer cube root, one bit at a time from bit [k-1] down. *)
Fixpoint cbrt_bits (k : nat) (n r : Z) : Z :=
  match k with
  | O => r
  | S k' =>
      let r' := r + 2 ^ Z.of_nat k' in
      cbrt_bits k' n (if r' * r' * r' <=? n then r' else r)
  end.

Definition icbrt (n : Z) : Z := cbrt_bits 90 n 0.

(** The parameters that tell SHA-256 from SHA-512. *)
Record params := {
  wbits : Z;                (* word size *)
  wmask : Z;                (* 2 ^ wbits - 1 *)
  Kt : list Z;              (* round constants *)
  IV : list Z;              (* initial hash value *)
  bigsigma0 : Z * Z * Z;    (* three rotations *)
  bigsigma1 : Z * Z * Z;
  smallsigma0 : Z * Z * Z;  (* two rotations and a shift *)
  smallsigma1 : Z * Z * Z
}.

(** Round constants: the first [w] bits of the fractional parts of the
    cube roots of the primes; initial values: the same of the square
    roots of the first eight. *)
Definition frac_cbrt (w p : Z) : Z := icbrt (p * 2 ^ (3 * w)) mod 2 ^ w.
Definition frac_sqrt (w p : Z) : Z := Z.sqrt (p * 2 ^ (2 * w)) mod 2 ^ w.

Definition K256 : list Z :=
  Eval vm_compute in map (frac_cbrt 32) (firstn 64 primes).
Definition IV256 : list Z :=
  Eval vm_compute in map (frac_sqrt 32) (firstn 8 primes).
Definition K512 : list Z :=
  Eval vm_compute in map (frac_cbrt 64) primes.
Definition IV512 : list Z :=
  Eval vm_compute in map (frac_sqrt 64) (firstn 8 primes).

Definition P256 : params :=
  {| wbits := 32;
     wmask := 0xFFFFFFFF;
     Kt := K256;
     IV := IV256;
     bigsigma0 := (2, 13, 22);
     bigsigma1 := (6, 11, 25);
     smallsigma0 := (7, 18, 3);
     smallsigma1 := (17, 19, 10) |}.

Definition P512 : params :=
  {| wbits := 64;
     wmask := 0xFFFFFFFFFFFFFFFF;
     Kt := K512;
     IV := IV512;
     bigsigma0 := (28, 34, 39);
     bigsigma1 := (14, 18, 41);
     smallsigma0 := (1, 8, 7);
     smallsigma1 := (19, 61, 6) |}.

Record regs := { ra : Z; rb : Z; rc : Z; rd : Z;
                 re : Z; rf : Z; rg : Z; rh : Z }.

Section Hash.
Variable P : params.

Let w := wbits P.
Let wbytes : nat := Z.to_nat (w / 8).

(** Keep the low [w] bits. *)
Definition wrap (x : Z) : Z := Z.land x (wmask P).

Definition add (x y : Z) : Z := wrap (x + y).

Definition rotr (n x : Z) : Z :=
  Z.lor (Z.shiftr x n) (wrap (Z.shiftl x (w - n))).

Definition Ch (x y z : Z) : Z :=
  Z.lxor (Z.land x y) (Z.land (Z.lxor x (wmask P)) z).

Definition Maj (x y z : Z) : Z :=
  Z.lxor (Z.lxor (Z.land x y) (Z.land x z)) (Z.land y z).

Definition Sigma (c : Z * Z * Z) (x : Z) : Z :=
  let '(r1, r2, r3) := c in
  Z.lxor (Z.lxor (rotr r1 x) (rotr r2 x)) (rotr r3 x).

Definition sigma (c : Z * Z * Z) (x : Z) : Z :=
  let '(r1, r2, s) := c in
  Z.lxor (Z.lxor (rotr r1 x) (rotr r2 x)) (Z.shiftr x s).

(** Message schedule, most recent word first. *)
Fixpoint expand (n : nat) (W : list Z) : list Z :=
  match n with
  | O => W
  | S k =>
      let wt := add (add (sigma (smallsigma1 P) (nth 1 W 0)) (nth 6 W 0))
                    (add (sigma (smallsigma0 P) (nth 14 W 0)) (nth 15 W 0)) in
      expand k (wt :: W)
  end.

Definition schedule (block : bytes) : list Z :=
  let W16 := map be_value (chunk wbytes block) in
  rev (expand (length (Kt P) - 16) (rev W16)).

Definition round (s : regs) (kw : Z * Z) : regs :=
  let T1 := add (add (add (add (rh s) (Sigma (bigsigma1 P) (re s)))
                          (Ch (re s) (rf s) (rg s)))
                     (fst kw)) (snd kw) in
  let T2 := add (Sigma (bigsigma0 P) (ra s)) (Maj (ra s) (rb s) (rc s)) in
  {| ra := add T1 T2; rb := ra s; rc := rb s; rd := rc s;
     re := add (rd s) T1; rf := re s; rg := rf s; rh := rg s |}.

Definition compress (H : regs) (block : bytes) : regs :=
  let s := fold_left round (combine (Kt P) (schedule block)) H in
  {| ra := add (ra H) (ra s); rb := add (rb H) (rb s);
     rc := add (rc H) (rc s); rd := add (rd H) (rd s);
     re := add (re H) (re s); rf := add (rf H) (rf s);
     rg := add (rg H) (rg s); rh := add (rh H) (rh s) |}.

(** Padding: a one bit, zero bits, and the bit length on two words. *)
Definition pad (msg : bytes) : bytes :=
  let block := 16 * (w / 8) in
  let len := Z.of_nat (length msg) in
  let zeros := (- (len + 1 + 2 * (w / 8))) mod block in
  msg ++ [x80] ++ repeat x00 (Z.to_nat zeros)
      ++ be_bytes (2 * wbytes) (8 * len).

Definition init : regs :=
  {| ra := nth 0 (IV P) 0; rb := nth 1 (IV P) 0;
     rc := nth 2 (IV P) 0; rd := nth 3 (IV P) 0;
     re := nth 4 (IV P) 0; rf := nth 5 (IV P) 0;
     rg := nth 6 (IV P) 0; rh := nth 7 (IV P) 0 |}.

Definition digest (msg : bytes) : bytes :=
  let H := fold_left compress (chunk (16 * wbytes) (pad msg)) init in
  flat_map (be_bytes wbytes)
           [ra H; rb H; rc H; rd H; re H; rf H; rg H; rh H].
End Hash.

End SHA2.

(** [crypto.createHash('sha256').update(data).digest()] on bytes. *)
Definition sha256 (msg : bytes) : bytes := SHA2.digest SHA2.P256 msg.

Definition sha512 (msg : bytes) : bytes := SHA2.digest SHA2.P512 msg.

(** The bytes of an ASCII literal. *)
Definition ascii_bytes (s : string) : bytes :=
  map byte_of_ascii (list_ascii_of_string s).

(* ===================================================================== *)
(** ** scrypt (RFC 7914) *)
(* ===================================================================== *)

Module Scrypt.

(** HMAC-SHA-256 (RFC 2104). *)
Definition hmac_key (key : bytes) : bytes :=
  let k := if (64 <? length key)%nat then sha256 key else key in
  k ++ repeat x00 (64 - length k).

Definition hmac (key msg : bytes) : bytes :=
  let k := hmac_key key in
  let ipad := map (fun b => byte_of_Z (Z.lxor (byte_to_Z b) 54)) k in
  let opad := map (fun b => byte_of_Z (Z.lxor (byte_to_Z b) 92)) k in
  sha256 (opad ++ sha256 (ipad ++ msg)).

(** PBKDF2-HMAC-SHA-256 (RFC 8018 section 5.2): [U_1 xor ... xor U_c]. *)
Definition pbkdf2_U (P : bytes) (st : bytes * bytes) : bytes * bytes :=
  let U' := hmac P (fst st) in (U', xor_bytes (snd st) U').

Definition pbkdf2_F (P S : bytes) (c : nat) (i : nat) : bytes :=
  let U1 := hmac P (S ++ be_bytes 4 (Z.of_nat i)) in
  snd (Nat.iter (c - 1) (pbkdf2_U P) (U1, U1)).

Definition pbkdf2 (P S : bytes) (c : nat) (dkLen : nat) : bytes :=
  let l := ((dkLen + 31) / 32)%nat in
  firstn dkLen (flat_map (pbkdf2_F P S c) (seq 1 l)).

(** Salsa20/8 core on sixteen little-endian 32-bit words. *)
Definition wrap32 (x : Z) : Z := Z.land x 0xFFFFFFFF.

Definition rotl32 (x n : Z) : Z :=
  Z.lor (wrap32 (Z.shiftl x n)) (Z.shiftr x (32 - n)).

(** The quarter round of Salsa20 and its two wirings over the sixteen
    words. *)
Definition quarterround (y0 y1 y2 y3 : Z) : Z * Z * Z * Z :=
  let z1 := Z.lxor y1 (rotl32 (wrap32 (y0 + y3)) 7) in
  let z2 := Z.lxor y2 (rotl32 (wrap32 (z1 + y0)) 9) in
  let z3 := Z.lxor y3 (rotl32 (wrap32 (z2 + z1)) 13) in
  let z0 := Z.lxor y0 (rotl32 (wrap32 (z3 + z2)) 18) in
  (z0, z1, z2, z3).

Definition columnround (x : list Z) : list Z :=
  match x with
  | [s0; s1; s2; s3; s4; s5; s6; s7; s8; s9; s10; s11; s12; s13; s14; s15] =>
      let '(y0, y4, y8, y12) := quarterround s0 s4 s8 s12 in
      let '(y5, y9, y13, y1) := quarterround s5 s9 s13 s1 in
      let '(y10, y14, y2, y6) := quarterround s10 s14 s2 s6 in
      let '(y15, y3, y7, y11) := quarterround s15 s3 s7 s11 in
      [y0; y1; y2; y3; y4; y5; y6; y7; y8; y9; y10; y11; y12; y13; y14; y15]
  | _ => x
  end.

Definition rowround (y : list Z) : list Z :=
  match y with
  | [y0; y1; y2; y3; y4; y5; y6; y7; y8; y9; y10; y11; y12; y13; y14; y15] =>
      let '(z0, z1, z2, z3) := quarterround y0 y1 y2 y3 in
      let '(z5, z6, z7, z4) := quarterround y5 y6 y7 y4 in
      let '(z10, z11, z8, z9) := quarterround y10 y11 y8 y9 in
      let '(z15, z12, z13, z14) := quarterround y15 y12 y13 y14 in
      [z0; z1; z2; z3; z4; z5; z6; z7; z8; z9; z10; z11; z12; z13; z14; z15]
  | _ => y
  end.

Definition doubleround (x : list Z) : list Z := rowround (columnround x).

Definition salsa20_8 (block : bytes) : bytes :=
  let x0 := map le_value (chunk 4 block) in
  let x := Nat.iter 4 doubleround x0 in
  flat_map (fun p => le_bytes 4 (wrap32 (fst p + snd p))) (combine x x0).

(** scryptBlockMix: [B] is [2r] blocks of 64 bytes, [X] runs through
    them and every intermediate [X] is kept. *)
Definition blockmix_step (st : bytes * list bytes) (Bi : bytes)
  : bytes * list bytes :=
  let X' := salsa20_8 (xor_bytes (fst st) Bi) in (X', X' :: snd st).

Definition blockmix_loop (X : bytes) (B : list bytes) : list bytes :=
  rev (snd (fold_left blockmix_step B (X, []))).

Fixpoint evens {A} (l : list A) : list A :=
  match l with
  | a :: _ :: t => a :: evens t
  | l' => l'
  end.

Definition odds {A} (l : list A) : list A :=
  match l with
  | [] => []
  | _ :: t => evens t
  end.

Definition blockmix (B : bytes) : bytes :=
  let blocks := chunk 64 B in
  let Y := blockmix_loop (last blocks []) blocks in
  concat (evens Y ++ odds Y).

Definition integerify (X : bytes) : Z :=
  le_value (skipn (length X - 64) X).

(** scryptROMix: fill [V] with [N] successive values of [X], then mix
    [N] times with the entry that [X] itself selects. *)
Definition romix_fill (st : bytes * list bytes) : bytes * list bytes :=
  (blockmix (fst st), fst st :: snd st).

Definition romix_mix (N : Z) (V : list bytes) (X : bytes) : bytes :=
  let j := integerify X mod N in
  blockmix (xor_bytes X (nth (Z.to_nat j) V [])).

Definition romix (N : Z) (B : bytes) : bytes :=
  let '(X, V) := Nat.iter (Z.to_nat N) romix_fill (B, []) in
  Nat.iter (Z.to_nat N) (romix_mix N (rev V)) X.

Definition scrypt (P S : bytes) (N r p : Z) (dkLen : nat) : bytes :=
  let B := pbkdf2 P S 1 (Z.to_nat (p * 128 * r)) in
  let B' := concat (map (romix N) (chunk (Z.to_nat (128 * r)) B)) in
  pbkdf2 P B' 1 dkLen.

End Scrypt.

(* ===================================================================== *)
(** ** Strings to bytes, exceptions *)
(* ===================================================================== *)

Definition is_high_surrogate (c : Z) : bool := (0xD800 <=? c) && (c <=? 0xDBFF).
Definition is_low_surrogate (c : Z) : bool := (0xDC00 <=? c) && (c <=? 0xDFFF).

(** UTF-8 of one code point. *)
Definition utf8_point (c : Z) : bytes :=
  if c <? 0x80 then [byte_of_Z c]
  else if c <? 0x800 then
    [byte_of_Z (0xC0 + c / 64); byte_of_Z (0x80 + c mod 64)]
  else if c <? 0x10000 then
    [byte_of_Z (0xE0 + c / 4096); byte_of_Z (0x80 + (c / 64) mod 64);
     byte_of_Z (0x80 + c mod 64)]
  else
    [byte_of_Z (0xF0 + c / 262144); byte_of_Z (0x80 + (c / 4096) mod 64);
     byte_of_Z (0x80 + (c / 64) mod 64); byte_of_Z (0x80 + c mod 64)].

(** How Node turns a string into bytes ([Buffer.from(s, 'utf8')], also what
    [hash.update(s)] and [scryptSync(s, ...)] do with a string): a surrogate
    pair is one code point, a surrogate on its own becomes U+FFFD. *)
Fixpoint utf8 (s : jsstring) : bytes :=
  match s with
  | [] => []
  | c :: rest =>
      if is_high_surrogate c then
        match rest with
        | d :: rest' =>
            if is_low_surrogate d
            then utf8_point (0x10000 + (c - 0xD800) * 1024 + (d - 0xDC00))
                 ++ utf8 rest'
            else utf8_point 0xFFFD ++ utf8 rest
        | [] => utf8_point 0xFFFD
        end
      else if is_low_surrogate c then utf8_point 0xFFFD ++ utf8 rest
      else utf8_point c ++ utf8 rest
  end.

(** Why OpenSSL turns a set of scrypt parameters down. *)
Inductive scrypt_reason :=
| invalid_cost              (* N < 2 or not a power of two, r = 0, p = 0 *)
| memory_limit_exceeded.

(** What the two programs can see thrown by the libraries they call. *)
Inductive exception :=
| ERR_OUT_OF_RANGE                                 (* the value of "N" *)
| ERR_CRYPTO_INVALID_SCRYPT_PARAMS (why : scrypt_reason)
| InvalidKeyMaterial                               (* the wallet library *)
| ExpectedBytes32                                  (* the Ed25519 library *)
| NonBase58Character.                              (* the base-58 library *)

Inductive result (A : Type) :=
| Return (a : A)
| Throw (e : exception).
Arguments Return {A} a.
Arguments Throw {A} e.

Definition bind {A B} (r : result A) (k : A -> result B) : result B :=
  match r with
  | Return a => k a
  | Throw e => Throw e
  end.

Definition rmap {A B} (f : A -> B) (r : result A) : result B :=
  match r with
  | Return a => Return (f a)
  | Throw e => Throw e
  end.

Notation "'let*' x ':=' r 'in' k" := (bind r (fun x => k))
  (at level 10, x pattern, r at level 100, k at level 200).

(* ===================================================================== *)
(** ** Node's [crypto.scryptSync] *)
(* ===================================================================== *)

(** A JavaScript number, as far as the cost factor needs one: an integer,
    a value with a fractional part, or [Infinity]. *)
Inductive number :=
| Int (z : Z)
| Fraction
| Infinity.

(** A JavaScript number without a fractional part, as far as the cost
    parameter needs one: a double that is an integer, or an infinity.
    [parseInt] returns nothing else, NaN apart.  An integer is read as
    such a number where one is expected. *)
Inductive integral :=
| Finite (z : Z)
| PlusInfinity
| MinusInfinity.

Coercion Finite : Z >-> integral.

(** [2 ** e] for an integer [e].  From [2 ** 1024] on the result is
    [Infinity]; below zero it is a fraction down to the smallest double,
    [2 ** -1074], and zero after that. *)
Definition pow2 (e : Z) : number :=
  if 1024 <=? e then Infinity
  else if 0 <=? e then Int (2 ^ e)
  else if -1074 <=? e then Fraction
  else Int 0.

(** [2 ** x] for a number without a fractional part. *)
Definition power2 (x : integral) : number :=
  match x with
  | Finite e => pow2 e
  | PlusInfinity => Infinity
  | MinusInfinity => Int 0
  end.

Module Node.

Record scrypt_options := { N : number; r : Z; p : Z }.

(** The defaults of [lib/internal/crypto/scrypt.js]; the two programs
    pass no [maxmem], so the ceiling is 32 MiB. *)
Definition default_N : Z := 16384.
Definition default_maxmem : Z := 32 * 1024 * 1024.

Definition SCRYPT_PR_MAX : Z := 2 ^ 30 - 1.
Definition INT_MAX : Z := 2 ^ 31 - 1.
Definition UINT64_MAX : Z := 2 ^ 64 - 1.

(** [validateUint32(N, 'N')], then a zero [N] is read as the default. *)
Definition check_N (n : number) : result Z :=
  match n with
  | Fraction | Infinity => Throw ERR_OUT_OF_RANGE
  | Int z =>
      if (0 <=? z) && (z <=? 4294967295)
      then Return (if z =? 0 then default_N else z)
      else Throw ERR_OUT_OF_RANGE
  end.

Definition is_power_of_two (n : Z) : bool := Z.land n (n - 1) =? 0.

(** The parameter test of OpenSSL's [EVP_PBE_scrypt], run by Node before
    any derivation starts. *)
Definition check_params (N r p maxmem : Z) : result unit :=
  if (r =? 0) || (p =? 0) || (N <? 2) || negb (is_power_of_two N)
  then Throw (ERR_CRYPTO_INVALID_SCRYPT_PARAMS invalid_cost)
  else if SCRYPT_PR_MAX / r <? p
  then Throw (ERR_CRYPTO_INVALID_SCRYPT_PARAMS memory_limit_exceeded)
  else if (16 * r <=? 63) && (2 ^ (16 * r) <=? N)
  then Throw (ERR_CRYPTO_INVALID_SCRYPT_PARAMS memory_limit_exceeded)
  else
    let Blen := p * 128 * r in
    let Vlen := 32 * r * (N + 2) * 4 in
    if (INT_MAX <? Blen) || (UINT64_MAX / 128 / r <? N + 2)
       || (UINT64_MAX - Vlen <? Blen) || (maxmem <? Blen + Vlen)
    then Throw (ERR_CRYPTO_INVALID_SCRYPT_PARAMS memory_limit_exceeded)
    else Return tt.

Definition scryptSync (password salt : bytes) (keylen : nat)
           (options : scrypt_options) : result bytes :=
  let* n := check_N (N options) in
  let* _ := check_params n (r options) (p options) default_maxmem in
  Return (Scrypt.scrypt password salt n (r options) (p options) keylen).

End Node.

(* ===================================================================== *)
(** ** Keccak-256 *)
(* ===================================================================== *)

Module Keccak.

Definition mask64 : Z := 0xFFFFFFFFFFFFFFFF.

Definition rotl64 (x n : Z) : Z :=
  Z.lor (Z.land (Z.shiftl x n) mask64) (Z.shiftr x (64 - n)).

(** Lane [(x, y)] of the state sits at index [x + 5 y]. *)
Definition index (x y : Z) : nat := Z.to_nat (x mod 5 + 5 * (y mod 5)).

Definition coords : list (Z * Z) :=
  Eval vm_compute in
    map (fun i => (Z.of_nat i mod 5, Z.of_nat i / 5)) (seq 0 25).

Definition rho_offsets : list Z :=
  [ 0;  1; 62; 28; 27;
   36; 44;  6; 55; 20;
    3; 10; 43; 25; 39;
   41; 45; 15; 21;  8;
   18;  2; 61; 56; 14].

Definition round_constants : list Z :=
  [0x0000000000000001; 0x0000000000008082; 0x800000000000808A;
   0x8000000080008000; 0x000000000000808B; 0x0000000080000001;
   0x8000000080008081; 0x8000000000008009; 0x000000000000008A;
   0x0000000000000088; 0x0000000080008009; 0x000000008000000A;
   0x000000008000808B; 0x800000000000008B; 0x8000000000008089;
   0x8000000000008003; 0x8000000000008002; 0x8000000000000080;
   0x000000000000800A; 0x800000008000000A; 0x8000000080008081;
   0x8000000000008080; 0x0000000080000001; 0x8000000080008008].

(** theta: every lane receives the parity of two neighbouring columns. *)
Definition column_parity (A : list Z) (x : Z) : Z :=
  fold_left Z.lxor (map (fun y => nth (index x y) A 0) [1; 2; 3; 4])
            (nth (index x 0) A 0).

Definition theta (A : list Z) : list Z :=
  let C := map (column_parity A) [0; 1; 2; 3; 4] in
  let D := map (fun x => Z.lxor (nth (index (x - 1) 0) C 0)
                                (rotl64 (nth (index (x + 1) 0) C 0) 1))
               [0; 1; 2; 3; 4] in
  map (fun xD => Z.lxor (fst xD) (snd xD)) (combine A (D ++ D ++ D ++ D ++ D)).

(** rho and pi: [B[y, 2x + 3y] = rot(A[x, y], r[x, y])], read from the
    side of [B]: where each lane of [B] comes from, and by how much it
    is rotated. *)
Definition rho_pi_table : list (nat * Z) :=
  Eval vm_compute in
    map (fun XY =>
           let x := (fst XY + 3 * snd XY) mod 5 in
           let y := fst XY in
           (index x y, nth (index x y) rho_offsets 0)) coords.

Definition rho_pi (A : list Z) : list Z :=
  map (fun ir => rotl64 (nth (fst ir) A 0) (snd ir)) rho_pi_table.

(** chi: [A[x, y] = B[x, y] xor (not B[x + 1, y] and B[x + 2, y])]. *)
Definition chi_table : list (nat * nat * nat) :=
  Eval vm_compute in
    map (fun xy => (index (fst xy) (snd xy),
                    index (fst xy + 1) (snd xy),
                    index (fst xy + 2) (snd xy))) coords.

Definition chi (B : list Z) : list Z :=
  map (fun ijk =>
         let '(i, j, k) := ijk in
         Z.lxor (nth i B 0)
                (Z.land (Z.lxor (nth j B 0) mask64) (nth k B 0))) chi_table.

Definition iota (rc : Z) (A : list Z) : list Z :=
  match A with
  | [] => []
  | a :: t => Z.lxor a rc :: t
  end.

Definition keccak_round (A : list Z) (rc : Z) : list Z :=
  iota rc (chi (rho_pi (theta A))).

Definition keccak_f (A : list Z) : list Z :=
  fold_left keccak_round round_constants A.

(** Rate of Keccak-256 in bytes. *)
Definition rate : nat := 136.

(** pad10*1 with the Keccak suffix. *)
Definition pad (msg : bytes) : bytes :=
  let q := (rate - length msg mod rate)%nat in
  if (q =? 1)%nat then msg ++ [x81]
  else msg ++ [x01] ++ repeat x00 (q - 2) ++ [x80].

Definition absorb (A : list Z) (block : bytes) : list Z :=
  let lanes := map le_value (chunk 8 block) ++ repeat 0 8 in
  keccak_f (map (fun p => Z.lxor (fst p) (snd p)) (combine A lanes)).

Definition keccak256 (msg : bytes) : bytes :=
  let A := fold_left absorb (chunk rate (pad msg)) (repeat 0 25) in
  flat_map (le_bytes 8) (firstn 4 A).

End Keccak.

(* ===================================================================== *)
(** ** secp256k1 and the wallet of [ethers] *)
(* ===================================================================== *)

(** [a ^ e mod m] by square and multiply. *)
Fixpoint powmod (a : Z) (e : positive) (m : Z) : Z :=
  match e with
  | xH => a mod m
  | xO e' => let t := powmod a e' m in (t * t) mod m
  | xI e' => let t := powmod a e' m in ((t * t) mod m * a) mod m
  end.

Module Secp256k1.

Definition p : Z := 2 ^ 256 - 2 ^ 32 - 977.
Definition n : Z :=
  0xFFFFFFFFFFFFFFFFFFFFFFFFFFFFFFFEBAAEDCE6AF48A03BBFD25E8CD0364141.
Definition Gx : Z :=
  0x79BE667EF9DCBBAC55A06295CE870B07029BFCDB2DCE28D959F2815B16F81798.
Definition Gy : Z :=
  0x483ADA7726A3C4655DA4FBFC0E1108A8FD17B448A68554199C47D08FFB10D4B8.

(** A point of the curve [y^2 = x^3 + 7]; [None] is the point at
    infinity. *)
Definition point := option (Z * Z).

Definition G : point := Some (Gx, Gy).

Definition inv (a : Z) : Z := powmod a (Z.to_pos (p - 2)) p.

Definition double (P : point) : point :=
  match P with
  | None => None
  | Some (x, y) =>
      if y =? 0 then None
      else
        let l := (3 * x * x * inv (2 * y)) mod p in
        let x3 := (l * l - 2 * x) mod p in
        Some (x3, (l * (x - x3) - y) mod p)
  end.

Definition add (P Q : point) : point :=
  match P, Q with
  | None, _ => Q
  | _, None => P
  | Some (x1, y1), Some (x2, y2) =>
      if x1 =? x2 then
        if (y1 + y2) mod p =? 0 then None else double P
      else
        let l := ((y2 - y1) * inv (x2 - x1)) mod p in
        let x3 := (l * l - x1 - x2) mod p in
        Some (x3, (l * (x1 - x3) - y1) mod p)
  end.

Fixpoint mul (k : positive) (P : point) : point :=
  match k with
  | xH => P
  | xO k' => double (mul k' P)
  | xI k' => add P (double (mul k' P))
  end.

(** The 64 bytes [X || Y] of the public key of scalar [k]. *)
Definition public_xy (k : Z) : bytes :=
  match mul (Z.to_pos k) G with
  | Some (x, y) => be_bytes 32 x ++ be_bytes 32 y
  | None => []
  end.

End Secp256k1.

(** ASCII case mapping, which is all an address needs. *)
Definition toLowerChar (c : Z) : Z :=
  if (65 <=? c) && (c <=? 90) then c + 32 else c.

Definition toLowerCase (s : jsstring) : jsstring := map toLowerChar s.

Definition toUpperChar (c : Z) : Z :=
  if (97 <=? c) && (c <=? 122) then c - 32 else c.

Module Ethers.

(** Modelled from the spec: the mixed-case checksum that [ethers] applies
    to an address (its source is not part of the repository).  Hash the
    lower-case hexadecimal address string and write in upper case each
    digit whose nibble of the digest is at least 8. *)
Definition getChecksumAddress (address : jsstring) : jsstring :=
  let chars := skipn 2 (toLowerCase address) in
  let hashed := Keccak.keccak256 (map byte_of_Z chars) in
  let nibbles :=
    flat_map (fun b => [byte_to_Z b / 16; byte_to_Z b mod 16]) hashed in
  js "0x" ++
  map (fun cn => if 8 <=? snd cn then toUpperChar (fst cn) else fst cn)
      (combine chars nibbles).

(** Modelled from the spec: address = last 20 bytes of the Keccak-256
    hash of the 64 bytes [X || Y] of the public key, check-summed. *)
Definition computeAddress (xy : bytes) : jsstring :=
  getChecksumAddress (js "0x" ++ hex (skipn 12 (Keccak.keccak256 xy))).

Record wallet := {
  privateKey : jsstring;   (* 0x and 64 hexadecimal digits *)
  publicKey : bytes;       (* 04 || X || Y *)
  address : jsstring
}.

Definition strip_0x (s : jsstring) : option jsstring :=
  match s with
  | 48 :: 120 :: rest => Some rest
  | _ => None
  end.

(** Modelled from the spec: [new Wallet(privateKey)] of [ethers], which
    is not part of the repository.  The key is 32 bytes read as a
    big-endian scalar; the scalar must be nonzero and less than the
    order of the curve, otherwise the constructor throws and no wallet
    exists; the scalar is never reduced. *)
Definition Wallet (key : jsstring) : result wallet :=
  match strip_0x key with
  | None => Throw InvalidKeyMaterial
  | Some digits =>
      match unhex digits with
      | None => Throw InvalidKeyMaterial
      | Some k =>
          if negb (length k =? 32)%nat then Throw InvalidKeyMaterial
          else
            let d := be_value k in
            if (0 <? d) && (d <? Secp256k1.n) then
              let xy := Secp256k1.public_xy d in
              Return {| privateKey := js "0x" ++ hex k;
                        publicKey := x04 :: xy;
                        address := computeAddress xy |}
            else Throw InvalidKeyMaterial
      end
  end.

End Ethers.

(* ===================================================================== *)
(** ** Ed25519 public keys (RFC 8032) *)
(* ===================================================================== *)

Module Ed25519.

Definition p : Z := 2 ^ 255 - 19.

Definition inv (a : Z) : Z := powmod a (Z.to_pos (p - 2)) p.

(** [d = -121665 / 121666], and the base point, whose [y] is [4 / 5]
    and whose [x] is even. *)
Definition d : Z :=
  37095705934669439343138083508754565189542113879843219016388785533085940283555.
Definition Bx : Z :=
  15112221349535400772501151409588531511454012693041857206046113283949847762202.
Definition By : Z :=
  46316835694926478169428394003475163141307993866256225615783033603165251855960.

(** Extended homogeneous coordinates [(X, Y, Z, T)]. *)
Definition point := (Z * Z * Z * Z)%type.

Definition B : point := (Bx, By, 1, (Bx * By) mod p).

(** RFC 8032 section 5.1.4. *)
Definition add (P Q : point) : point :=
  let '(X1, Y1, Z1, T1) := P in
  let '(X2, Y2, Z2, T2) := Q in
  let A := ((Y1 - X1) * (Y2 - X2)) mod p in
  let Bv := ((Y1 + X1) * (Y2 + X2)) mod p in
  let C := (T1 * 2 * d mod p * T2) mod p in
  let D := (Z1 * 2 * Z2) mod p in
  let E := Bv - A in
  let F := D - C in
  let G := D + C in
  let H := Bv + A in
  ((E * F) mod p, (G * H) mod p, (F * G) mod p, (E * H) mod p).

Fixpoint mul (k : positive) (P : point) : point :=
  match k with
  | xH => P
  | xO k' => let Q := mul k' P in add Q Q
  | xI k' => let Q := mul k' P in add P (add Q Q)
  end.

(** RFC 8032 section 5.1.2: the y coordinate on 255 bits, little-endian,
    and the low bit of x on top. *)
Definition encode (P : point) : bytes :=
  let '(X, Y, Zc, _) := P in
  let zi := inv Zc in
  let x := (X * zi) mod p in
  let y := (Y * zi) mod p in
  le_bytes 32 (y + 2 ^ 255 * (x mod 2)).

(** RFC 8032 section 5.1.5: hash the seed, prune the low half. *)
Definition secret_scalar (seed : bytes) : Z :=
  let h := le_value (firstn 32 (sha512 seed)) in
  Z.lor (Z.land h (2 ^ 254 - 8)) (2 ^ 254).

(** [getPublicKey] of [@noble/ed25519]: the key must be 32 bytes. *)
Definition getPublicKey (privateKey : bytes) : result bytes :=
  if (length privateKey =? 32)%nat
  then Return (encode (mul (Z.to_pos (secret_scalar privateKey)) B))
  else Throw ExpectedBytes32.

End Ed25519.

(* ===================================================================== *)
(** ** Base-58 ([bs58]) *)
(* ===================================================================== *)

Fixpoint drop_while {A} (f : A -> bool) (l : list A) : list A :=
  match l with
  | [] => []
  | a :: t => if f a then drop_while f t else l
  end.

Fixpoint take_while {A} (f : A -> bool) (l : list A) : list A :=
  match l with
  | [] => []
  | a :: t => if f a then a :: take_while f t else []
  end.

Module Bs58.

Definition ALPHABET : jsstring :=
  js "123456789ABCDEFGHJKLMNPQRSTUVWXYZabcdefghijkmnopqrstuvwxyz".

Definition LEADER : Z := 49.

(** The digits of what is left of the carry, least significant first. *)
Fixpoint carry_digits (fuel : nat) (base carry : Z) : list Z :=
  match fuel with
  | O => []
  | S f =>
      if carry =? 0 then []
      else carry mod base :: carry_digits f base (carry / base)
  end.

(** One pass of the inner loop, [b = b * from + carry], over the digits
    of [b] in base [to], least significant first.  The library works in
    an array allocated large enough for every digit; the list grows
    instead. *)
Fixpoint muladd (from to carry : Z) (b : list Z) : list Z :=
  match b with
  | [] => carry_digits (Z.to_nat carry) to carry
  | d :: t =>
      let c := carry + from * d in
      c mod to :: muladd from to (c / to) t
  end.

(** All the passes, then the digits most significant first without
    leading zeroes. *)
Definition convert (from to : Z) (source : list Z) : list Z :=
  let b := fold_left (fun b ch => muladd from to ch b) source [] in
  drop_while (Z.eqb 0) (rev b).

Definition encode (source : bytes) : jsstring :=
  let src := map byte_to_Z source in
  let zeroes := take_while (Z.eqb 0) src in
  let b58 := convert 256 58 (drop_while (Z.eqb 0) src) in
  map (fun _ => LEADER) zeroes
  ++ map (fun d => nth (Z.to_nat d) ALPHABET 0) b58.

(** Position of a character in the alphabet. *)
Fixpoint index_of (c : Z) (l : list Z) : option Z :=
  match l with
  | [] => None
  | a :: t => if a =? c then Some 0 else option_map Z.succ (index_of c t)
  end.

Definition BASE_MAP (c : Z) : option Z := index_of c ALPHABET.

Fixpoint lookup_all (s : jsstring) : option (list Z) :=
  match s with
  | [] => Some []
  | c :: t =>
      match BASE_MAP c, lookup_all t with
      | Some d, Some ds => Some (d :: ds)
      | _, _ => None
      end
  end.

Definition decode (s : jsstring) : result bytes :=
  let zeroes := take_while (Z.eqb LEADER) s in
  match lookup_all (drop_while (Z.eqb LEADER) s) with
  | None => Throw NonBase58Character
  | Some ds =>
      Return (map (fun _ => x00) zeroes
              ++ map byte_of_Z (convert 58 256 ds))
  end.

End Bs58.

(* ===================================================================== *)
(** ** [parseInt], [trim] *)
(* ===================================================================== *)

(** White space and line terminators of ECMAScript. *)
Definition is_whitespace (c : Z) : bool :=
  existsb (Z.eqb c)
    [0x9; 0xA; 0xB; 0xC; 0xD; 0x20; 0xA0; 0x1680; 0x2028; 0x2029;
     0x202F; 0x205F; 0x3000; 0xFEFF]
  || ((0x2000 <=? c) && (c <=? 0x200A)).

Definition trim (s : jsstring) : jsstring :=
  rev (drop_while is_whitespace (rev (drop_while is_whitespace s))).

Definition is_digit (c : Z) : bool := (48 <=? c) && (c <=? 57).

Definition decimal (ds : list Z) : Z :=
  fold_left (fun acc c => 10 * acc + (c - 48)) ds 0.

(** The double nearest to a non-negative integer, ties going to the even
    significand of 53 bits. *)
Definition round53 (n : Z) : Z :=
  let shift := Z.log2 n - 52 in
  if shift <=? 0 then n
  else
    let q := Z.shiftr n shift in
    let rest := Z.land n (Z.ones shift) in
    let half := Z.shiftl 1 (shift - 1) in
    let up := (half <? rest) || ((rest =? half) && Z.odd q) in
    Z.shiftl (if up then q + 1 else q) shift.

(** The Number value of a mathematical integer: the nearest double, an
    infinity where that would be 2^1024 or more. *)
Definition double (z : Z) : integral :=
  let m := round53 (Z.abs z) in
  if 2 ^ 1024 <=? m then
    if z <? 0 then MinusInfinity else PlusInfinity
  else Finite (Z.sgn z * m).

(** [parseInt(s, 10)]: skip white space, read a sign, read the digits that
    follow and stop at the first character that is not one; the result is
    the Number value of the signed integer that was read.  [None] is
    NaN. *)
Definition parseInt (s : jsstring) : option integral :=
  let inputString := drop_while is_whitespace s in
  let '(sign, rest) :=
    match inputString with
    | 45 :: t => (-1, t)
    | 43 :: t => (1, t)
    | _ => (1, inputString)
    end in
  match take_while is_digit rest with
  | [] => None
  | ds => Some (double (sign * decimal ds))
  end.

(** [num <= 0]. *)
Definition nonpositive (num : integral) : bool :=
  match num with
  | Finite z => z <=? 0
  | PlusInfinity => false
  | MinusInfinity => true
  end.

(* ===================================================================== *)
(** ** What both programs share around the pipeline *)
(* ===================================================================== *)

(** What is written to the error stream before a fatal exit. *)
Inductive diagnostic :=
| valid_positive_number   (* 'Error: Please enter a valid positive number' *)
| all_required            (* 'Error: Password, user salt, and application
                             salt are all required' *)
| caught (e : exception). (* 'Error:' and the message of what was thrown *)

(** A step that hands a value on, or ends the process. *)
Inductive process (A : Type) :=
| Resolved (a : A)
| Exit (code : Z) (d : diagnostic).
Arguments Resolved {A} & a.
Arguments Exit {A} code d.

(** How a run of [main] ends: the exit status, the diagnostic if any, the
    account handed to the report and the secret written to the log file. *)
Record run (A : Type) := {
  exit_code : Z;
  stderr : option diagnostic;
  reported : option A;
  written : option jsstring
}.
Arguments exit_code {A} r.
Arguments stderr {A} r.
Arguments reported {A} r.
Arguments written {A} r.

Definition fatal {A} (code : Z) (d : diagnostic) : run A :=
  {| exit_code := code; stderr := Some d; reported := None; written := None |}.

Definition is_empty (s : jsstring) : bool :=
  match s with
  | [] => true
  | _ => false
  end.

(* ===================================================================== *)
(** ** generator.js *)
(* ===================================================================== *)

Module Generator.

(** [getNumber]: [answer] is the line that readline hands to the
    callback. *)
Definition getNumber (answer : jsstring) : process integral :=
  match parseInt (trim answer) with
  | None => Exit 1 valid_positive_number
  | Some num =>
      if nonpositive num then Exit 1 valid_positive_number
      else Resolved num
  end.

Definition combinedSalt (userSalt applicationSalt : jsstring) : bytes :=
  sha256 (utf8 (userSalt ++ applicationSalt)).

Definition N (costParameter : integral) : number := power2 costParameter.
Definition r : Z := 8.
Definition p : Z := 1.
Definition keyLength : nat := 32.

Definition derivedKey (password userSalt applicationSalt : jsstring)
           (costParameter : integral) : result bytes :=
  Node.scryptSync (utf8 password) (combinedSalt userSalt applicationSalt)
    keyLength {| Node.N := N costParameter; Node.r := r; Node.p := p |}.

Definition privateKey (derivedKey : bytes) : jsstring :=
  js "0x" ++ hex derivedKey.

Record generated := { wallet : Ethers.wallet; actualN : number }.

(** What follows the derivation: the key as a [0x] string, and the
    wallet made from it. *)
Definition materialize (derivedKey : bytes) (n : number)
  : result generated :=
  let* wallet := Ethers.Wallet (privateKey derivedKey) in
  Return {| wallet := wallet; actualN := n |}.

Definition generateWalletFromPassword
           (password userSalt applicationSalt : jsstring)
           (costParameter : integral) : result generated :=
  let* derivedKey :=
    derivedKey password userSalt applicationSalt costParameter in
  materialize derivedKey (N costParameter).

(** [main], given what the three hidden prompts resolved with and the
    line typed for the cost parameter. *)
Definition main (password userSalt applicationSalt answer : jsstring)
  : run generated :=
  match getNumber answer with
  | Exit code d => fatal code d
  | Resolved costParameter =>
      if is_empty password || is_empty userSalt || is_empty applicationSalt
      then fatal 1 all_required
      else
        match generateWalletFromPassword
                password userSalt applicationSalt costParameter with
        | Throw e => fatal 1 (caught e)
        | Return g =>
            {| exit_code := 0; stderr := None; reported := Some g;
               written := Some (Ethers.privateKey (wallet g)) |}
        end
  end.

End Generator.

(* ===================================================================== *)
(** ** sol-generator.js *)
(* ===================================================================== *)

Module SolGenerator.

Definition getNumber (answer : jsstring) : process integral :=
  match parseInt (trim answer) with
  | None => Exit 1 valid_positive_number
  | Some num =>
      if nonpositive num then Exit 1 valid_positive_number
      else Resolved num
  end.

Definition combinedSalt (userSalt applicationSalt : jsstring) : bytes :=
  sha256 (utf8 (userSalt ++ applicationSalt)).

Definition N (costParameter : integral) : number := power2 costParameter.
Definition r : Z := 8.
Definition p : Z := 1.
Definition keyLength : nat := 32.

Definition derivedKey (password userSalt applicationSalt : jsstring)
           (costParameter : integral) : result bytes :=
  Node.scryptSync (utf8 password) (combinedSalt userSalt applicationSalt)
    keyLength {| Node.N := N costParameter; Node.r := r; Node.p := p |}.

Record generated := {
  privateKey : jsstring;   (* base-58 of the 64 bytes seed || public key *)
  publicKey : jsstring;
  address : jsstring;
  actualN : number
}.

(** What follows the derivation: the public key of the seed and the two
    base-58 strings. *)
Definition materialize (derivedKey : bytes) (n : number)
  : result generated :=
  let derivedKeyUint8 := derivedKey in
  let* publicKeyBytes := Ed25519.getPublicKey derivedKeyUint8 in
  let publicKey := Bs58.encode publicKeyBytes in
  let privateKeyBytes := derivedKey ++ publicKeyBytes in
  let privateKey := Bs58.encode privateKeyBytes in
  Return {| privateKey := privateKey; publicKey := publicKey;
            address := publicKey; actualN := n |}.

Definition generateWalletFromPassword
           (password userSalt applicationSalt : jsstring)
           (costParameter : integral) : result generated :=
  let* derivedKey :=
    derivedKey password userSalt applicationSalt costParameter in
  materialize derivedKey (N costParameter).

Definition main (password userSalt applicationSalt answer : jsstring)
  : run generated :=
  match getNumber answer with
  | Exit code d => fatal code d
  | Resolved costParameter =>
      if is_empty password || is_empty userSalt || is_empty applicationSalt
      then fatal 1 all_required
      else
        match generateWalletFromPassword
                password userSalt applicationSalt costParameter with
        | Throw e => fatal 1 (caught e)
        | Return g =>
            {| exit_code := 0; stderr := None; reported := Some g;
               written := Some (privateKey g) |}
        end
  end.

End SolGenerator.

(* ===================================================================== *)
(** ** The vocabulary of the statements *)
(* ===================================================================== *)

(** The one place where the bytes of [a + b] are not the bytes of [a]
    followed by the bytes of [b]: [a] ends with the first half of a
    surrogate pair and [b] starts with the second half. *)
Definition splits_pair (a b : jsstring) : bool :=
  is_high_surrogate (last a 0) &&
  match b with
  | d :: _ => is_low_surrogate d
  | [] => false
  end.

(** [w] repeated [n] times. *)
Fixpoint power (w : jsstring) (n : nat) : jsstring :=
  match n with
  | O => []
  | S k => w ++ power w k
  end.

(** Digits in some base: in range; their value when written least
    significant first, and most significant first; most significant first
    without a leading zero. *)
Definition digit_ok (base d : Z) : Prop := 0 <= d < base.

Definition value_le (base : Z) (ds : list Z) : Z :=
  fold_right (fun d acc => d + base * acc) 0 ds.

Definition value_be (base : Z) (ds : list Z) : Z :=
  fold_left (fun acc d => base * acc + d) ds 0.

Definition canonical (base : Z) (ds : list Z) : Prop :=
  Forall (digit_ok base) ds /\ hd 1 ds <> 0.

(** The character of a base-58 digit. *)
Definition alphabet_char (d : Z) : Z := nth (Z.to_nat d) Bs58.ALPHABET 0.

(** The cost factor that survives the two parameter tests, for the block
    size and parallelization that both programs fix. *)
Definition accepted_cost (e : Z) : result Z :=
  let* n := Node.check_N (pow2 e) in
  let* _ := Node.check_params n 8 1 Node.default_maxmem in
  Return n.

(** The same, read off the exponent. *)
Definition cost_table (e : Z) : result Z :=
  if e <? -1074 then Return Node.default_N
  else if e <? 0 then Throw ERR_OUT_OF_RANGE
  else if e =? 0 then Throw (ERR_CRYPTO_INVALID_SCRYPT_PARAMS invalid_cost)
  else if e <=? 14 then Return (2 ^ e)
  else if e <=? 31
       then Throw (ERR_CRYPTO_INVALID_SCRYPT_PARAMS memory_limit_exceeded)
       else Throw ERR_OUT_OF_RANGE.

Definition same_outcome (a b : result Z) : bool :=
  match a, b with
  | Return x, Return y => x =? y
  | Throw ERR_OUT_OF_RANGE, Throw ERR_OUT_OF_RANGE => true
  | Throw (ERR_CRYPTO_INVALID_SCRYPT_PARAMS invalid_cost),
    Throw (ERR_CRYPTO_INVALID_SCRYPT_PARAMS invalid_cost) => true
  | Throw (ERR_CRYPTO_INVALID_SCRYPT_PARAMS memory_limit_exceeded),
    Throw (ERR_CRYPTO_INVALID_SCRYPT_PARAMS memory_limit_exceeded) => true
  | _, _ => false
  end.

(** The seed, read as a big-endian scalar, is nonzero and less than the
    order of the curve. *)
Definition in_scalar_range (seed : bytes) : bool :=
  (0 <? be_value seed) && (be_value seed <? Secp256k1.n).

(** A tail that does not go on with a digit. *)
Definition not_digit_first (t : jsstring) : Prop :=
  match t with
  | c :: _ => is_digit c = false
  | [] => True
  end.

(** A line that starts with nothing a number can start with. *)
Definition no_number_first (t : jsstring) : Prop :=
  match t with
  | c :: _ => is_digit c = false /\ is_whitespace c = false /\
              c <> 45 /\ c <> 43
  | [] => True
  end.

(** What [parseInt] returns once the sign is known and [rest] is what
    follows it. *)
Definition read_digits (sign : Z) (rest : jsstring) : option integral :=
  match take_while is_digit rest with
  | [] => None
  | ds => Some (double (sign * decimal ds))
  end.

(** The integer that a sign and a run of digits stand for. *)
Definition signed (sign : jsstring) (ds : jsstring) : Z :=
  match sign with
  | 45 :: _ => - decimal ds
  | _ => decimal ds
  end.

(** White space taken off the end only. *)
Definition rtrim (s : jsstring) : jsstring :=
  rev (drop_while is_whitespace (rev s)).

(** The inputs of the scenario of the specification, with the smallest
    cost exponent. *)
Definition scenario_seed : bytes :=
  Scrypt.scrypt (utf8 (js "correct horse"))
    (Generator.combinedSalt (js "battery") (js "staple")) (2 ^ 1) 8 1 32.

(** What a refused line does to a run: both programs end with status 1
    after the diagnostic, nothing is reported and nothing is written. *)
Definition refused (answer : jsstring) : Prop :=
  Generator.getNumber answer = Exit 1 valid_positive_number /\
  SolGenerator.getNumber answer = Exit 1 valid_positive_number /\
  forall password userSalt applicationSalt : jsstring,
    Generator.main password userSalt applicationSalt answer =
    {| exit_code := 1; stderr := Some valid_positive_number;
       reported := None; written := None |} /\
    SolGenerator.main password userSalt applicationSalt answer =
    {| exit_code := 1; stderr := Some valid_positive_number;
       reported := None; written := None |}.

Definition accepted (answer : jsstring) (costParameter : integral) : Prop :=
  Generator.getNumber answer = Resolved costParameter /\
  SolGenerator.getNumber answer = Resolved costParameter.

(** A buffer written as hexadecimal digits. *)
Definition from_hex (s : jsstring) : bytes :=
  match unhex s with
  | Some bs => bs
  | None => []
  end.

(** The block that scrypt expands the empty passphrase and the empty salt
    into (r = 1, p = 1), and what scryptROMix with N = 16 makes of it: the
    test data of RFC 7914 section 10. *)
Definition romix_input : bytes :=
  from_hex
    (js "f7ce0b653d2d72a4108cf5abe912ffdd777616dbbb27a70e8204f3ae2d0f6fad"
     ++ js "89f68f4811d1e87bcc3bd7400a9ffd29094f0184639574f39ae5a1315217bcd7"
     ++ js "894991447213bb226c25b54da86370fbcd984380374666bb8ffcb5bf40c254b0"
     ++ js "67d27c51ce4ad5fed829c90b505a571b7f4d1cad6a523cda770e67bceaaf7e89").

Definition romix_output : bytes :=
  from_hex
    (js "79ccc193629debca047f0b70604bf6b62ce3dd4a9626e355fafc6198e6ea2b46"
     ++ js "d58413673b99b029d665c357601fb426a0b2f4bba200ee9f0a43d19b571a9c71"
     ++ js "ef1142e65d5a266fddca832ce59faa7cac0b9cf1be2bffca300d01ee387619c4"
     ++ js "ae12fd4438f203a0e4e1c47ec314861f4e9087cb33396a6873e8f9d2539a4b8e").

(** A string with no surrogate on its own, what
    [String.prototype.isWellFormed] tells; its code units are 16 bits
    wide. *)
Fixpoint well_formed (s : jsstring) : bool :=
  match s with
  | [] => true
  | c :: rest =>
      if is_high_surrogate c then
        match rest with
        | d :: rest' => is_low_surrogate d && well_formed rest'
        | [] => false
        end
      else negb (is_low_surrogate c) && (0 <=? c) && (c <? 0x10000)
           && well_formed rest
  end.

(** The code points that [utf8] reads off a string. *)
Fixpoint code_points (s : jsstring) : list Z :=
  match s with
  | [] => []
  | c :: rest =>
      if is_high_surrogate c then
        match rest with
        | d :: rest' =>
            if is_low_surrogate d
            then (0x10000 + (c - 0xD800) * 1024 + (d - 0xDC00))
                 :: code_points rest'
            else 0xFFFD :: code_points rest
        | [] => [0xFFFD]
        end
      else if is_low_surrogate c then 0xFFFD :: code_points rest
      else c :: code_points rest
  end.

(** Two different inputs that SHA-256 maps to one digest. *)
Definition collision (x y : bytes) : Prop := x <> y /\ sha256 x = sha256 y.

(* ===================================================================== *)
(** ** The hidden prompt of both programs ([getPassword]) *)
(* ===================================================================== *)

(** [String.prototype.slice(start, end)]; [None] is an [end] left out. *)
Definition slice (s : jsstring) (start : Z) (stop : option Z) : jsstring :=
  let len := Z.of_nat (length s) in
  let from := if start <? 0 then Z.max (len + start) 0 else Z.min start len in
  let to :=
    match stop with
    | None => len
    | Some e => if e <? 0 then Z.max (len + e) 0 else Z.min e len
    end in
  firstn (Z.to_nat (to - from)) (skipn (Z.to_nat from) s).

Module GetPassword.

(** [process.stdin], a terminal that hands out strings, and what has
    been written to [process.stdout]. *)
Record terminal := {
  isRaw : bool;
  isPaused : bool;
  listening : bool;     (* [onData] is attached to 'data' *)
  stdout : jsstring
}.

Definition write (s : jsstring) (t : terminal) : terminal :=
  {| isRaw := isRaw t; isPaused := isPaused t; listening := listening t;
     stdout := stdout t ++ s |}.

Definition setRawMode (mode : bool) (t : terminal) : terminal :=
  {| isRaw := mode; isPaused := isPaused t; listening := listening t;
     stdout := stdout t |}.

Definition resume (t : terminal) : terminal :=
  {| isRaw := isRaw t; isPaused := false; listening := listening t;
     stdout := stdout t |}.

Definition pause (t : terminal) : terminal :=
  {| isRaw := isRaw t; isPaused := true; listening := listening t;
     stdout := stdout t |}.

Definition on (t : terminal) : terminal :=
  {| isRaw := isRaw t; isPaused := isPaused t; listening := true;
     stdout := stdout t |}.

Definition removeListener (t : terminal) : terminal :=
  {| isRaw := isRaw t; isPaused := isPaused t; listening := false;
     stdout := stdout t |}.

(** The variables of one call that [onData] and [cleanup] close over. *)
Record closure := {
  wasRaw : bool;
  wasPaused : bool;
  password : jsstring;
  buffer : jsstring
}.

Definition set_password (s : jsstring) (c : closure) : closure :=
  {| wasRaw := wasRaw c; wasPaused := wasPaused c; password := s;
     buffer := buffer c |}.

Definition set_buffer (s : jsstring) (c : closure) : closure :=
  {| wasRaw := wasRaw c; wasPaused := wasPaused c; password := password c;
     buffer := s |}.

(** Where the call stands: still listening, resolved, or the process
    gone. *)
Inductive promise :=
| Pending (c : closure)
| Resolve (password : jsstring)
| ProcessExit (code : Z).

Definition cleanup (c : closure) (t : terminal) : terminal :=
  let t := setRawMode (wasRaw c) t in
  let t := if wasPaused c then pause t else t in
  removeListener t.

(** The [while (buffer.length > 0)] loop of [onData].  Every turn takes
    at least one code unit off the buffer, so its length is fuel
    enough. *)
Fixpoint loop (fuel : nat) (c : closure) (t : terminal)
  : promise * terminal :=
  match fuel with
  | O => (Pending c, t)
  | S fuel' =>
      match buffer c with
      | [] => (Pending c, t)
      | char :: _ =>
          let code := char in
          let c := set_buffer (slice (buffer c) 1 None) c in
          if (char =? 13) || (char =? 10) then
            (Resolve (password c), write [10] (cleanup c t))
          else if code =? 3 then
            (ProcessExit 130, write [10] (cleanup c t))
          else if (code =? 127) || (code =? 8) then
            if (0 <? length (password c))%nat then
              loop fuel'
                   (set_password (slice (password c) 0 (Some (-1))) c)
                   (write [8; 32; 8] t)
            else loop fuel' c t
          else if code <? 32 then loop fuel' c t
          else if code =? 27 then
            let rest :=
              drop_while (fun ch => (ch <? 64) || (126 <? ch)) (buffer c) in
            let rest :=
              if (0 <? length rest)%nat then slice rest 1 None else rest in
            loop fuel' (set_buffer rest c) t
          else
            loop fuel' (set_password (password c ++ [char]) c)
                 (write [42] t)
      end
  end.

Definition onData (data : jsstring) (c : closure) (t : terminal)
  : promise * terminal :=
  let c := set_buffer (buffer c ++ data) c in
  loop (length (buffer c)) c t.

(** The 'data' events of stdin, one string each, reach [onData] for as
    long as it is attached; the events that are left come back. *)
Fixpoint deliver (events : list jsstring) (c : closure) (t : terminal)
  : promise * terminal * list jsstring :=
  match events with
  | [] => (Pending c, t, [])
  | data :: later =>
      match onData data c t with
      | (Pending c', t') => deliver later c' t'
      | (done, t') => (done, t', later)
      end
  end.

Definition getPassword (prompt : jsstring) (events : list jsstring)
           (t : terminal) : promise * terminal * list jsstring :=
  let t := write prompt t in
  let wasRaw := isRaw t in
  let wasPaused := isPaused t in
  let t := if wasPaused then resume t else t in
  let t := setRawMode true t in
  let c := {| wasRaw := wasRaw; wasPaused := wasPaused;
              password := []; buffer := [] |} in
  deliver events c (on t).

End GetPassword.

(* ===================================================================== *)
(** ** [main] with its prompts, and its report *)
(* ===================================================================== *)

(** A process that is still waiting for input, or has ended. *)
Inductive session (A : Type) :=
| Waits
| Ends (r : run A).
Arguments Waits {A}.
Arguments Ends {A} r.

(** The end that [process.exit(code)] of a prompt makes. *)
Definition interrupted {A} (code : Z) : run A :=
  {| exit_code := code; stderr := None; reported := None; written := None |}.

(** The three hidden prompts of [main] over the 'data' events of stdin,
    then what [main] does with their answers; [answer] is the line that
    readline hands over for the fourth prompt.  Both programs read their
    inputs in these words. *)
Definition main_with_prompts {A}
           (main : jsstring -> jsstring -> jsstring -> jsstring -> run A)
           (events : list jsstring) (answer : jsstring)
           (t : GetPassword.terminal) : session A :=
  match GetPassword.getPassword (js "Enter password: ") events t with
  | (GetPassword.Pending _, _, _) => Waits
  | (GetPassword.ProcessExit code, _, _) => Ends (interrupted code)
  | (GetPassword.Resolve password, t, events) =>
      match GetPassword.getPassword
              (js "Enter user salt/passphrase (remember this!): ")
              events t with
      | (GetPassword.Pending _, _, _) => Waits
      | (GetPassword.ProcessExit code, _, _) => Ends (interrupted code)
      | (GetPassword.Resolve userSalt, t, events) =>
          match GetPassword.getPassword
                  (js "Enter application salt (remember this!): ")
                  events t with
          | (GetPassword.Pending _, _, _) => Waits
          | (GetPassword.ProcessExit code, _, _) => Ends (interrupted code)
          | (GetPassword.Resolve applicationSalt, _, _) =>
              Ends (main password userSalt applicationSalt answer)
          end
      end
  end.


(** The line of the report that shows the private key:
    [console.log('Private Key:', k.slice(0, 3) + '...' + k.slice(-3))]. *)
Definition private_key_line (privateKey : jsstring) : jsstring :=
  js "Private Key:" ++ [32]
  ++ (slice privateKey 0 (Some 3) ++ js "..." ++ slice privateKey (-3) None)
  ++ [10].

(** ** Vocabulary of the statements about the prompt *)

(** A code unit that the prompt takes into the password. *)
Definition printable (c : Z) : bool := (32 <=? c) && negb (c =? 127).

(** A code unit that the prompt passes over. *)
Definition passed_over (c : Z) : bool :=
  (c <? 32) && negb (existsb (Z.eqb c) [3; 8; 10; 13]).

Definition is_enter (c : Z) : bool := (c =? 13) || (c =? 10).

(** Where the cursor is after an echo, counted from where it was: a
    backspace goes one column back, anything else one forward. *)
Definition column (echo : jsstring) : Z :=
  fold_left (fun col ch => if ch =? 8 then col - 1 else col + 1) echo 0.

(** The loop of [onData] read off the code units one by one, the branch
    for escape sequences left out. *)
Fixpoint keys (b : jsstring) (c : GetPassword.closure)
         (t : GetPassword.terminal)
  : GetPassword.promise * GetPassword.terminal :=
  match b with
  | [] => (GetPassword.Pending (GetPassword.set_buffer [] c), t)
  | ch :: rest =>
      if is_enter ch then
        (GetPassword.Resolve (GetPassword.password c),
         GetPassword.write [10] (GetPassword.cleanup c t))
      else if ch =? 3 then
        (GetPassword.ProcessExit 130,
         GetPassword.write [10] (GetPassword.cleanup c t))
      else if (ch =? 127) || (ch =? 8) then
        match GetPassword.password c with
        | [] => keys rest c t
        | _ :: _ =>
            keys rest
                 (GetPassword.set_password
                    (removelast (GetPassword.password c)) c)
                 (GetPassword.write [8; 32; 8] t)
        end
      else if ch <? 32 then keys rest c t
      else
        keys rest
             (GetPassword.set_password (GetPassword.password c ++ [ch]) c)
             (GetPassword.write [42] t)
  end.

(** What a call of [getPassword] has set up when it returns its promise:
    the variables of the call, and the terminal with the prompt written,
    in raw mode, flowing and listened to. *)
Definition opening_closure (t : GetPassword.terminal) : GetPassword.closure :=
  {| GetPassword.wasRaw := GetPassword.isRaw t;
     GetPassword.wasPaused := GetPassword.isPaused t;
     GetPassword.password := []; GetPassword.buffer := [] |}.

Definition opening_terminal (prompt : jsstring) (t : GetPassword.terminal)
  : GetPassword.terminal :=
  {| GetPassword.isRaw := true; GetPassword.isPaused := false;
     GetPassword.listening := true;
     GetPassword.stdout := GetPassword.stdout t ++ prompt |}.

(** The terminal before the first prompt: cooked, not paused, nothing
    written. *)
Definition fresh_terminal : GetPassword.terminal :=
  {| GetPassword.isRaw := false; GetPassword.isPaused := false;
     GetPassword.listening := false; GetPassword.stdout := [] |}.

(** Two promises that stand alike: both pending with the same password
    so far, both resolved with the same password, or both gone with the
    same status. *)
Definition same_promise (p p' : GetPassword.promise) : Prop :=
  match p, p' with
  | GetPassword.Pending c, GetPassword.Pending c' =>
      GetPassword.password c = GetPassword.password c'
  | GetPassword.Resolve a, GetPassword.Resolve a' => a = a'
  | GetPassword.ProcessExit code, GetPassword.ProcessExit code' =>
      code = code'
  | _, _ => False
  end.

(** The password of a prompt that has not ended the process. *)
Definition password_of (p : GetPassword.promise) : option jsstring :=
  match p with
  | GetPassword.Pending c => Some (GetPassword.password c)
  | GetPassword.Resolve password => Some password
  | GetPassword.ProcessExit _ => None
  end.

Definition settled (p : GetPassword.promise) : bool :=
  match p with
  | GetPassword.Pending _ => false
  | _ => true
  end.

(** What one prompt leaves behind apart from the events it did not read. *)
Definition outcome (x : GetPassword.promise * GetPassword.terminal
                        * list jsstring)
  : GetPassword.promise * GetPassword.terminal :=
  fst x.

(* ===================================================================== *)
(** * Test vectors *)
(* ===================================================================== *)

Example sha256_abc :
  hex (sha256 (ascii_bytes "abc")) =
  js "ba7816bf8f01cfea414140de5dae2223b00361a396177a9cb410ff61f20015ad".
Proof. by_evaluation. Qed.

Example sha256_empty :
  hex (sha256 []) =
  js "e3b0c44298fc1c149afbf4c8996fb92427ae41e4649b934ca495991b7852b855".
Proof. by_evaluation. Qed.

Example sha512_abc :
  hex (sha512 (ascii_bytes "abc")) =
  js "ddaf35a193617abacc417349ae20413112e6fa4e89a97ea20a9eeee64b55d39a"
  ++ js "2192992a274fc1a836ba3c23a3feebbd454d4423643ce80e2a9ac94fa54ca49f".
Proof. by_evaluation. Qed.

(** RFC 7914 section 11: PBKDF2-HMAC-SHA-256 of the passphrase passwd
    and the salt salt, one iteration, 64 bytes. *)
Example pbkdf2_rfc7914 :
  hex (Scrypt.pbkdf2 (ascii_bytes "passwd") (ascii_bytes "salt") 1 64) =
  js "55ac046e56e3089fec1691c22544b605f94185216dde0465e68b9d57c20dacbc"
  ++ js "49ca9cccf179b645991664b39d77ef317c71b845b1e30bd509112041d3a19783".
Proof. by_evaluation. Qed.

(** RFC 7914 section 10: scryptROMix with N = 16. *)
Example romix_rfc7914 : Scrypt.romix 16 romix_input = romix_output.
Proof. by_evaluation. Qed.

(** The three stages of scrypt, each on the result of the one before. *)
Lemma scrypt_stages (P S : bytes) (N r p : Z) (dkLen : nat) (B B' : bytes) :
  Scrypt.pbkdf2 P S 1 (Z.to_nat (p * 128 * r)) = B ->
  concat (map (Scrypt.romix N) (chunk (Z.to_nat (128 * r)) B)) = B' ->
  Scrypt.scrypt P S N r p dkLen = Scrypt.pbkdf2 P B' 1 dkLen.
Proof. intros <- <-. reflexivity. Qed.

Example scrypt_rfc7914_expand :
  Scrypt.pbkdf2 [] [] 1 (Z.to_nat (1 * 128 * 1)) = romix_input.
Proof. by_evaluation. Qed.

Example scrypt_rfc7914_mix :
  concat (map (Scrypt.romix 16) (chunk (Z.to_nat (128 * 1)) romix_input))
  = romix_output.
Proof.
  replace (chunk (Z.to_nat (128 * 1)) romix_input) with [romix_input]
    by (symmetry; by_evaluation).
  cbn [map concat]. rewrite romix_rfc7914. apply app_nil_r.
Qed.

Example scrypt_rfc7914_extract :
  hex (Scrypt.pbkdf2 [] romix_output 1 64) =
  js "77d6576238657b203b19ca42c18a0497f16b4844e3074ae8dfdffa3fede21442"
  ++ js "fcd0069ded0948f8326a753a0fc81f17e8d3e0fb2e0d3628cf35e20c38d18906".
Proof. by_evaluation. Qed.

(** RFC 7914 section 12: scrypt of the empty passphrase and the empty
    salt with N = 16, r = 1, p = 1, 64 bytes. *)
Example scrypt_rfc7914 :
  hex (Scrypt.scrypt [] [] 16 1 1 64) =
  js "77d6576238657b203b19ca42c18a0497f16b4844e3074ae8dfdffa3fede21442"
  ++ js "fcd0069ded0948f8326a753a0fc81f17e8d3e0fb2e0d3628cf35e20c38d18906".
Proof.
  rewrite (scrypt_stages [] [] 16 1 1 64 romix_input romix_output
             scrypt_rfc7914_expand scrypt_rfc7914_mix).
  exact scrypt_rfc7914_extract.
Qed.

Example keccak256_empty :
  hex (Keccak.keccak256 []) =
  js "c5d2460186f7233c927e7db2dcc703c0e500b653ca82273b7bfad8045d85a470".
Proof. by_evaluation. Qed.

Example keccak256_abc :
  hex (Keccak.keccak256 (ascii_bytes "abc")) =
  js "4e03657aea45a94fc7d47ba826c8d667c0d1e6e33a64a036ec44f58fa12d6c45".
Proof. by_evaluation. Qed.

Example secp256k1_generator_on_curve :
  (Secp256k1.Gy * Secp256k1.Gy) mod Secp256k1.p =
  (Secp256k1.Gx * Secp256k1.Gx * Secp256k1.Gx + 7) mod Secp256k1.p.
Proof. by_evaluation. Qed.

(** The well-known account of the private key 1. *)
Example wallet_of_key_1 :
  rmap Ethers.address (Ethers.Wallet (js "0x" ++ hex (be_bytes 32 1))) =
  Return (js "0x7E5F4552091A69125d5DfCb7b8C2659029395Bdf").
Proof. by_evaluation. Qed.

Example ed25519_constants :
  (Ed25519.d * 121666 + 121665) mod Ed25519.p = 0 /\
  (Ed25519.By * 5) mod Ed25519.p = 4 /\
  Ed25519.Bx mod 2 = 0 /\
  (Ed25519.By * Ed25519.By - Ed25519.Bx * Ed25519.Bx) mod Ed25519.p =
  (1 + Ed25519.d * Ed25519.Bx * Ed25519.Bx * Ed25519.By * Ed25519.By)
    mod Ed25519.p.
Proof. repeat split; vm_compute; reflexivity. Qed.

(** Two well-known base-58 strings: thirty-two zero bytes are the address
    of the system program, and "Hello World!". *)
Example bs58_zero_key :
  Bs58.encode (repeat x00 32) = js "11111111111111111111111111111111".
Proof. by_evaluation. Qed.

Example bs58_hello :
  Bs58.encode (ascii_bytes "Hello World!") = js "2NEpo7TZRRrLZSi2U".
Proof. by_evaluation. Qed.

Example bs58_hello_back :
  Bs58.decode (js "2NEpo7TZRRrLZSi2U") = Return (ascii_bytes "Hello World!").
Proof. by_evaluation. Qed.

(** UTF-8 of characters of one, two, three and four bytes, and of a
    surrogate on its own. *)
Example utf8_characters :
  hex (utf8 [0x41; 0xE9; 0x20AC; 0xD83D; 0xDE00]) = js "41c3a9e282acf09f9880".
Proof. by_evaluation. Qed.

Example utf8_lone_surrogate :
  hex (utf8 [0xD83D; 0x41]) = js "efbfbd41".
Proof. by_evaluation. Qed.

Example parseInt_examples :
  parseInt (js "14") = Some (Finite 14) /\
  parseInt (js "  42abc") = Some (Finite 42) /\
  parseInt (js "-7") = Some (Finite (-7)) /\
  parseInt (js "+5") = Some (Finite 5) /\
  parseInt (js "3.5") = Some (Finite 3) /\
  parseInt (js "1e3") = Some (Finite 1) /\
  parseInt (js "0x10") = Some (Finite 0) /\
  parseInt (js ".5") = None /\
  parseInt (js "- 3") = None /\
  parseInt [] = None.
Proof. repeat split. Qed.

(** Beyond 2^53 the integer that was read is rounded to the nearest
    double, a tie to the even one; 10^309 is beyond the largest double. *)
Example parseInt_rounds :
  parseInt (js "9007199254740992") = Some (Finite 9007199254740992) /\
  parseInt (js "9007199254740993") = Some (Finite 9007199254740992) /\
  parseInt (js "9007199254740995") = Some (Finite 9007199254740996) /\
  parseInt (js "-9007199254740993") = Some (Finite (-9007199254740992)) /\
  parseInt (js "18014398509481987") = Some (Finite 18014398509481988) /\
  (exists z, parseInt (49 :: repeat 48 308) = Some (Finite z)) /\
  parseInt (49 :: repeat 48 309) = Some PlusInfinity /\
  parseInt (45 :: 49 :: repeat 48 309) = Some MinusInfinity.
Proof. repeat split. eexists. vm_compute. reflexivity. Qed.

Example getNumber_examples :
  Generator.getNumber (js " 14 ") = Resolved 14 /\
  Generator.getNumber (js "0") = Exit 1 valid_positive_number /\
  Generator.getNumber (js "-2") = Exit 1 valid_positive_number /\
  Generator.getNumber (js "abc") = Exit 1 valid_positive_number.
Proof. repeat split. Qed.

(** What Node makes of cost exponents around the accepted ones; 15 and 16
    are among those that the prompt of both programs suggests. *)
Example derivedKey_refusals :
  let derive := Generator.derivedKey (js "correct horse") (js "battery")
                  (js "staple") in
  derive 0 = Throw (ERR_CRYPTO_INVALID_SCRYPT_PARAMS invalid_cost) /\
  derive 15 = Throw (ERR_CRYPTO_INVALID_SCRYPT_PARAMS memory_limit_exceeded) /\
  derive 16 = Throw (ERR_CRYPTO_INVALID_SCRYPT_PARAMS memory_limit_exceeded) /\
  derive 32 = Throw ERR_OUT_OF_RANGE /\
  derive (-1) = Throw ERR_OUT_OF_RANGE.
Proof. cbv zeta. repeat split. Qed.

(** The ways in which [main] ends before any account exists; the number
    is refused before the three secrets are looked at. *)
Example main_failures :
  Generator.main (js "correct horse") (js "battery") (js "staple") (js "abc")
  = fatal 1 valid_positive_number /\
  Generator.main [] (js "battery") (js "staple") (js "abc")
  = fatal 1 valid_positive_number /\
  Generator.main [] (js "battery") (js "staple") (js "14")
  = fatal 1 all_required /\
  Generator.main (js "correct horse") (js "battery") (js "staple") (js "20")
  = fatal 1 (caught (ERR_CRYPTO_INVALID_SCRYPT_PARAMS memory_limit_exceeded)) /\
  SolGenerator.main (js "correct horse") (js "battery") (js "staple") (js "20")
  = fatal 1 (caught (ERR_CRYPTO_INVALID_SCRYPT_PARAMS memory_limit_exceeded)).
Proof. repeat split. Qed.

(* ===================================================================== *)
(** * Properties *)
(* ===================================================================== *)

(** ** Bytes and lengths *)

Lemma byte_to_Z_range (b : byte) : 0 <= byte_to_Z b < 256.
Proof.
  unfold byte_to_Z. pose proof (Byte.to_N_bounded b). lia.
Qed.

Lemma byte_of_to_Z (b : byte) : byte_of_Z (byte_to_Z b) = b.
Proof.
  unfold byte_of_Z. pose proof (byte_to_Z_range b) as R.
  rewrite Z.mod_small by exact R.
  unfold byte_to_Z. rewrite N2Z.id, Byte.of_to_N. reflexivity.
Qed.

Lemma byte_to_of_Z (z : Z) : 0 <= z < 256 -> byte_to_Z (byte_of_Z z) = z.
Proof.
  intros R. unfold byte_of_Z. rewrite Z.mod_small by exact R.
  destruct (Byte.of_N (Z.to_N z)) as [b|] eqn:E.
  - apply Byte.to_of_N in E. unfold byte_to_Z. rewrite E. lia.
  - apply Byte.of_N_None_iff in E. lia.
Qed.

Lemma be_bytes_length (n : nat) (z : Z) : length (be_bytes n z) = n.
Proof. induction n; simpl; congruence. Qed.

Lemma le_bytes_length (n : nat) (z : Z) : length (le_bytes n z) = n.
Proof. revert z. induction n; intros; simpl; congruence. Qed.

Lemma xor_bytes_length (a b : bytes) :
  length (xor_bytes a b) = Nat.min (length a) (length b).
Proof. unfold xor_bytes. rewrite length_map, length_combine. reflexivity. Qed.

Lemma hex_length (bs : bytes) : length (hex bs) = (2 * length bs)%nat.
Proof. induction bs; simpl; lia. Qed.

(** Every SHA-2 digest is eight words long. *)
Lemma digest_length (P : SHA2.params) (msg : bytes) :
  length (SHA2.digest P msg) = (8 * Z.to_nat (SHA2.wbits P / 8))%nat.
Proof.
  unfold SHA2.digest. cbn [flat_map].
  repeat rewrite length_app. repeat rewrite be_bytes_length.
  simpl. lia.
Qed.

Lemma sha256_length (msg : bytes) : length (sha256 msg) = 32%nat.
Proof. unfold sha256. rewrite digest_length. reflexivity. Qed.

Lemma sha512_length (msg : bytes) : length (sha512 msg) = 64%nat.
Proof. unfold sha512. rewrite digest_length. reflexivity. Qed.

Lemma hmac_length (key msg : bytes) : length (Scrypt.hmac key msg) = 32%nat.
Proof. unfold Scrypt.hmac. apply sha256_length. Qed.

Lemma pbkdf2_U_length (P : bytes) (c : nat) (U : bytes) :
  length U = 32%nat ->
  length (snd (Nat.iter c (Scrypt.pbkdf2_U P) (U, U))) = 32%nat.
Proof.
  intros HU.
  assert (H : forall st, length (snd st) = 32%nat ->
                length (snd (Nat.iter c (Scrypt.pbkdf2_U P) st)) = 32%nat).
  { induction c; intros st Hst.
    - exact Hst.
    - change (Nat.iter (S c) (Scrypt.pbkdf2_U P) st)
        with (Scrypt.pbkdf2_U P (Nat.iter c (Scrypt.pbkdf2_U P) st)).
      unfold Scrypt.pbkdf2_U at 1. cbn [snd].
      rewrite xor_bytes_length, hmac_length, (IHc st Hst). reflexivity. }
  apply H. exact HU.
Qed.

Lemma pbkdf2_F_length (P S : bytes) (c i : nat) :
  length (Scrypt.pbkdf2_F P S c i) = 32%nat.
Proof. unfold Scrypt.pbkdf2_F. apply pbkdf2_U_length, hmac_length. Qed.

Lemma flat_map_length_const {A B} (f : A -> list B) (k : nat) (l : list A) :
  (forall a, length (f a) = k) -> length (flat_map f l) = (k * length l)%nat.
Proof.
  intros Hf. induction l as [|a l IH]; simpl.
  - lia.
  - rewrite length_app, Hf, IH. lia.
Qed.

(** PBKDF2 hands back exactly as many bytes as were asked for. *)
Lemma pbkdf2_length (P S : bytes) (c dkLen : nat) :
  length (Scrypt.pbkdf2 P S c dkLen) = dkLen.
Proof.
  unfold Scrypt.pbkdf2. rewrite length_firstn.
  rewrite (flat_map_length_const _ 32) by apply pbkdf2_F_length.
  rewrite length_seq.
  pose proof (Nat.div_mod_eq (dkLen + 31) 32) as D.
  pose proof (Nat.mod_upper_bound (dkLen + 31) 32) as M.
  lia.
Qed.

Lemma scrypt_length (P S : bytes) (N r p : Z) (dkLen : nat) :
  length (Scrypt.scrypt P S N r p dkLen) = dkLen.
Proof. unfold Scrypt.scrypt. apply pbkdf2_length. Qed.

(** ** Hexadecimal strings read back *)

Lemma unhex_hex_byte (b : byte) :
  hex_value (hex_digit (byte_to_Z b / 16)) = Some (byte_to_Z b / 16) /\
  hex_value (hex_digit (byte_to_Z b mod 16)) = Some (byte_to_Z b mod 16).
Proof. destruct b; split; reflexivity. Qed.

Lemma unhex_hex (bs : bytes) : unhex (hex bs) = Some bs.
Proof.
  induction bs as [|b bs IH]; [reflexivity|].
  change (hex (b :: bs))
    with (hex_digit (byte_to_Z b / 16) :: hex_digit (byte_to_Z b mod 16)
            :: hex bs).
  cbn [unhex].
  destruct (unhex_hex_byte b) as [-> ->]. rewrite IH.
  f_equal. f_equal.
  rewrite <- (byte_of_to_Z b) at 3. f_equal.
  pose proof (Z.div_mod (byte_to_Z b) 16). lia.
Qed.

(** ** UTF-8 of a concatenation *)

Lemma utf8_cons_plain (c : Z) (s : jsstring) :
  is_high_surrogate c = false ->
  utf8 (c :: s) =
  (if is_low_surrogate c then utf8_point 0xFFFD else utf8_point c) ++ utf8 s.
Proof.
  intros H. cbn [utf8]. rewrite H. destruct (is_low_surrogate c); reflexivity.
Qed.

Lemma utf8_cons_high (c d : Z) (s : jsstring) :
  is_high_surrogate c = true ->
  utf8 (c :: d :: s) =
  if is_low_surrogate d
  then utf8_point (0x10000 + (c - 0xD800) * 1024 + (d - 0xDC00)) ++ utf8 s
  else utf8_point 0xFFFD ++ utf8 (d :: s).
Proof. intros H. change (utf8 (c :: d :: s)) with
    (if is_high_surrogate c then
       if is_low_surrogate d
       then utf8_point (0x10000 + (c - 0xD800) * 1024 + (d - 0xDC00)) ++ utf8 s
       else utf8_point 0xFFFD ++ utf8 (d :: s)
     else if is_low_surrogate c then utf8_point 0xFFFD ++ utf8 (d :: s)
     else utf8_point c ++ utf8 (d :: s)).
  rewrite H. reflexivity.
Qed.

Lemma utf8_app_bounded (n : nat) :
  forall a b, (length a <= n)%nat -> splits_pair a b = false ->
              utf8 (a ++ b) = utf8 a ++ utf8 b.
Proof.
  induction n as [|n IH]; intros a b Hlen Hsp.
  - destruct a; [reflexivity | simpl in Hlen; lia].
  - destruct a as [|c rest]; [reflexivity|].
    simpl in Hlen.
    destruct (is_high_surrogate c) eqn:Hc.
    + destruct rest as [|d rest'].
      * (* a lone high surrogate at the very end of [a] *)
        unfold splits_pair in Hsp. cbn [last] in Hsp. rewrite Hc in Hsp.
        cbn [app utf8]. rewrite Hc.
        destruct b as [|d b']; [reflexivity|].
        cbn [andb] in Hsp. rewrite Hsp. reflexivity.
      * change ((c :: d :: rest') ++ b) with (c :: d :: (rest' ++ b)).
        rewrite !utf8_cons_high by exact Hc.
        destruct (is_low_surrogate d) eqn:Hd.
        -- rewrite <- app_assoc. f_equal.
           apply IH; [simpl in Hlen; lia|].
           destruct rest' as [|e rest''].
           ++ unfold splits_pair. reflexivity.
           ++ exact Hsp.
        -- rewrite <- app_assoc. f_equal.
           apply (IH (d :: rest') b); [simpl in *; lia|].
           exact Hsp.
    + change ((c :: rest) ++ b) with (c :: (rest ++ b)).
      rewrite !utf8_cons_plain by exact Hc.
      rewrite <- app_assoc. f_equal.
      apply IH; [lia|].
      destruct rest as [|d rest'].
      * unfold splits_pair. reflexivity.
      * exact Hsp.
Qed.

Lemma utf8_app (a b : jsstring) :
  splits_pair a b = false -> utf8 (a ++ b) = utf8 a ++ utf8 b.
Proof. apply (utf8_app_bounded (length a)). lia. Qed.

Example utf8_split_pair :
  utf8 ([0xD83D] ++ [0xDE00]) <> utf8 [0xD83D] ++ utf8 [0xDE00].
Proof. vm_compute. discriminate. Qed.

(** ** Strings that commute *)

Lemma power_add (w : jsstring) (i j : nat) :
  power w (i + j) = power w i ++ power w j.
Proof.
  induction i as [|i IH]; simpl; [reflexivity|].
  rewrite IH, app_assoc. reflexivity.
Qed.

Lemma powers_commute (w : jsstring) (i j : nat) :
  power w i ++ power w j = power w j ++ power w i.
Proof. rewrite <- !power_add. f_equal. lia. Qed.

Lemma prefix_of_commuting (a b : jsstring) :
  (length a <= length b)%nat -> a ++ b = b ++ a ->
  exists c, b = a ++ c /\ a ++ c = c ++ a.
Proof.
  intros Hlen E.
  assert (Hb : b = a ++ skipn (length a) b).
  { rewrite <- (firstn_skipn (length a) b) at 1. f_equal.
    assert (F : firstn (length a) (a ++ b) = firstn (length a) (b ++ a))
      by (rewrite E; reflexivity).
    rewrite firstn_app, Nat.sub_diag, firstn_all, firstn_O, app_nil_r in F.
    rewrite firstn_app in F.
    replace (length a - length b)%nat with 0%nat in F by lia.
    rewrite firstn_O, app_nil_r in F. symmetry. exact F. }
  remember (skipn (length a) b) as c eqn:Hc. clear Hc.
  exists c. split; [exact Hb|].
  subst b. rewrite <- !app_assoc in E.
  apply app_inv_head in E. exact E.
Qed.

(** Two strings commute under concatenation only when both repeat one
    common block. *)
Lemma commute_powers_bounded (n : nat) :
  forall a b, (length a + length b <= n)%nat -> a ++ b = b ++ a ->
              exists w i j, a = power w i /\ b = power w j.
Proof.
  induction n as [|n IH]; intros a b Hlen E.
  - destruct a; [|simpl in Hlen; lia]. destruct b; [|simpl in Hlen; lia].
    exists [], 0%nat, 0%nat. split; reflexivity.
  - destruct a as [|x a'].
    { exists b, 0%nat, 1%nat. simpl. rewrite app_nil_r. split; reflexivity. }
    destruct b as [|y b'].
    { exists (x :: a'), 1%nat, 0%nat. simpl. rewrite app_nil_r.
      split; reflexivity. }
    destruct (Nat.le_gt_cases (length (x :: a')) (length (y :: b'))) as [L|L].
    + destruct (prefix_of_commuting _ _ L E) as [c [Hb Hc]].
      destruct (IH (x :: a') c) as [w [i [j [Ha Hcw]]]]; [|exact Hc|].
      { rewrite Hb, length_app in Hlen. simpl in *. lia. }
      exists w, i, (i + j)%nat. split; [exact Ha|].
      rewrite power_add, <- Ha, <- Hcw. exact Hb.
    + assert (L' : (length (y :: b') <= length (x :: a'))%nat) by lia.
      destruct (prefix_of_commuting _ _ L' (eq_sym E)) as [c [Ha Hc]].
      destruct (IH c (y :: b')) as [w [i [j [Hcw Hb]]]];
        [|symmetry; exact Hc|].
      { rewrite Ha, length_app in Hlen. simpl in *. lia. }
      exists w, (j + i)%nat, j. split; [|exact Hb].
      rewrite power_add, <- Hb, <- Hcw. exact Ha.
Qed.

Lemma commute_iff_powers (a b : jsstring) :
  a ++ b = b ++ a <-> exists w i j, a = power w i /\ b = power w j.
Proof.
  split.
  - apply (commute_powers_bounded (length a + length b)). lia.
  - intros [w [i [j [-> ->]]]]. apply powers_commute.
Qed.

(** ** Base-58: decoding undoes encoding *)

Section Digits.

Variable base : Z.
Hypothesis base_ge_2 : 2 <= base.

Lemma value_le_app (l1 l2 : list Z) :
  value_le base (l1 ++ l2) =
  value_le base l1 + base ^ Z.of_nat (length l1) * value_le base l2.
Proof.
  induction l1 as [|d l1 IH].
  - change (value_le base l2 = 0 + base ^ 0 * value_le base l2).
    rewrite Z.pow_0_r. lia.
  - cbn [app value_le fold_right length]. fold (value_le base (l1 ++ l2)).
    fold (value_le base l1). rewrite IH, Nat2Z.inj_succ, Z.pow_succ_r by lia. ring.
Qed.

Lemma value_be_from (ds : list Z) (v : Z) :
  fold_left (fun acc d => base * acc + d) ds v =
  base ^ Z.of_nat (length ds) * v + value_be base ds.
Proof.
  unfold value_be. revert v. induction ds as [|d ds IH]; intros v.
  - cbn [fold_left length Z.of_nat]. rewrite Z.pow_0_r. lia.
  - cbn [fold_left length]. rewrite IH, (IH (base * 0 + d)).
    rewrite Nat2Z.inj_succ, Z.pow_succ_r by lia. ring.
Qed.

Lemma value_le_rev (ds : list Z) :
  value_le base (rev ds) = value_be base ds.
Proof.
  induction ds as [|d ds IH].
  - reflexivity.
  - cbn [rev]. rewrite value_le_app, IH. cbn [value_le fold_right].
    unfold value_be at 2. cbn [fold_left]. rewrite value_be_from.
    rewrite length_rev. ring.
Qed.

Lemma value_le_nonneg (ds : list Z) :
  Forall (digit_ok base) ds -> 0 <= value_le base ds.
Proof.
  induction 1 as [|d ds Hd _ IH]; simpl; [lia|].
  unfold digit_ok in Hd. fold (value_le base ds). nia.
Qed.

(** Leading zeroes do not count. *)
Lemma value_be_drop_zeros (ds : list Z) :
  value_be base (drop_while (Z.eqb 0) ds) = value_be base ds.
Proof.
  induction ds as [|d ds IH]; [reflexivity|].
  cbn [drop_while]. destruct (Z.eqb_spec 0 d) as [<-|_]; [|reflexivity].
  rewrite IH. unfold value_be. cbn [fold_left].
  replace (base * 0 + 0) with 0 by lia. reflexivity.
Qed.

Lemma value_le_zero (ds : list Z) :
  Forall (digit_ok base) ds -> last ds 1 <> 0 -> value_le base ds = 0 ->
  ds = [].
Proof.
  induction 1 as [|d ds Hd Hds IH]; intros Hlast Hv; [reflexivity|].
  exfalso. cbn [value_le fold_right] in Hv. fold (value_le base ds) in Hv.
  pose proof (value_le_nonneg ds Hds) as Hnn. unfold digit_ok in Hd.
  assert (d = 0) by nia. assert (value_le base ds = 0) by nia.
  destruct ds as [|e ds'].
  - simpl in Hlast. lia.
  - assert (E : e :: ds' = []) by (apply IH; [exact Hlast | assumption]).
    discriminate E.
Qed.

Lemma value_le_inj (l1 l2 : list Z) :
  Forall (digit_ok base) l1 -> Forall (digit_ok base) l2 ->
  last l1 1 <> 0 -> last l2 1 <> 0 ->
  value_le base l1 = value_le base l2 -> l1 = l2.
Proof.
  intros H1. revert l2.
  induction H1 as [|d1 l1 Hd1 Hl1 IH]; intros l2 H2 N1 N2 E.
  - symmetry. apply value_le_zero; [exact H2 | exact N2 | symmetry; exact E].
  - destruct H2 as [|d2 l2 Hd2 Hl2].
    + apply value_le_zero; [constructor; assumption | exact N1 | exact E].
    + cbn [value_le fold_right] in E.
      fold (value_le base l1) in E. fold (value_le base l2) in E.
      unfold digit_ok in Hd1, Hd2.
      assert (d1 = d2 /\ value_le base l1 = value_le base l2) as [-> Ev].
      { assert (d1 - d2 = base * (value_le base l2 - value_le base l1))
          by lia.
        assert (value_le base l2 - value_le base l1 = 0) by nia. lia. }
      f_equal. apply IH; [exact Hl2 | | | exact Ev].
      * destruct l1; [simpl; lia | exact N1].
      * destruct l2; [simpl; lia | exact N2].
Qed.

Lemma last_rev_hd (ds : list Z) (x : Z) : last (rev ds) x = hd x ds.
Proof.
  destruct ds as [|d ds]; [reflexivity|].
  cbn [rev hd]. apply last_last.
Qed.

Lemma canonical_inj (l1 l2 : list Z) :
  canonical base l1 -> canonical base l2 ->
  value_be base l1 = value_be base l2 -> l1 = l2.
Proof.
  intros [F1 N1] [F2 N2] E.
  rewrite <- (rev_involutive l1), <- (rev_involutive l2). f_equal.
  apply value_le_inj.
  - apply Forall_rev. exact F1.
  - apply Forall_rev. exact F2.
  - rewrite last_rev_hd. exact N1.
  - rewrite last_rev_hd. exact N2.
  - rewrite !value_le_rev. exact E.
Qed.

Lemma drop_zeros_canonical (ds : list Z) :
  Forall (digit_ok base) ds -> canonical base (drop_while (Z.eqb 0) ds).
Proof.
  induction 1 as [|d ds Hd Hds IH].
  - split; [constructor | simpl; lia].
  - cbn [drop_while]. destruct (Z.eqb_spec 0 d) as [E|E].
    + exact IH.
    + split; [constructor; assumption | simpl; lia].
Qed.

(** The digits of a carry are the carry. *)
Lemma carry_digits_spec (fuel : nat) (c : Z) :
  0 <= c <= Z.of_nat fuel ->
  value_le base (Bs58.carry_digits fuel base c) = c /\
  Forall (digit_ok base) (Bs58.carry_digits fuel base c).
Proof.
  revert c. induction fuel as [|fuel IH]; intros c Hc.
  - assert (c = 0) by lia. subst c. split; [reflexivity | constructor].
  - cbn [Bs58.carry_digits]. destruct (Z.eqb_spec c 0) as [->|Hnz].
    + split; [reflexivity | constructor].
    + assert (Hq : 0 <= c / base <= Z.of_nat fuel).
      { split; [apply Z.div_pos; lia|].
        assert (c / base < c) by (apply Z.div_lt; lia). lia. }
      destruct (IH _ Hq) as [Hv Hf].
      split.
      * cbn [value_le fold_right].
        fold (value_le base (Bs58.carry_digits fuel base (c / base))).
        rewrite Hv. pose proof (Z.div_mod c base). lia.
      * constructor; [|exact Hf]. unfold digit_ok. apply Z.mod_pos_bound. lia.
Qed.

(** One pass computes [b * from + carry]. *)
Lemma muladd_spec (from : Z) (b : list Z) :
  0 <= from -> Forall (digit_ok base) b ->
  forall c, 0 <= c ->
    value_le base (Bs58.muladd from base c b) = c + from * value_le base b /\
    Forall (digit_ok base) (Bs58.muladd from base c b).
Proof.
  intros Hfrom Hb. induction Hb as [|d t Hd Ht IH]; intros c Hc.
  - cbn [Bs58.muladd]. destruct (carry_digits_spec (Z.to_nat c) c) as [Hv Hf];
      [lia|].
    split; [rewrite Hv; simpl; lia | exact Hf].
  - cbn [Bs58.muladd]. unfold digit_ok in Hd.
    assert (Hc' : 0 <= c + from * d) by nia.
    assert (Hq : 0 <= (c + from * d) / base) by (apply Z.div_pos; lia).
    destruct (IH _ Hq) as [Hv Hf].
    split.
    + cbn [value_le fold_right].
      fold (value_le base (Bs58.muladd from base ((c + from * d) / base) t)).
      fold (value_le base t). rewrite Hv.
      pose proof (Z.div_mod (c + from * d) base). lia.
    + constructor; [|exact Hf]. unfold digit_ok. apply Z.mod_pos_bound. lia.
Qed.

Lemma passes_spec (from : Z) (source : list Z) :
  0 <= from -> Forall (fun ch => 0 <= ch) source ->
  forall b, Forall (digit_ok base) b ->
    let b' := fold_left (fun b ch => Bs58.muladd from base ch b) source b in
    value_le base b' =
    fold_left (fun acc d => from * acc + d) source (value_le base b) /\
    Forall (digit_ok base) b'.
Proof.
  intros Hfrom Hs. induction Hs as [|ch t Hch _ IH]; intros b Hb.
  - split; [reflexivity | exact Hb].
  - cbn [fold_left].
    destruct (muladd_spec from b Hfrom Hb ch Hch) as [Hv Hf].
    destruct (IH _ Hf) as [Hv' Hf']. cbv zeta in Hv', Hf' |- *.
    split; [|exact Hf'].
    rewrite Hv', Hv. f_equal. lia.
Qed.

End Digits.

(** A conversion keeps the value and yields canonical digits. *)
Lemma convert_spec (from to : Z) (source : list Z) :
  0 <= from -> 2 <= to -> Forall (fun ch => 0 <= ch) source ->
  value_be to (Bs58.convert from to source) = value_be from source /\
  canonical to (Bs58.convert from to source).
Proof.
  intros Hfrom Hto Hs. unfold Bs58.convert.
  destruct (passes_spec to Hto from source Hfrom Hs [] (Forall_nil _))
    as [Hv Hf]. cbv zeta in Hv, Hf.
  split.
  - rewrite value_be_drop_zeros, <- value_le_rev, rev_involutive by exact Hto.
    rewrite Hv. reflexivity.
  - apply drop_zeros_canonical. apply Forall_rev. exact Hf.
Qed.

Lemma take_drop_while {A} (f : A -> bool) (l : list A) :
  take_while f l ++ drop_while f l = l.
Proof.
  induction l as [|a l IH]; [reflexivity|].
  simpl. destruct (f a); simpl; [rewrite IH|]; reflexivity.
Qed.

Lemma take_while_all {A} (f : A -> bool) (l : list A) :
  Forall (fun a => f a = true) (take_while f l).
Proof.
  induction l as [|a l IH]; simpl; [constructor|].
  destruct (f a) eqn:E; constructor; assumption.
Qed.

Lemma drop_while_hd {A} (f : A -> bool) (l : list A) (x : A) :
  f x = false -> f (hd x (drop_while f l)) = false.
Proof.
  intros Hx. induction l as [|a l IH]; simpl; [exact Hx|].
  destruct (f a) eqn:E; [exact IH | exact E].
Qed.

Lemma Forall_drop_while {A} (P : A -> Prop) (f : A -> bool) (l : list A) :
  Forall P l -> Forall P (drop_while f l).
Proof.
  induction 1 as [|a l Ha Hl IH]; simpl; [constructor|].
  destruct (f a); [exact IH | constructor; assumption].
Qed.

(** The alphabet has fifty-eight distinct characters, and only the first
    is the leader. *)
Lemma alphabet_table :
  forallb (fun i =>
             let d := Z.of_nat i in
             match Bs58.BASE_MAP (alphabet_char d) with
             | Some d' => (d' =? d) &&
                          ((d =? 0) || negb (Bs58.LEADER =? alphabet_char d))
             | None => false
             end) (seq 0 58) = true.
Proof. vm_compute. reflexivity. Qed.

Lemma alphabet_spec (d : Z) :
  0 <= d < 58 ->
  Bs58.BASE_MAP (alphabet_char d) = Some d /\
  (d <> 0 -> (Bs58.LEADER =? alphabet_char d) = false).
Proof.
  intros Hd.
  pose proof (proj1 (forallb_forall _ _) alphabet_table (Z.to_nat d)) as H.
  cbv beta zeta in H. rewrite Z2Nat.id in H by lia.
  specialize (H ltac:(apply in_seq; lia)).
  destruct (Bs58.BASE_MAP (alphabet_char d)) as [d'|]; [|discriminate].
  apply andb_true_iff in H. destruct H as [H1 H2].
  apply Z.eqb_eq in H1. subst d'. split; [reflexivity|].
  intros Hnz. apply orb_true_iff in H2. destruct H2 as [H2|H2].
  - apply Z.eqb_eq in H2. contradiction.
  - apply negb_true_iff in H2. exact H2.
Qed.

Lemma lookup_all_alphabet (ds : list Z) :
  Forall (digit_ok 58) ds -> Bs58.lookup_all (map alphabet_char ds) = Some ds.
Proof.
  induction 1 as [|d ds Hd _ IH]; [reflexivity|].
  cbn [map Bs58.lookup_all].
  rewrite (proj1 (alphabet_spec d Hd)), IH. reflexivity.
Qed.

Lemma leaders_then_digits (zs ds : list Z) :
  canonical 58 ds ->
  let s := map (fun _ => Bs58.LEADER) zs ++ map alphabet_char ds in
  take_while (Z.eqb Bs58.LEADER) s = map (fun _ => Bs58.LEADER) zs /\
  drop_while (Z.eqb Bs58.LEADER) s = map alphabet_char ds.
Proof.
  intros [Hf Hh]. cbv zeta.
  induction zs as [|z zs IH].
  - cbn [map app]. destruct Hf as [|d ds Hd _]; [split; reflexivity|].
    cbn [hd] in Hh. cbn [map take_while drop_while].
    rewrite (proj2 (alphabet_spec d Hd) Hh). split; reflexivity.
  - cbn [map app take_while drop_while]. rewrite Z.eqb_refl.
    destruct IH as [-> ->]. split; reflexivity.
Qed.

Lemma bytes_as_digits (bs : bytes) :
  Forall (digit_ok 256) (map byte_to_Z bs).
Proof.
  induction bs; constructor; [apply byte_to_Z_range | assumption].
Qed.

Lemma map_byte_of_to_Z (bs : bytes) : map byte_of_Z (map byte_to_Z bs) = bs.
Proof.
  induction bs as [|b bs IH]; [reflexivity|].
  cbn [map]. rewrite byte_of_to_Z, IH. reflexivity.
Qed.

Lemma zero_bytes (zs : list Z) :
  Forall (fun z => (0 =? z) = true) zs ->
  map (fun _ => x00) zs = map byte_of_Z zs.
Proof.
  induction 1 as [|z zs Hz _ IH]; [reflexivity|].
  apply Z.eqb_eq in Hz. subst z. cbn [map]. rewrite IH. reflexivity.
Qed.

(** [bs58.decode(bs58.encode(source))] is [source], for every buffer. *)
Lemma bs58_decode_encode (source : bytes) :
  Bs58.decode (Bs58.encode source) = Return source.
Proof.
  unfold Bs58.encode, Bs58.decode.
  set (src := map byte_to_Z source).
  set (zeroes := take_while (Z.eqb 0) src).
  set (body := drop_while (Z.eqb 0) src).
  assert (Hsrc : Forall (digit_ok 256) src) by apply bytes_as_digits.
  assert (Hbody : canonical 256 body).
  { split.
    - apply Forall_drop_while. exact Hsrc.
    - pose proof (drop_while_hd (Z.eqb 0) src 1 eq_refl) as H.
      fold body in H. intros E. rewrite E in H. discriminate H. }
  assert (Hnn : Forall (fun ch => 0 <= ch) body).
  { eapply Forall_impl; [|exact (proj1 Hbody)]. unfold digit_ok. intros; lia. }
  destruct (convert_spec 256 58 body ltac:(lia) ltac:(lia) Hnn) as [Hv Hc].
  fold alphabet_char.
  change (fun d : Z => nth (Z.to_nat d) Bs58.ALPHABET 0) with alphabet_char.
  destruct (leaders_then_digits zeroes _ Hc) as [Ht Hd]. cbv zeta in Ht, Hd.
  rewrite Ht, Hd, (lookup_all_alphabet _ (proj1 Hc)).
  f_equal.
  assert (Hnn' : Forall (fun ch => 0 <= ch) (Bs58.convert 256 58 body)).
  { eapply Forall_impl; [|exact (proj1 Hc)]. unfold digit_ok. intros; lia. }
  destruct (convert_spec 58 256 _ ltac:(lia) ltac:(lia) Hnn') as [Hv' Hc'].
  rewrite (canonical_inj 256 ltac:(lia) _ body Hc' Hbody)
    by (rewrite Hv', Hv; reflexivity).
  rewrite map_map.
  rewrite (zero_bytes zeroes) by apply take_while_all.
  rewrite <- map_app. unfold zeroes, body.
  rewrite take_drop_while. apply map_byte_of_to_Z.
Qed.

(** ** What [scryptSync] does with a cost exponent *)

Lemma scryptSync_cost (password salt : bytes) (keylen : nat) (e : Z) :
  Node.scryptSync password salt keylen
    {| Node.N := pow2 e; Node.r := 8; Node.p := 1 |} =
  let* n := accepted_cost e in
  Return (Scrypt.scrypt password salt n 8 1 keylen).
Proof.
  unfold Node.scryptSync, accepted_cost. cbn [Node.N Node.r Node.p].
  destruct (Node.check_N (pow2 e)) as [n|err]; cbn [bind]; [|reflexivity].
  destruct (Node.check_params n 8 1 Node.default_maxmem) as [[]|err];
    reflexivity.
Qed.

Lemma same_outcome_eq (a b : result Z) : same_outcome a b = true -> a = b.
Proof.
  destruct a as [x|[|[]| | |]], b as [y|[|[]| | |]]; cbn; try discriminate;
    try reflexivity.
  intros H. apply Z.eqb_eq in H. congruence.
Qed.

Lemma accepted_cost_table :
  forallb (fun n => same_outcome (accepted_cost (Z.of_nat n))
                                 (cost_table (Z.of_nat n)))
          (seq 0 32) = true.
Proof. by_evaluation. Qed.

Lemma accepted_cost_small (n : nat) :
  (n < 32)%nat -> accepted_cost (Z.of_nat n) = cost_table (Z.of_nat n).
Proof.
  intros Hn. apply same_outcome_eq.
  apply (proj1 (forallb_forall _ _) accepted_cost_table n).
  apply in_seq. lia.
Qed.

Lemma accepted_cost_spec (e : Z) : accepted_cost e = cost_table e.
Proof.
  destruct (Z.ltb_spec e 0) as [Hneg|Hpos].
  - unfold accepted_cost, cost_table, pow2.
    replace (1024 <=? e) with false by (symmetry; apply Z.leb_gt; lia).
    replace (0 <=? e) with false by (symmetry; apply Z.leb_gt; lia).
    replace (e <? 0) with true by (symmetry; apply Z.ltb_lt; lia).
    destruct (Z.ltb_spec e (-1074)) as [H|H].
    + replace (-1074 <=? e) with false by (symmetry; apply Z.leb_gt; lia).
      reflexivity.
    + replace (-1074 <=? e) with true by (symmetry; apply Z.leb_le; lia).
      reflexivity.
  - destruct (Z.ltb_spec e 32) as [H|H].
    + rewrite <- (Z2Nat.id e) by lia. apply accepted_cost_small. lia.
    + assert (Hout : Node.check_N (pow2 e) = Throw ERR_OUT_OF_RANGE).
      { unfold pow2, Node.check_N.
        destruct (1024 <=? e); [reflexivity|].
        replace (0 <=? e) with true by (symmetry; apply Z.leb_le; lia).
        assert (Hbig : 2 ^ 32 <= 2 ^ e) by (apply Z.pow_le_mono_r; lia).
        change (2 ^ 32) with 4294967296 in Hbig.
        replace (2 ^ e <=? 4294967295) with false
          by (symmetry; apply Z.leb_gt; lia).
        rewrite andb_false_r. reflexivity. }
      unfold accepted_cost, cost_table. rewrite Hout. cbn [bind].
      replace (e <? -1074) with false by (symmetry; apply Z.ltb_ge; lia).
      replace (e <? 0) with false by (symmetry; apply Z.ltb_ge; lia).
      replace (e =? 0) with false by (symmetry; apply Z.eqb_neq; lia).
      replace (e <=? 14) with false by (symmetry; apply Z.leb_gt; lia).
      replace (e <=? 31) with false by (symmetry; apply Z.leb_gt; lia).
      reflexivity.
Qed.

(** ** Keccak-256 and the check-summed address *)

Lemma fold_left_invariant {A B} (P : A -> Prop) (f : A -> B -> A)
      (l : list B) (a : A) :
  (forall a x, P (f a x)) -> P a -> P (fold_left f l a).
Proof.
  intros Hf. revert a. induction l as [|x l IH]; intros a Ha; simpl.
  - exact Ha.
  - apply IH, Hf.
Qed.

Lemma keccak_round_length (A : list Z) (rc : Z) :
  length (Keccak.keccak_round A rc) = 25%nat.
Proof.
  unfold Keccak.keccak_round, Keccak.iota, Keccak.chi.
  destruct (map _ Keccak.chi_table) as [|a t] eqn:E.
  - apply (f_equal (@length Z)) in E. rewrite length_map in E.
    discriminate E.
  - apply (f_equal (@length Z)) in E. rewrite length_map in E.
    simpl in *. exact (eq_sym E).
Qed.

Lemma keccak_f_length (A : list Z) : length (Keccak.keccak_f A) = 25%nat.
Proof.
  unfold Keccak.keccak_f.
  change Keccak.round_constants
    with (hd 0 Keccak.round_constants :: tl Keccak.round_constants).
  cbn [fold_left].
  apply (fold_left_invariant (fun A => length A = 25%nat)).
  - intros. apply keccak_round_length.
  - apply keccak_round_length.
Qed.

Lemma keccak256_length (msg : bytes) :
  length (Keccak.keccak256 msg) = 32%nat.
Proof.
  unfold Keccak.keccak256.
  rewrite (flat_map_length_const _ 8) by (intros; apply le_bytes_length).
  rewrite length_firstn.
  assert (H : length (fold_left Keccak.absorb
                        (chunk Keccak.rate (Keccak.pad msg)) (repeat 0 25))
              = 25%nat).
  { apply (fold_left_invariant (fun A => length A = 25%nat)).
    - intros. apply keccak_f_length.
    - reflexivity. }
  rewrite H. reflexivity.
Qed.

Lemma toLowerChar_idem (c : Z) : toLowerChar (toLowerChar c) = toLowerChar c.
Proof.
  unfold toLowerChar at 2 3. split_ranges;
    unfold toLowerChar; split_ranges; lia.
Qed.

Lemma toLowerChar_upper (c : Z) :
  toLowerChar (toUpperChar (toLowerChar c)) = toLowerChar c.
Proof.
  unfold toLowerChar at 2 3. split_ranges;
    unfold toUpperChar; split_ranges;
    unfold toLowerChar; split_ranges; lia.
Qed.

Lemma toLowerCase_idem (s : jsstring) :
  toLowerCase (toLowerCase s) = toLowerCase s.
Proof.
  unfold toLowerCase. rewrite map_map. apply map_ext. apply toLowerChar_idem.
Qed.

(** Putting digits in upper case does not show once the string is put in
    lower case again. *)
Lemma lower_of_cased (chars nibbles : list Z) :
  (length chars <= length nibbles)%nat ->
  toLowerCase
    (map (fun cn => if 8 <=? snd cn then toUpperChar (fst cn) else fst cn)
         (combine (toLowerCase chars) nibbles)) = toLowerCase chars.
Proof.
  revert nibbles. induction chars as [|c chars IH]; intros nibbles Hlen.
  - reflexivity.
  - destruct nibbles as [|n nibbles]; [simpl in Hlen; lia|].
    unfold toLowerCase in *. cbn [map combine fst snd].
    rewrite IH by (simpl in Hlen; lia). f_equal.
    destruct (8 <=? n); [apply toLowerChar_upper | apply toLowerChar_idem].
Qed.

Lemma skipn_map {A B} (f : A -> B) (n : nat) (l : list A) :
  skipn n (map f l) = map f (skipn n l).
Proof.
  revert l. induction n as [|n IH]; intros [|a l]; simpl; auto.
Qed.

(** Check-summing once more what was check-summed changes nothing, for an
    address of at most 64 digits. *)
Lemma getChecksumAddress_idem (hexdigits : jsstring) :
  (length hexdigits <= 64)%nat ->
  let address := Ethers.getChecksumAddress (js "0x" ++ hexdigits) in
  Ethers.getChecksumAddress (toLowerCase address) = address.
Proof.
  intros Hlen. cbv zeta.
  unfold Ethers.getChecksumAddress at 2 3.
  assert (Hchars : skipn 2 (toLowerCase (js "0x" ++ hexdigits))
                   = toLowerCase hexdigits) by reflexivity.
  rewrite Hchars.
  set (nibbles := flat_map (fun b => [byte_to_Z b / 16; byte_to_Z b mod 16])
                    (Keccak.keccak256 (map byte_of_Z (toLowerCase hexdigits)))).
  assert (Hn : length nibbles = 64%nat).
  { unfold nibbles. rewrite (flat_map_length_const _ 2) by reflexivity.
    rewrite keccak256_length. reflexivity. }
  set (cased := map (fun cn => if 8 <=? snd cn then toUpperChar (fst cn)
                               else fst cn)
                    (combine (toLowerCase hexdigits) nibbles)).
  unfold Ethers.getChecksumAddress.
  assert (Hback : skipn 2 (toLowerCase (toLowerCase (js "0x" ++ cased)))
                  = toLowerCase hexdigits).
  { rewrite toLowerCase_idem.
    change (skipn 2 (toLowerCase (js "0x" ++ cased))) with (toLowerCase cased).
    unfold cased. apply lower_of_cased.
    rewrite Hn. exact Hlen. }
  rewrite Hback. reflexivity.
Qed.

(** ** The wallet of a derived key *)

Lemma in_scalar_range_spec (seed : bytes) :
  in_scalar_range seed = true -> 0 < be_value seed < Secp256k1.n.
Proof.
  unfold in_scalar_range. intros H. apply andb_true_iff in H.
  destruct H as [H1 H2]. split; apply Z.ltb_lt; assumption.
Qed.

Lemma Wallet_of_seed (seed : bytes) :
  length seed = 32%nat ->
  Ethers.Wallet (Generator.privateKey seed) =
  if in_scalar_range seed
  then Return {| Ethers.privateKey := js "0x" ++ hex seed;
                 Ethers.publicKey :=
                   x04 :: Secp256k1.public_xy (be_value seed);
                 Ethers.address :=
                   Ethers.computeAddress
                     (Secp256k1.public_xy (be_value seed)) |}
  else Throw InvalidKeyMaterial.
Proof.
  intros Hlen. unfold Ethers.Wallet, Generator.privateKey.
  change (Ethers.strip_0x (js "0x" ++ hex seed)) with (Some (hex seed)).
  cbv beta iota. rewrite unhex_hex, Hlen. reflexivity.
Qed.

(** ** Reading the cost parameter *)

Lemma drop_while_app_stop {A} (f : A -> bool) (l1 l2 : list A) :
  drop_while f l2 = l2 ->
  drop_while f (l1 ++ l2) = drop_while f l1 ++ l2.
Proof.
  intros H. induction l1 as [|a l1 IH]; cbn [app drop_while].
  - exact H.
  - destruct (f a); [exact IH | reflexivity].
Qed.

Lemma take_while_app_stop {A} (f : A -> bool) (l1 l2 : list A) :
  Forall (fun a => f a = true) l1 ->
  take_while f l2 = [] ->
  take_while f (l1 ++ l2) = l1.
Proof.
  intros H1 H2. induction H1 as [|a l1 Ha _ IH]; cbn [app take_while].
  - exact H2.
  - rewrite Ha, IH. reflexivity.
Qed.

Lemma not_digit_first_prefix (t' suffix : jsstring) :
  not_digit_first (t' ++ suffix) -> not_digit_first t'.
Proof. destruct t'; [constructor | exact (fun H => H)]. Qed.

Lemma not_digit_first_stop (t : jsstring) :
  not_digit_first t -> take_while is_digit t = [].
Proof.
  destruct t as [|c t]; [reflexivity|].
  intros H. cbn in H. cbn [take_while]. rewrite H. reflexivity.
Qed.

Lemma digit_cases (c : Z) :
  is_digit c = true ->
  In c [48; 49; 50; 51; 52; 53; 54; 55; 56; 57].
Proof.
  unfold is_digit. intros H. apply andb_true_iff in H. destruct H as [H1 H2].
  apply Z.leb_le in H1. apply Z.leb_le in H2.
  assert (c = 48 \/ c = 49 \/ c = 50 \/ c = 51 \/ c = 52 \/ c = 53 \/
          c = 54 \/ c = 55 \/ c = 56 \/ c = 57) by lia.
  simpl. intuition.
Qed.

Lemma digit_not_whitespace (c : Z) :
  is_digit c = true -> is_whitespace c = false.
Proof.
  intros H. apply digit_cases in H. simpl in H.
  repeat (destruct H as [<-|H]; [reflexivity|]). contradiction.
Qed.

Lemma drop_while_all {A} (f : A -> bool) (ws l : list A) :
  Forall (fun c => f c = true) ws -> drop_while f (ws ++ l) = drop_while f l.
Proof.
  induction 1 as [|c ws Hc Hws IH]; [reflexivity|].
  cbn [app drop_while]. rewrite Hc. exact IH.
Qed.

(** [parseInt] on a string that does not start with white space: the
    sign is read off its first character. *)
Lemma parseInt_cons (c : Z) (x : jsstring) :
  is_whitespace c = false ->
  parseInt (c :: x) =
  if c =? 45 then read_digits (-1) x
  else if c =? 43 then read_digits 1 x
  else read_digits 1 (c :: x).
Proof.
  intros Hw. unfold parseInt, read_digits. cbn [drop_while]. rewrite Hw.
  cbv zeta.
  destruct (Z.eqb_spec c 45) as [->|H45]; [reflexivity|].
  destruct (Z.eqb_spec c 43) as [->|H43]; [reflexivity|].
  destruct c as [|q|q]; try reflexivity.
  do 6 (destruct q as [q|q|]; try reflexivity); congruence.
Qed.

Lemma parseInt_nil : parseInt [] = None.
Proof. reflexivity. Qed.

(** White space in front is skipped. *)
Lemma parseInt_skip (ws s : jsstring) :
  Forall (fun c => is_whitespace c = true) ws ->
  parseInt (ws ++ s) = parseInt s.
Proof.
  intros H. unfold parseInt. rewrite (drop_while_all _ _ _ H). reflexivity.
Qed.

Lemma read_digits_run (sign : Z) (ds t : jsstring) :
  ds <> [] -> Forall (fun c => is_digit c = true) ds -> not_digit_first t ->
  read_digits sign (ds ++ t) = Some (double (sign * decimal ds)).
Proof.
  intros Hne Hds Ht. unfold read_digits.
  rewrite (take_while_app_stop is_digit ds t Hds (not_digit_first_stop t Ht)).
  destruct ds; [contradiction | reflexivity].
Qed.

Lemma read_digits_none (sign : Z) (t : jsstring) :
  not_digit_first t -> read_digits sign t = None.
Proof.
  intros Ht. unfold read_digits. rewrite (not_digit_first_stop t Ht).
  reflexivity.
Qed.

(** [parseInt] on digits followed by anything that is not a digit. *)
Lemma parseInt_digits (ds t : jsstring) :
  ds <> [] -> Forall (fun c => is_digit c = true) ds -> not_digit_first t ->
  parseInt (ds ++ t) = Some (double (decimal ds)).
Proof.
  intros Hne Hds Ht.
  pose proof (read_digits_run 1 ds t Hne Hds Ht) as R.
  rewrite Z.mul_1_l in R.
  destruct ds as [|d ds']; [contradiction|].
  pose proof (Forall_inv Hds) as Hd.
  change ((d :: ds') ++ t) with (d :: (ds' ++ t)) in *.
  rewrite parseInt_cons by (apply digit_not_whitespace; exact Hd).
  apply digit_cases in Hd. simpl in Hd.
  repeat (destruct Hd as [<-|Hd]; [exact R|]). contradiction.
Qed.

Lemma parseInt_minus (ds t : jsstring) :
  ds <> [] -> Forall (fun c => is_digit c = true) ds -> not_digit_first t ->
  parseInt (45 :: ds ++ t) = Some (double (- decimal ds)).
Proof.
  intros Hne Hds Ht. rewrite parseInt_cons by reflexivity.
  change (45 =? 45) with true. cbv iota.
  rewrite (read_digits_run (-1) ds t Hne Hds Ht).
  replace (-1 * decimal ds) with (- decimal ds) by lia. reflexivity.
Qed.

Lemma parseInt_plus (ds t : jsstring) :
  ds <> [] -> Forall (fun c => is_digit c = true) ds -> not_digit_first t ->
  parseInt (43 :: ds ++ t) = Some (double (decimal ds)).
Proof.
  intros Hne Hds Ht. rewrite parseInt_cons by reflexivity.
  change (43 =? 45) with false. change (43 =? 43) with true. cbv iota.
  rewrite (read_digits_run 1 ds t Hne Hds Ht).
  rewrite Z.mul_1_l. reflexivity.
Qed.

(** A sign with no digit after it is no number. *)
Lemma parseInt_sign_only (c : Z) (t : jsstring) :
  c = 45 \/ c = 43 -> not_digit_first t -> parseInt (c :: t) = None.
Proof.
  intros [-> | ->] Ht; rewrite parseInt_cons by reflexivity.
  - change (45 =? 45) with true. cbv iota. apply read_digits_none, Ht.
  - change (43 =? 45) with false. change (43 =? 43) with true. cbv iota.
    apply read_digits_none, Ht.
Qed.

Lemma parseInt_no_number (t : jsstring) :
  no_number_first t -> parseInt t = None.
Proof.
  destruct t as [|c t]; [reflexivity|].
  intros [Hd [Hw [H45 H43]]].
  rewrite parseInt_cons by exact Hw.
  replace (c =? 45) with false by (symmetry; apply Z.eqb_neq; exact H45).
  replace (c =? 43) with false by (symmetry; apply Z.eqb_neq; exact H43).
  apply read_digits_none. exact Hd.
Qed.

Lemma trim_nonspace_start (c : Z) (s : jsstring) :
  is_whitespace c = false -> trim (c :: s) = c :: rtrim s.
Proof.
  intros Hc. unfold trim, rtrim. cbn [drop_while]. rewrite Hc. cbn [rev].
  rewrite drop_while_app_stop
    by (cbn [drop_while]; rewrite Hc; reflexivity).
  rewrite rev_app_distr. reflexivity.
Qed.

Lemma drop_while_none {A} (f : A -> bool) (l : list A) :
  Forall (fun a => f a = false) l -> drop_while f l = l.
Proof.
  destruct 1 as [|a l Ha _]; [reflexivity|].
  cbn [drop_while]. rewrite Ha. reflexivity.
Qed.

Lemma rtrim_app (ds t : jsstring) :
  Forall (fun c => is_whitespace c = false) ds ->
  rtrim (ds ++ t) = ds ++ rtrim t.
Proof.
  intros Hds. unfold rtrim. rewrite rev_app_distr.
  rewrite drop_while_app_stop
    by (apply drop_while_none, Forall_rev; exact Hds).
  rewrite rev_app_distr, rev_involutive. reflexivity.
Qed.

Lemma rtrim_prefix (t : jsstring) : exists suffix, t = rtrim t ++ suffix.
Proof.
  exists (rev (take_while is_whitespace (rev t))). unfold rtrim.
  rewrite <- rev_app_distr, take_drop_while, rev_involutive. reflexivity.
Qed.

Lemma not_digit_first_rtrim (t : jsstring) :
  not_digit_first t -> not_digit_first (rtrim t).
Proof.
  intros Ht. destruct (rtrim_prefix t) as [suffix E].
  rewrite E in Ht. exact (not_digit_first_prefix _ _ Ht).
Qed.

Lemma digits_not_whitespace (ds : jsstring) :
  Forall (fun c => is_digit c = true) ds ->
  Forall (fun c => is_whitespace c = false) ds.
Proof.
  intros H. eapply Forall_impl; [|exact H]. apply digit_not_whitespace.
Qed.

Lemma trim_digits_then (ds t : jsstring) :
  ds <> [] -> Forall (fun c => is_digit c = true) ds ->
  trim (ds ++ t) = ds ++ rtrim t.
Proof.
  intros Hne Hds. destruct ds as [|d ds']; [contradiction|].
  apply digits_not_whitespace in Hds.
  change ((d :: ds') ++ t) with (d :: (ds' ++ t)).
  rewrite trim_nonspace_start by exact (Forall_inv Hds).
  rewrite rtrim_app by exact (Forall_inv_tail Hds). reflexivity.
Qed.

(** ** [trim] changes nothing for [parseInt] *)

Lemma take_while_digit_before_space (x suffix : jsstring) :
  Forall (fun c => is_whitespace c = true) suffix ->
  take_while is_digit (x ++ suffix) = take_while is_digit x.
Proof.
  intros Hs. induction x as [|c x IH]; cbn [app take_while].
  - destruct Hs as [|w suffix Hw _]; [reflexivity|].
    cbn [take_while]. destruct (is_digit w) eqn:E; [|reflexivity].
    rewrite (digit_not_whitespace w E) in Hw. discriminate.
  - rewrite IH. reflexivity.
Qed.

Lemma read_digits_before_space (sign : Z) (x suffix : jsstring) :
  Forall (fun c => is_whitespace c = true) suffix ->
  read_digits sign (x ++ suffix) = read_digits sign x.
Proof.
  intros Hs. unfold read_digits.
  rewrite (take_while_digit_before_space _ _ Hs). reflexivity.
Qed.

Lemma rtrim_split (t : jsstring) :
  exists suffix,
    t = rtrim t ++ suffix /\ Forall (fun c => is_whitespace c = true) suffix.
Proof.
  exists (rev (take_while is_whitespace (rev t))). split.
  - unfold rtrim.
    rewrite <- rev_app_distr, take_drop_while, rev_involutive. reflexivity.
  - apply Forall_rev. apply take_while_all.
Qed.

Lemma drop_while_stops {A} (f : A -> bool) (l : list A) :
  match drop_while f l with
  | [] => True
  | a :: _ => f a = false
  end.
Proof.
  induction l as [|a l IH]; cbn [drop_while]; [exact I|].
  destruct (f a) eqn:E; [exact IH | exact E].
Qed.

Lemma parseInt_drop (s : jsstring) :
  parseInt (drop_while is_whitespace s) = parseInt s.
Proof.
  unfold parseInt.
  replace (drop_while is_whitespace (drop_while is_whitespace s))
    with (drop_while is_whitespace s); [reflexivity|].
  pose proof (drop_while_stops is_whitespace s) as H.
  destruct (drop_while is_whitespace s) as [|a l]; [reflexivity|].
  cbn [drop_while]. rewrite H. reflexivity.
Qed.

Lemma parseInt_trim (s : jsstring) : parseInt (trim s) = parseInt s.
Proof.
  rewrite <- (parseInt_drop s). unfold trim.
  pose proof (drop_while_stops is_whitespace s) as H.
  fold (rtrim (drop_while is_whitespace s)).
  destruct (drop_while is_whitespace s) as [|c r]; [reflexivity|].
  change (rtrim (c :: r)) with (rtrim ([c] ++ r)).
  rewrite (rtrim_app [c] r) by (constructor; [exact H | constructor]).
  cbn [app]. rewrite !parseInt_cons by exact H.
  destruct (rtrim_split r) as [suffix [E Hs]].
  destruct (c =? 45).
  { rewrite E at 2. symmetry. apply read_digits_before_space, Hs. }
  destruct (c =? 43).
  { rewrite E at 2. symmetry. apply read_digits_before_space, Hs. }
  rewrite E at 2. symmetry.
  apply (read_digits_before_space 1 (c :: rtrim r) suffix Hs).
Qed.

Lemma decimal_from_nonneg (ds : jsstring) (acc : Z) :
  Forall (fun c => is_digit c = true) ds -> 0 <= acc ->
  0 <= fold_left (fun acc c => 10 * acc + (c - 48)) ds acc.
Proof.
  intros Hds. revert acc. induction Hds as [|c ds Hc _ IH]; intros acc Hacc.
  - exact Hacc.
  - cbn [fold_left]. apply IH.
    unfold is_digit in Hc. apply andb_true_iff in Hc. destruct Hc as [H1 H2].
    apply Z.leb_le in H1. apply Z.leb_le in H2. lia.
Qed.

Lemma decimal_nonneg (ds : jsstring) :
  Forall (fun c => is_digit c = true) ds -> 0 <= decimal ds.
Proof. intros H. apply decimal_from_nonneg; [exact H | lia]. Qed.

(** ** The Number value of the integer that was read *)

Lemma round53_small (n : Z) : 0 <= n < 2 ^ 53 -> round53 n = n.
Proof.
  intros [H0 H1]. unfold round53.
  assert (Hs : Z.log2 n - 52 <= 0).
  { destruct (Z.eq_dec n 0) as [->|Hn]; [cbn; lia|].
    assert (Z.log2 n < 53) by (apply Z.log2_lt_pow2; lia). lia. }
  replace (Z.log2 n - 52 <=? 0) with true by (symmetry; apply Z.leb_le; lia).
  reflexivity.
Qed.

Lemma round53_pos (n : Z) : 0 < n -> 0 < round53 n.
Proof.
  intros Hn. unfold round53.
  destruct (Z.leb_spec (Z.log2 n - 52) 0) as [Hs|Hs]; [exact Hn|].
  set (s := Z.log2 n - 52) in *.
  assert (Hq : 2 ^ 52 <= Z.shiftr n s).
  { rewrite Z.shiftr_div_pow2 by lia.
    apply Z.div_le_lower_bound; [apply Z.pow_pos_nonneg; lia|].
    rewrite Z.mul_comm, <- Z.pow_add_r by lia.
    replace (52 + s) with (Z.log2 n) by (unfold s; lia).
    apply Z.log2_spec. exact Hn. }
  assert (H52 : 0 < 2 ^ 52) by (apply Z.pow_pos_nonneg; lia).
  rewrite Z.shiftl_mul_pow2 by lia.
  apply Z.mul_pos_pos; [|apply Z.pow_pos_nonneg; lia].
  destruct ((Z.shiftl 1 (s - 1) <? Z.land n (Z.ones s))
            || ((Z.land n (Z.ones s) =? Z.shiftl 1 (s - 1))
                && Z.odd (Z.shiftr n s))); lia.
Qed.

Lemma double_exact (z : Z) : Z.abs z < 2 ^ 53 -> double z = Finite z.
Proof.
  intros Hz. unfold double.
  rewrite round53_small by (split; [apply Z.abs_nonneg | exact Hz]).
  assert (H : 2 ^ 53 < 2 ^ 1024) by (apply Z.pow_lt_mono_r; lia).
  replace (2 ^ 1024 <=? Z.abs z) with false
    by (symmetry; apply Z.leb_gt; lia).
  f_equal. destruct z; cbn; lia.
Qed.

Lemma nonpositive_double (z : Z) : nonpositive (double z) = (z <=? 0).
Proof.
  unfold double.
  destruct (Z.lt_trichotomy z 0) as [Hneg | [-> | Hpos]].
  - pose proof (round53_pos (Z.abs z) ltac:(lia)) as Hm.
    replace (z <? 0) with true by (symmetry; apply Z.ltb_lt; lia).
    replace (z <=? 0) with true by (symmetry; apply Z.leb_le; lia).
    destruct (2 ^ 1024 <=? round53 (Z.abs z)); [reflexivity|].
    cbn [nonpositive]. apply Z.leb_le.
    replace (Z.sgn z) with (-1) by (destruct z; cbn; lia). lia.
  - reflexivity.
  - pose proof (round53_pos (Z.abs z) ltac:(lia)) as Hm.
    replace (z <? 0) with false by (symmetry; apply Z.ltb_ge; lia).
    replace (z <=? 0) with false by (symmetry; apply Z.leb_gt; lia).
    destruct (2 ^ 1024 <=? round53 (Z.abs z)); [reflexivity|].
    cbn [nonpositive]. apply Z.leb_gt.
    replace (Z.sgn z) with 1 by (destruct z; cbn; lia). lia.
Qed.

(** ** The shared prefix of the two pipelines *)

Lemma derivedKey_cost (password userSalt applicationSalt : jsstring) (e : Z) :
  Generator.derivedKey password userSalt applicationSalt e =
  let* n := accepted_cost e in
  Return (Scrypt.scrypt (utf8 password)
            (Generator.combinedSalt userSalt applicationSalt) n 8 1 32).
Proof. unfold Generator.derivedKey, Generator.N. apply scryptSync_cost. Qed.

Lemma N_of_exponent (e : Z) :
  0 <= e < 1024 -> Generator.N e = Int (2 ^ e).
Proof.
  intros He. unfold Generator.N, power2, pow2.
  replace (1024 <=? e) with false by (symmetry; apply Z.leb_gt; lia).
  replace (0 <=? e) with true by (symmetry; apply Z.leb_le; lia).
  reflexivity.
Qed.

Lemma derivedKey_valid (password userSalt applicationSalt : jsstring) (e : Z) :
  1 <= e <= 14 ->
  Generator.derivedKey password userSalt applicationSalt e =
  Return (Scrypt.scrypt (utf8 password)
            (Generator.combinedSalt userSalt applicationSalt) (2 ^ e) 8 1 32).
Proof.
  intros He. rewrite derivedKey_cost, accepted_cost_spec. unfold cost_table.
  replace (e <? -1074) with false by (symmetry; apply Z.ltb_ge; lia).
  replace (e <? 0) with false by (symmetry; apply Z.ltb_ge; lia).
  replace (e =? 0) with false by (symmetry; apply Z.eqb_neq; lia).
  replace (e <=? 14) with true by (symmetry; apply Z.leb_le; lia).
  reflexivity.
Qed.

(** [2 ** Infinity] is [Infinity], which is no unsigned 32-bit integer;
    [2 ** -Infinity] is zero, which Node replaces by its default. *)
Lemma derivedKey_plus_infinity (password userSalt applicationSalt : jsstring) :
  Generator.derivedKey password userSalt applicationSalt PlusInfinity =
  Throw ERR_OUT_OF_RANGE.
Proof. reflexivity. Qed.

Lemma derivedKey_minus_infinity
      (password userSalt applicationSalt : jsstring) :
  Generator.derivedKey password userSalt applicationSalt MinusInfinity =
  Return (Scrypt.scrypt (utf8 password)
            (Generator.combinedSalt userSalt applicationSalt)
            Node.default_N 8 1 32).
Proof. reflexivity. Qed.

Lemma derivedKey_length (password userSalt applicationSalt : jsstring)
      (costParameter : integral) (seed : bytes) :
  Generator.derivedKey password userSalt applicationSalt costParameter
  = Return seed ->
  length seed = 32%nat.
Proof.
  destruct costParameter as [e| |].
  - rewrite derivedKey_cost.
    destruct (accepted_cost e) as [n|err]; cbn [bind].
    + intros H. injection H as <-. apply scrypt_length.
    + discriminate.
  - rewrite derivedKey_plus_infinity. discriminate.
  - rewrite derivedKey_minus_infinity. intros H. injection H as <-.
    apply scrypt_length.
Qed.

Lemma same_derivedKey (password userSalt applicationSalt : jsstring)
      (e : integral) :
  SolGenerator.derivedKey password userSalt applicationSalt e =
  Generator.derivedKey password userSalt applicationSalt e.
Proof. reflexivity. Qed.

Lemma derivedKey_over_ceiling
      (password userSalt applicationSalt : jsstring) (e : Z) :
  15 <= e ->
  Generator.derivedKey password userSalt applicationSalt e =
  Throw (if e <=? 31
         then ERR_CRYPTO_INVALID_SCRYPT_PARAMS memory_limit_exceeded
         else ERR_OUT_OF_RANGE).
Proof.
  intros He. rewrite derivedKey_cost, accepted_cost_spec. unfold cost_table.
  replace (e <? -1074) with false by (symmetry; apply Z.ltb_ge; lia).
  replace (e <? 0) with false by (symmetry; apply Z.ltb_ge; lia).
  replace (e =? 0) with false by (symmetry; apply Z.eqb_neq; lia).
  replace (e <=? 14) with false by (symmetry; apply Z.leb_gt; lia).
  destruct (e <=? 31); reflexivity.
Qed.

Lemma scenario_derivedKey :
  Generator.derivedKey (js "correct horse") (js "battery") (js "staple") 1
  = Return scenario_seed.
Proof. apply derivedKey_valid. lia. Qed.

Lemma is_empty_spec (s : jsstring) : is_empty s = true <-> s = [].
Proof. destruct s; cbn; split; congruence. Qed.

Lemma none_empty (a b c : jsstring) :
  is_empty a || is_empty b || is_empty c = false <->
  a <> [] /\ b <> [] /\ c <> [].
Proof.
  destruct a, b, c; cbn; split; try discriminate; try tauto;
    intros; repeat split; discriminate.
Qed.

(** ** What [getNumber] resolves with *)

Lemma getNumber_resolved (answer : jsstring) (num : integral) :
  Generator.getNumber answer = Resolved num -> nonpositive num = false.
Proof.
  unfold Generator.getNumber.
  destruct (parseInt (trim answer)) as [num'|]; [|discriminate].
  destruct (nonpositive num') eqn:E; [discriminate|].
  intros H. injection H as <-. exact E.
Qed.

Lemma getNumber_resolved_finite (answer : jsstring) (e : Z) :
  Generator.getNumber answer = Resolved e -> 0 < e.
Proof.
  intros H. apply getNumber_resolved in H. cbn in H.
  apply Z.leb_gt in H. exact H.
Qed.


Lemma getNumber_exit (answer : jsstring) (code : Z) (d : diagnostic) :
  Generator.getNumber answer = Exit code d ->
  code = 1 /\ d = valid_positive_number.
Proof.
  unfold Generator.getNumber.
  destruct (parseInt (trim answer)) as [num|].
  - destruct (nonpositive num); [|discriminate].
    intros H. injection H as <- <-. split; reflexivity.
  - intros H. injection H as <- <-. split; reflexivity.
Qed.

(** What [getNumber] makes of a line is read off [parseInt] of the line
    itself: trimming changes nothing. *)
Lemma getNumber_parseInt (answer : jsstring) :
  Generator.getNumber answer =
  match parseInt answer with
  | None => Exit 1 valid_positive_number
  | Some num =>
      if nonpositive num then Exit 1 valid_positive_number else Resolved num
  end.
Proof. unfold Generator.getNumber. rewrite parseInt_trim. reflexivity. Qed.

(** ** UTF-8 tells well-formed strings apart *)

Lemma utf8_code_points_bounded (n : nat) :
  forall s, (length s <= n)%nat ->
            utf8 s = flat_map utf8_point (code_points s).
Proof.
  induction n as [|n IH]; intros s Hn.
  - destruct s; [reflexivity | cbn in Hn; lia].
  - destruct s as [|c rest]; [reflexivity|].
    cbn [length] in Hn. cbn [utf8 code_points].
    destruct (is_high_surrogate c).
    + destruct rest as [|d rest']; [reflexivity|].
      cbn [length] in Hn.
      destruct (is_low_surrogate d); cbn [flat_map].
      * rewrite (IH rest') by lia. reflexivity.
      * rewrite (IH (d :: rest')) by (cbn [length]; lia). reflexivity.
    + destruct (is_low_surrogate c); cbn [flat_map];
        rewrite (IH rest) by lia; reflexivity.
Qed.

Lemma utf8_code_points (s : jsstring) :
  utf8 s = flat_map utf8_point (code_points s).
Proof. apply (utf8_code_points_bounded (length s)). lia. Qed.

Lemma surrogate_ranges (c : Z) :
  (is_high_surrogate c = true <-> 0xD800 <= c <= 0xDBFF) /\
  (is_low_surrogate c = true <-> 0xDC00 <= c <= 0xDFFF).
Proof.
  unfold is_high_surrogate, is_low_surrogate.
  rewrite !andb_true_iff, !Z.leb_le. tauto.
Qed.

Lemma byte_of_Z_cons (u v : Z) (x y : bytes) :
  0 <= u < 256 -> 0 <= v < 256 ->
  byte_of_Z u :: x = byte_of_Z v :: y -> u = v /\ x = y.
Proof.
  intros Hu Hv E. inversion E as [[Hb Hx]]. split; [|reflexivity].
  apply (f_equal byte_to_Z) in Hb.
  rewrite !byte_to_of_Z in Hb by assumption. exact Hb.
Qed.

(** The first byte of a code point tells how many bytes it takes, and
    the bytes tell the code point. *)
Lemma utf8_point_prefix (p q : Z) (x y : bytes) :
  0 <= p < 0x110000 -> 0 <= q < 0x110000 ->
  utf8_point p ++ x = utf8_point q ++ y -> p = q /\ x = y.
Proof.
  intros Hp Hq. unfold utf8_point.
  destruct (Z.ltb_spec p 0x80) as [P1|P1];
    [|destruct (Z.ltb_spec p 0x800) as [P2|P2];
      [|destruct (Z.ltb_spec p 0x10000) as [P3|P3]]];
    (destruct (Z.ltb_spec q 0x80) as [Q1|Q1];
     [|destruct (Z.ltb_spec q 0x800) as [Q2|Q2];
       [|destruct (Z.ltb_spec q 0x10000) as [Q3|Q3]]]);
    cbn [app]; intros E;
    repeat match goal with
           | H : byte_of_Z _ :: _ = byte_of_Z _ :: _ |- _ =>
               let Hb := fresh "Hb" in
               apply byte_of_Z_cons in H;
               [destruct H as [Hb H]
               | Z.div_mod_to_equations; lia
               | Z.div_mod_to_equations; lia]
           end;
    first [ split; [Z.div_mod_to_equations; lia | assumption]
          | exfalso; Z.div_mod_to_equations; lia ].
Qed.

Lemma utf8_point_not_nil (p : Z) (x : bytes) : utf8_point p ++ x <> [].
Proof.
  unfold utf8_point.
  destruct (p <? 0x80); [discriminate|].
  destruct (p <? 0x800); [discriminate|].
  destruct (p <? 0x10000); discriminate.
Qed.

Lemma flat_map_utf8_point_inj (ps : list Z) :
  forall qs,
    Forall (fun p => 0 <= p < 0x110000) ps ->
    Forall (fun p => 0 <= p < 0x110000) qs ->
    flat_map utf8_point ps = flat_map utf8_point qs -> ps = qs.
Proof.
  induction ps as [|p ps IH]; intros [|q qs] Hps Hqs E; cbn [flat_map] in E.
  - reflexivity.
  - symmetry in E. destruct (utf8_point_not_nil _ _ E).
  - destruct (utf8_point_not_nil _ _ E).
  - inversion Hps as [|? ? Hp Hps']. inversion Hqs as [|? ? Hq Hqs'].
    subst. destruct (utf8_point_prefix p q _ _ Hp Hq E) as [-> E'].
    f_equal. apply IH; assumption.
Qed.

(** Well-formed strings are made of code units that are no surrogates
    and of pairs of a high and a low surrogate. *)
Lemma well_formed_induction (P : jsstring -> Prop) :
  P [] ->
  (forall c rest,
      is_high_surrogate c = false -> is_low_surrogate c = false ->
      0 <= c < 0x10000 -> well_formed rest = true ->
      P rest -> P (c :: rest)) ->
  (forall c d rest,
      is_high_surrogate c = true -> is_low_surrogate d = true ->
      well_formed rest = true -> P rest -> P (c :: d :: rest)) ->
  forall s, well_formed s = true -> P s.
Proof.
  intros Hnil Hunit Hpair.
  assert (H : forall n s, (length s <= n)%nat -> well_formed s = true -> P s).
  { induction n as [|n IH]; intros s Hn Hwf.
    - destruct s; [exact Hnil | cbn in Hn; lia].
    - destruct s as [|c rest]; [exact Hnil|].
      cbn [length] in Hn. cbn [well_formed] in Hwf.
      destruct (is_high_surrogate c) eqn:Hc.
      + destruct rest as [|d rest']; [discriminate|].
        cbn [length] in Hn. apply andb_true_iff in Hwf.
        destruct Hwf as [Hd Hwf].
        apply Hpair; try assumption. apply IH; [lia | assumption].
      + rewrite !andb_true_iff in Hwf.
        destruct Hwf as [[[Hlow H0] H1] Hwf].
        apply negb_true_iff in Hlow.
        apply Hunit; try assumption; [lia|].
        apply IH; [lia | assumption]. }
  intros s. apply (H (length s)). lia.
Qed.

Lemma code_points_unit (c : Z) (rest : jsstring) :
  is_high_surrogate c = false -> is_low_surrogate c = false ->
  code_points (c :: rest) = c :: code_points rest.
Proof. intros Hh Hl. cbn [code_points]. rewrite Hh, Hl. reflexivity. Qed.

Lemma code_points_pair (c d : Z) (rest : jsstring) :
  is_high_surrogate c = true -> is_low_surrogate d = true ->
  code_points (c :: d :: rest)
  = (0x10000 + (c - 0xD800) * 1024 + (d - 0xDC00)) :: code_points rest.
Proof. intros Hh Hl. cbn [code_points]. rewrite Hh, Hl. reflexivity. Qed.

Lemma code_points_range (s : jsstring) :
  well_formed s = true ->
  Forall (fun p => 0 <= p < 0x110000) (code_points s).
Proof.
  revert s. apply well_formed_induction.
  - constructor.
  - intros c rest Hh Hl Hc _ IH. rewrite code_points_unit by assumption.
    constructor; [lia | exact IH].
  - intros c d rest Hh Hl _ IH. rewrite code_points_pair by assumption.
    apply surrogate_ranges in Hh. apply surrogate_ranges in Hl.
    constructor; [lia | exact IH].
Qed.

Lemma cons_eq (p q : Z) (ps qs : list Z) :
  p :: ps = q :: qs -> p = q /\ ps = qs.
Proof. intros E. injection E as -> ->. split; reflexivity. Qed.

Lemma code_points_inj :
  forall s, well_formed s = true ->
  forall s', well_formed s' = true ->
             code_points s = code_points s' -> s = s'.
Proof.
  apply (well_formed_induction
           (fun s => forall s', well_formed s' = true ->
                                code_points s = code_points s' -> s = s')).
  - apply (well_formed_induction (fun s' => code_points [] = code_points s'
                                            -> [] = s')).
    + reflexivity.
    + intros c rest Hh Hl _ _ _. rewrite code_points_unit by assumption.
      discriminate.
    + intros c d rest Hh Hl _ _. rewrite code_points_pair by assumption.
      discriminate.
  - intros c rest Hh Hl Hc _ IH.
    apply (well_formed_induction
             (fun s' => code_points (c :: rest) = code_points s'
                        -> c :: rest = s'));
      rewrite code_points_unit by assumption.
    + discriminate.
    + intros c' rest' Hh' Hl' _ Hwf' _.
      rewrite code_points_unit by assumption.
      intros E. apply cons_eq in E. destruct E as [-> E].
      f_equal. apply IH; assumption.
    + intros c' d' rest' Hh' Hl' _ _.
      rewrite code_points_pair by assumption.
      apply surrogate_ranges in Hh'. apply surrogate_ranges in Hl'.
      intros E. apply cons_eq in E. destruct E as [E _]. lia.
  - intros c d rest Hh Hl _ IH.
    apply (well_formed_induction
             (fun s' => code_points (c :: d :: rest) = code_points s'
                        -> c :: d :: rest = s'));
      rewrite code_points_pair by assumption;
      apply surrogate_ranges in Hh; apply surrogate_ranges in Hl.
    + discriminate.
    + intros c' rest' Hh' Hl' Hc' _ _.
      rewrite code_points_unit by assumption.
      intros E. apply cons_eq in E. destruct E as [E _]. lia.
    + intros c' d' rest' Hh' Hl' Hwf' _.
      rewrite code_points_pair by assumption.
      apply surrogate_ranges in Hh'. apply surrogate_ranges in Hl'.
      intros E. apply cons_eq in E. destruct E as [E E'].
      assert (c = c') by lia. assert (d = d') by lia. subst.
      do 2 f_equal. apply IH; assumption.
Qed.

Lemma utf8_inj (s s' : jsstring) :
  well_formed s = true -> well_formed s' = true ->
  utf8 s = utf8 s' -> s = s'.
Proof.
  intros Hs Hs' E. rewrite !utf8_code_points in E.
  apply code_points_inj; try assumption.
  apply flat_map_utf8_point_inj; try assumption;
    apply code_points_range; assumption.
Qed.

Lemma well_formed_app (a b : jsstring) :
  well_formed a = true -> well_formed b = true ->
  well_formed (a ++ b) = true.
Proof.
  intros Ha Hb. revert a Ha. apply well_formed_induction.
  - exact Hb.
  - intros c rest Hh Hl Hc _ IH. cbn [app well_formed].
    rewrite Hh, Hl, IH.
    replace (0 <=? c) with true by (symmetry; apply Z.leb_le; lia).
    replace (c <? 0x10000) with true by (symmetry; apply Z.ltb_lt; lia).
    reflexivity.
  - intros c d rest Hh Hl _ IH. cbn [app well_formed].
    rewrite Hh, Hl, IH. reflexivity.
Qed.

(** The bytes of a concatenation are the bytes of its parts, when the
    first part ends in no surrogate that the second could complete. *)
Lemma utf8_app_well_formed (a b : jsstring) :
  well_formed a = true -> utf8 (a ++ b) = utf8 a ++ utf8 b.
Proof.
  revert a. apply well_formed_induction.
  - reflexivity.
  - intros c rest Hh Hl _ _ IH. cbn [app utf8]. rewrite Hh, Hl, IH.
    apply app_assoc.
  - intros c d rest Hh Hl _ IH. cbn [app utf8]. rewrite Hh, Hl, IH.
    apply app_assoc.
Qed.

(* ===================================================================== *)
(** * The hidden prompt *)
(* ===================================================================== *)

(** ** [slice] where the programs use it *)

Lemma slice_rest (x : Z) (l : jsstring) : slice (x :: l) 1 None = l.
Proof.
  unfold slice. cbn [length].
  replace (1 <? 0) with false by reflexivity.
  rewrite Z.min_l by lia.
  replace (Z.to_nat (Z.of_nat (S (length l)) - 1)) with (length l) by lia.
  change (Z.to_nat 1) with 1%nat. cbn [skipn]. apply firstn_all.
Qed.

Lemma slice_all_but_last (l : jsstring) : slice l 0 (Some (-1)) = removelast l.
Proof.
  unfold slice.
  replace (0 <? 0) with false by reflexivity.
  replace (-1 <? 0) with true by reflexivity.
  rewrite (Z.min_l 0) by lia. change (Z.to_nat 0) with 0%nat. cbn [skipn].
  destruct l as [|x l] using rev_ind; [reflexivity|].
  rewrite removelast_last, length_app. cbn [length].
  replace (Z.to_nat (Z.max (Z.of_nat (length l + 1) + -1) 0 - 0))
    with (length l) by lia.
  rewrite firstn_app, firstn_all, Nat.sub_diag. cbn [firstn].
  apply app_nil_r.
Qed.

Lemma slice_first (l : jsstring) (n : nat) :
  slice l 0 (Some (Z.of_nat n)) = firstn n l.
Proof.
  unfold slice.
  replace (0 <? 0) with false by reflexivity.
  replace (Z.of_nat n <? 0) with false by (symmetry; apply Z.ltb_ge; lia).
  rewrite (Z.min_l 0) by lia. change (Z.to_nat 0) with 0%nat. cbn [skipn].
  destruct (Nat.le_gt_cases n (length l)) as [H|H].
  - rewrite Z.min_l by lia. f_equal. lia.
  - rewrite Z.min_r by lia.
    replace (Z.to_nat (Z.of_nat (length l) - 0)) with (length l) by lia.
    rewrite firstn_all. symmetry. apply firstn_all2. lia.
Qed.

Lemma slice_last (l : jsstring) (n : nat) :
  (0 < n)%nat -> slice l (- Z.of_nat n) None = skipn (length l - n) l.
Proof.
  intros Hn. unfold slice.
  replace (- Z.of_nat n <? 0) with true by (symmetry; apply Z.ltb_lt; lia).
  replace (Z.to_nat (Z.max (Z.of_nat (length l) + - Z.of_nat n) 0))
    with (length l - n)%nat by lia.
  apply firstn_all2. rewrite length_skipn. lia.
Qed.

Lemma slice_from (n : nat) (l : jsstring) :
  (n <= length l)%nat -> slice l (Z.of_nat n) None = skipn n l.
Proof.
  intros Hn. unfold slice.
  replace (Z.of_nat n <? 0) with false by (symmetry; apply Z.ltb_ge; lia).
  rewrite Z.min_l by lia. rewrite Nat2Z.id.
  apply firstn_all2. rewrite length_skipn. lia.
Qed.

(** ** The loop, key by key *)

Lemma keys_buffer (b x : jsstring) :
  forall c t, keys b (GetPassword.set_buffer x c) t = keys b c t.
Proof.
  induction b as [|ch rest IH]; intros c t; [reflexivity|].
  cbn [keys]. cbn [GetPassword.password GetPassword.set_buffer
                   GetPassword.cleanup GetPassword.wasRaw
                   GetPassword.wasPaused].
  destruct (is_enter ch); [reflexivity|].
  destruct (ch =? 3); [reflexivity|].
  destruct ((ch =? 127) || (ch =? 8)).
  - destruct (GetPassword.password c) eqn:E; [apply IH|].
    change (GetPassword.set_password ?s (GetPassword.set_buffer x c))
      with (GetPassword.set_buffer x (GetPassword.set_password s c)).
    apply IH.
  - destruct (ch <? 32); [apply IH|].
    change (GetPassword.set_password ?s (GetPassword.set_buffer x c))
      with (GetPassword.set_buffer x (GetPassword.set_password s c)).
    apply IH.
Qed.

Lemma control_not_escape (ch : Z) : (ch <? 32) = false -> (ch =? 27) = false.
Proof.
  intros H. apply Z.ltb_ge in H. apply Z.eqb_neq. lia.
Qed.

Lemma loop_keys (b : jsstring) :
  forall f c t,
    GetPassword.buffer c = b -> (length b <= f)%nat ->
    GetPassword.loop f c t = keys b c t.
Proof.
  induction b as [|ch rest IH]; intros f c t Hb Hf.
  - destruct f; cbn [GetPassword.loop keys]; [| rewrite Hb];
      destruct c; cbn in Hb; subst; reflexivity.
  - destruct f as [|f]; [cbn in Hf; lia|].
    cbn [GetPassword.loop keys]. rewrite Hb. cbv zeta.
    rewrite slice_rest.
    cbn [GetPassword.password GetPassword.set_buffer GetPassword.cleanup
         GetPassword.wasRaw GetPassword.wasPaused GetPassword.buffer].
    unfold is_enter.
    destruct ((ch =? 13) || (ch =? 10)); [reflexivity|].
    destruct (ch =? 3); [reflexivity|].
    cbn in Hf.
    destruct ((ch =? 127) || (ch =? 8)).
    + destruct (GetPassword.password c) eqn:E.
      * cbn [length Nat.ltb Nat.leb]. rewrite IH by (cbn; lia || reflexivity).
        apply keys_buffer.
      * cbn [length Nat.ltb Nat.leb]. rewrite slice_all_but_last.
        rewrite IH by (cbn; lia || reflexivity).
        change (GetPassword.set_password ?s (GetPassword.set_buffer ?x c))
          with (GetPassword.set_buffer x (GetPassword.set_password s c)).
        rewrite keys_buffer. reflexivity.
    + destruct (ch <? 32) eqn:Hc.
      * rewrite IH by (cbn; lia || reflexivity). apply keys_buffer.
      * rewrite (control_not_escape ch Hc).
        rewrite IH by (cbn; lia || reflexivity).
        change (GetPassword.set_password ?s (GetPassword.set_buffer ?x c))
          with (GetPassword.set_buffer x (GetPassword.set_password s c)).
        apply keys_buffer.
Qed.

Lemma onData_keys (data : jsstring) (c : GetPassword.closure)
      (t : GetPassword.terminal) :
  GetPassword.buffer c = [] -> GetPassword.onData data c t = keys data c t.
Proof.
  intros Hb. unfold GetPassword.onData. cbv zeta.
  rewrite (loop_keys data).
  - apply keys_buffer.
  - cbn. rewrite Hb. reflexivity.
  - cbn. rewrite Hb. cbn. lia.
Qed.

Lemma set_buffer_same (c : GetPassword.closure) :
  GetPassword.buffer c = [] -> GetPassword.set_buffer [] c = c.
Proof. destruct c. cbn. intros ->. reflexivity. Qed.

Lemma keys_pending_buffer (b : jsstring) :
  forall c t c' t',
    keys b c t = (GetPassword.Pending c', t') -> GetPassword.buffer c' = [].
Proof.
  induction b as [|ch rest IH]; intros c t c' t'; cbn [keys].
  - intros H. injection H as <- _. reflexivity.
  - destruct (is_enter ch); [discriminate|].
    destruct (ch =? 3); [discriminate|].
    destruct ((ch =? 127) || (ch =? 8)).
    + destruct (GetPassword.password c); apply IH.
    + destruct (ch <? 32); apply IH.
Qed.

Lemma keys_app (a b : jsstring) :
  forall c t,
    keys (a ++ b) c t =
    match keys a c t with
    | (GetPassword.Pending c', t') => keys b c' t'
    | done => done
    end.
Proof.
  induction a as [|ch rest IH]; intros c t.
  - cbn [app keys]. symmetry. apply keys_buffer.
  - cbn [app keys].
    destruct (is_enter ch); [reflexivity|].
    destruct (ch =? 3); [reflexivity|].
    destruct ((ch =? 127) || (ch =? 8)).
    + destruct (GetPassword.password c); apply IH.
    + destruct (ch <? 32); apply IH.
Qed.

Lemma deliver_keys (events : list jsstring) :
  forall c t,
    GetPassword.buffer c = [] ->
    fst (GetPassword.deliver events c t) = keys (concat events) c t.
Proof.
  induction events as [|data later IH]; intros c t Hb.
  - cbn. rewrite set_buffer_same by exact Hb. reflexivity.
  - cbn [GetPassword.deliver concat].
    rewrite onData_keys by exact Hb. rewrite keys_app.
    destruct (keys data c t) as [[c'|pw|code] t'] eqn:E; [|reflexivity..].
    apply IH. apply (keys_pending_buffer _ _ _ _ _ E).
Qed.

Lemma getPassword_opening (prompt : jsstring) (events : list jsstring)
      (t : GetPassword.terminal) :
  GetPassword.getPassword prompt events t =
  GetPassword.deliver events (opening_closure t) (opening_terminal prompt t).
Proof.
  unfold GetPassword.getPassword, opening_closure, opening_terminal.
  destruct t as [raw paused l out]. cbn. destruct paused; reflexivity.
Qed.

Lemma getPassword_keys (prompt : jsstring) (events : list jsstring)
      (t : GetPassword.terminal) :
  outcome (GetPassword.getPassword prompt events t) =
  keys (concat events) (opening_closure t) (opening_terminal prompt t).
Proof.
  rewrite getPassword_opening. apply deliver_keys. reflexivity.
Qed.

(** What the first event of one prompt does decides what the prompt
    returns when that event settles it. *)
Lemma getPassword_first_event (prompt data : jsstring)
      (later : list jsstring) (t : GetPassword.terminal) :
  GetPassword.getPassword prompt (data :: later) t =
  match keys data (opening_closure t) (opening_terminal prompt t) with
  | (GetPassword.Pending c', t') => GetPassword.deliver later c' t'
  | (done, t') => (done, t', later)
  end.
Proof.
  rewrite getPassword_opening. cbn [GetPassword.deliver].
  rewrite onData_keys by reflexivity. reflexivity.
Qed.

(** ** What the keys do to the password, the echo and the terminal *)

Lemma printable_key (ch : Z) :
  printable ch = true ->
  is_enter ch = false /\ (ch =? 3) = false /\
  ((ch =? 127) || (ch =? 8)) = false /\ (ch <? 32) = false.
Proof.
  unfold printable, is_enter. intros H. apply andb_true_iff in H.
  destruct H as [H1 H2]. apply Z.leb_le in H1.
  apply negb_true_iff, Z.eqb_neq in H2.
  repeat split; try apply orb_false_iff; repeat split;
    try (apply Z.eqb_neq; lia); apply Z.ltb_ge; lia.
Qed.

Lemma set_password_same (c : GetPassword.closure) :
  GetPassword.set_password (GetPassword.password c) c = c.
Proof. destruct c. reflexivity. Qed.

Lemma write_nothing (t : GetPassword.terminal) : GetPassword.write [] t = t.
Proof. destruct t. unfold GetPassword.write. cbn. rewrite app_nil_r. reflexivity. Qed.

Lemma keys_typed (s rest : jsstring) :
  Forall (fun ch => printable ch = true) s ->
  forall c t,
    exists t',
      keys (s ++ rest) c t =
      keys rest (GetPassword.set_password (GetPassword.password c ++ s) c) t'.
Proof.
  induction 1 as [|ch s Hch Hs IH]; intros c t.
  - exists t. cbn [app]. rewrite app_nil_r, set_password_same. reflexivity.
  - destruct (printable_key ch Hch) as [E1 [E2 [E3 E4]]].
    cbn [app keys]. rewrite E1, E2, E3, E4.
    destruct (IH (GetPassword.set_password (GetPassword.password c ++ [ch]) c)
                 (GetPassword.write [42] t)) as [t' Ht'].
    exists t'. rewrite Ht'. cbn [GetPassword.password GetPassword.set_password].
    rewrite <- app_assoc. reflexivity.
Qed.

Lemma keys_backspaces (k : nat) (rest : jsstring) :
  forall c t,
    exists t',
      keys (repeat 127 k ++ rest) c t =
      keys rest
           (GetPassword.set_password
              (firstn (length (GetPassword.password c) - k)
                      (GetPassword.password c)) c) t'.
Proof.
  induction k as [|k IH]; intros c t.
  - exists t. cbn [repeat app]. rewrite Nat.sub_0_r, firstn_all.
    rewrite set_password_same. reflexivity.
  - cbn [repeat app keys].
    change (is_enter 127) with false. change (127 =? 3) with false.
    change ((127 =? 127) || (127 =? 8)) with true. cbv iota.
    destruct (GetPassword.password c) as [|x l] eqn:E.
    + destruct (IH c t) as [t' Ht']. exists t'. rewrite Ht', E.
      cbn [length Nat.sub firstn]. reflexivity.
    + destruct (IH (GetPassword.set_password (removelast (x :: l)) c)
                   (GetPassword.write [8; 32; 8] t)) as [t' Ht'].
      exists t'. rewrite Ht'.
      cbn [GetPassword.password GetPassword.set_password].
      rewrite removelast_firstn_len, length_firstn.
      rewrite firstn_firstn.
      change (GetPassword.set_password ?a (GetPassword.set_password ?b c))
        with (GetPassword.set_password a c).
      f_equal. f_equal. f_equal. cbn [length]. lia.
Qed.

Lemma keys_exit_code (b : jsstring) :
  forall c t code t',
    keys b c t = (GetPassword.ProcessExit code, t') -> code = 130.
Proof.
  induction b as [|ch rest IH]; intros c t code t'; cbn [keys].
  - discriminate.
  - destruct (is_enter ch); [discriminate|].
    destruct (ch =? 3); [intros H; injection H as <- _; reflexivity|].
    destruct ((ch =? 127) || (ch =? 8)).
    + destruct (GetPassword.password c); apply IH.
    + destruct (ch <? 32); apply IH.
Qed.

Lemma Forall_removelast {A} (P : A -> Prop) (l : list A) :
  Forall P l -> Forall P (removelast l).
Proof.
  induction 1 as [|x l Hx Hl IH]; [constructor|].
  destruct l as [|y l]; [constructor|].
  change (removelast (x :: y :: l)) with (x :: removelast (y :: l)).
  constructor; assumption.
Qed.

Lemma keys_printable (b : jsstring) :
  forall c t pw,
    Forall (fun ch => printable ch = true) (GetPassword.password c) ->
    password_of (fst (keys b c t)) = Some pw ->
    Forall (fun ch => printable ch = true) pw.
Proof.
  induction b as [|ch rest IH]; intros c t pw Hc; cbn [keys].
  - cbn. intros H. injection H as <-. exact Hc.
  - destruct (is_enter ch) eqn:E1.
    { cbn. intros H. injection H as <-. exact Hc. }
    destruct (ch =? 3) eqn:E2; [discriminate|].
    destruct ((ch =? 127) || (ch =? 8)) eqn:E3.
    + destruct (GetPassword.password c) eqn:E; apply IH.
      * rewrite E. constructor.
      * cbn [GetPassword.password GetPassword.set_password].
        apply Forall_removelast. exact Hc.
    + destruct (ch <? 32) eqn:E4; apply IH; [exact Hc|].
      cbn. apply Forall_app. split; [exact Hc|].
      constructor; [|constructor].
      unfold printable. apply orb_false_iff in E3. destruct E3 as [E3 _].
      rewrite E3. apply Z.ltb_ge in E4.
      replace (32 <=? ch) with true by (symmetry; apply Z.leb_le; lia).
      reflexivity.
Qed.

(** The flags of the terminal: untouched while the prompt listens, put
    back when it settles. *)
Lemma keys_flags (b : jsstring) :
  forall c t,
    let '(p, t') := keys b c t in
    if settled p
    then GetPassword.isRaw t' = GetPassword.wasRaw c /\
         GetPassword.isPaused t' =
           (if GetPassword.wasPaused c then true else GetPassword.isPaused t)
         /\ GetPassword.listening t' = false
    else GetPassword.isRaw t' = GetPassword.isRaw t /\
         GetPassword.isPaused t' = GetPassword.isPaused t /\
         GetPassword.listening t' = GetPassword.listening t.
Proof.
  induction b as [|ch rest IH]; intros c t; cbn [keys].
  - cbn. repeat split.
  - destruct (is_enter ch).
    { cbn. destruct (GetPassword.wasPaused c); repeat split. }
    destruct (ch =? 3).
    { cbn. destruct (GetPassword.wasPaused c); repeat split. }
    destruct ((ch =? 127) || (ch =? 8)).
    + destruct (GetPassword.password c) as [|x l].
      * apply IH.
      * specialize (IH (GetPassword.set_password (removelast (x :: l)) c)
                       (GetPassword.write [8; 32; 8] t)).
        exact IH.
    + destruct (ch <? 32); [apply IH|].
      specialize (IH (GetPassword.set_password
                        (GetPassword.password c ++ [ch]) c)
                     (GetPassword.write [42] t)).
      exact IH.
Qed.

Lemma column_from (echo : jsstring) :
  forall col,
    fold_left (fun col ch => if ch =? 8 then col - 1 else col + 1) echo col
    = col + column echo.
Proof.
  unfold column. induction echo as [|ch echo IH]; intros col; cbn [fold_left].
  - lia.
  - rewrite IH, (IH (if ch =? 8 then 0 - 1 else 0 + 1)).
    destruct (ch =? 8); lia.
Qed.

Lemma column_app (a b : jsstring) : column (a ++ b) = column a + column b.
Proof.
  unfold column at 1. rewrite fold_left_app. fold (column a).
  apply column_from.
Qed.

(** The echo: asterisks, blanks and backspaces that leave the cursor as
    many columns on as the password has code units. *)
Lemma keys_echo (b : jsstring) :
  forall c t,
    let '(p, t') := keys b c t in
    exists echo,
      GetPassword.stdout t' =
        GetPassword.stdout t ++ echo ++ (if settled p then [10] else []) /\
      Forall (fun ch => In ch [42; 8; 32]) echo /\
      forall pw, password_of p = Some pw ->
                 column echo =
                 Z.of_nat (length pw)
                 - Z.of_nat (length (GetPassword.password c)).
Proof.
  induction b as [|ch rest IH]; intros c t; cbn [keys].
  - exists []. cbn. rewrite app_nil_r. repeat split; [constructor|].
    intros pw H. injection H as <-. lia.
  - destruct (is_enter ch).
    { exists []. cbn. destruct (GetPassword.wasPaused c); cbn;
        (repeat split; [constructor|]);
        intros pw H; injection H as <-; lia. }
    destruct (ch =? 3).
    { exists []. cbn. destruct (GetPassword.wasPaused c); cbn;
        (repeat split; [constructor|]); discriminate. }
    destruct ((ch =? 127) || (ch =? 8)).
    + destruct (GetPassword.password c) as [|x l] eqn:E.
      * specialize (IH c t). rewrite E in IH. exact IH.
      * specialize (IH (GetPassword.set_password (removelast (x :: l)) c)
                       (GetPassword.write [8; 32; 8] t)).
        destruct (keys rest _ _) as [p t'].
        destruct IH as [echo [Hout [Hall Hcol]]].
        exists ([8; 32; 8] ++ echo). split; [|split].
        -- rewrite Hout. cbn [GetPassword.stdout GetPassword.write].
           rewrite <- !app_assoc. reflexivity.
        -- apply Forall_app. split; [|exact Hall].
           repeat (apply Forall_cons; [cbn; auto|]). apply Forall_nil.
        -- intros pw Hpw. rewrite column_app, (Hcol pw Hpw).
           cbn [GetPassword.password GetPassword.set_password].
           rewrite removelast_firstn_len, length_firstn.
           change (column [8; 32; 8]) with (-1). cbn [length]. lia.
    + destruct (ch <? 32); [apply IH|].
      specialize (IH (GetPassword.set_password
                        (GetPassword.password c ++ [ch]) c)
                     (GetPassword.write [42] t)).
      destruct (keys rest _ _) as [p t'].
      destruct IH as [echo [Hout [Hall Hcol]]].
      exists ([42] ++ echo). split; [|split].
      * rewrite Hout. cbn [GetPassword.stdout GetPassword.write].
        rewrite <- !app_assoc. reflexivity.
      * apply Forall_app. split; [|exact Hall].
        repeat (apply Forall_cons; [cbn; auto|]). apply Forall_nil.
      * intros pw Hpw. rewrite column_app, (Hcol pw Hpw).
        cbn [GetPassword.password GetPassword.set_password].
        rewrite length_app. change (column [42]) with 1. cbn [length]. lia.
Qed.

(** ** The terminal does not decide what a prompt resolves with *)

Lemma keys_same (b : jsstring) :
  forall c c' t t',
    GetPassword.password c = GetPassword.password c' ->
    same_promise (fst (keys b c t)) (fst (keys b c' t')).
Proof.
  induction b as [|ch rest IH]; intros c c' t t' Hpw; cbn [keys].
  - exact Hpw.
  - destruct (is_enter ch); [exact Hpw|].
    destruct (ch =? 3); [reflexivity|].
    destruct ((ch =? 127) || (ch =? 8)).
    + rewrite <- Hpw.
      destruct (GetPassword.password c) as [|x l] eqn:E.
      * apply IH. rewrite E. exact Hpw.
      * apply IH. reflexivity.
    + destruct (ch <? 32); [apply IH; exact Hpw|].
      apply IH. cbn. rewrite Hpw. reflexivity.
Qed.

Lemma deliver_same (events : list jsstring) :
  forall c c' t t',
    GetPassword.buffer c = [] -> GetPassword.buffer c' = [] ->
    GetPassword.password c = GetPassword.password c' ->
    same_promise (fst (fst (GetPassword.deliver events c t)))
                 (fst (fst (GetPassword.deliver events c' t'))) /\
    snd (GetPassword.deliver events c t)
    = snd (GetPassword.deliver events c' t').
Proof.
  induction events as [|data later IH]; intros c c' t t' Hb Hb' Hpw.
  - split; [exact Hpw | reflexivity].
  - cbn [GetPassword.deliver].
    rewrite (onData_keys data c t Hb), (onData_keys data c' t' Hb').
    pose proof (keys_same data c c' t t' Hpw) as Hsame.
    destruct (keys data c t) as [[c1|pw|code] t1] eqn:E;
      destruct (keys data c' t') as [[c1'|pw'|code'] t1'] eqn:E';
      cbn in Hsame; try contradiction.
    + apply IH; [exact (keys_pending_buffer _ _ _ _ _ E)
                | exact (keys_pending_buffer _ _ _ _ _ E') | exact Hsame].
    + split; [exact Hsame | reflexivity].
    + split; [exact Hsame | reflexivity].
Qed.

Lemma getPassword_same (prompt : jsstring) (events : list jsstring)
      (t t' : GetPassword.terminal) :
  same_promise (fst (fst (GetPassword.getPassword prompt events t)))
               (fst (fst (GetPassword.getPassword prompt events t'))) /\
  snd (GetPassword.getPassword prompt events t)
  = snd (GetPassword.getPassword prompt events t').
Proof.
  rewrite !getPassword_opening. apply deliver_same; reflexivity.
Qed.

(** A run does not depend on the state in which it finds the terminal. *)
Lemma main_with_prompts_same (A : Type)
      (main : jsstring -> jsstring -> jsstring -> jsstring -> run A)
      (events : list jsstring) (answer : jsstring)
      (t t' : GetPassword.terminal) :
  main_with_prompts main events answer t
  = main_with_prompts main events answer t'.
Proof.
  unfold main_with_prompts.
  destruct (getPassword_same (js "Enter password: ") events t t')
    as [S1 L1].
  destruct (GetPassword.getPassword (js "Enter password: ") events t)
    as [[[c1|password|code1] t1] events1];
    destruct (GetPassword.getPassword (js "Enter password: ") events t')
      as [[[c1'|password'|code1'] t1'] events1'];
    cbn in S1, L1; try contradiction; subst; try reflexivity.
  destruct (getPassword_same
              (js "Enter user salt/passphrase (remember this!): ")
              events1' t1 t1') as [S2 L2].
  destruct (GetPassword.getPassword
              (js "Enter user salt/passphrase (remember this!): ")
              events1' t1)
    as [[[c2|userSalt|code2] t2] events2];
    destruct (GetPassword.getPassword
                (js "Enter user salt/passphrase (remember this!): ")
                events1' t1')
      as [[[c2'|userSalt'|code2'] t2'] events2'];
    cbn in S2, L2; try contradiction; subst; try reflexivity.
  destruct (getPassword_same
              (js "Enter application salt (remember this!): ")
              events2' t2 t2') as [S3 L3].
  destruct (GetPassword.getPassword
              (js "Enter application salt (remember this!): ")
              events2' t2)
    as [[[c3|applicationSalt|code3] t3] events3];
    destruct (GetPassword.getPassword
                (js "Enter application salt (remember this!): ")
                events2' t2')
      as [[[c3'|applicationSalt'|code3'] t3'] events3'];
    cbn in S3, L3; try contradiction; subst; reflexivity.
Qed.

(** ** The account that the Ed25519 program makes of a seed *)

Lemma sol_materialize (seed : bytes) (n : number) :
  length seed = 32%nat ->
  exists publicKeyBytes,
    Ed25519.getPublicKey seed = Return publicKeyBytes /\
    SolGenerator.materialize seed n =
    Return {| SolGenerator.privateKey := Bs58.encode (seed ++ publicKeyBytes);
              SolGenerator.publicKey := Bs58.encode publicKeyBytes;
              SolGenerator.address := Bs58.encode publicKeyBytes;
              SolGenerator.actualN := n |}.
Proof.
  intros Hlen. unfold SolGenerator.materialize, Ed25519.getPublicKey.
  rewrite Hlen. cbn [Nat.eqb bind].
  eexists. split; reflexivity.
Qed.

(* ===================================================================== *)
(** * The claims *)
(* ===================================================================== *)

(** C1.  Determinism.  For every quadruple (password, user salt,
    application salt, cost exponent): a seed that the derivation returns
    has 32 bytes, is the seed that the other program derives, and fixes
    the account of either program field by field (the secp256k1 program
    makes an account of it when the seed is a scalar in range, and
    throws otherwise); for every exponent from 1 to 14 the seed is there
    and is the scrypt value of the inputs.  Two runs that are given the
    same keystrokes and the same line for the exponent end alike,
    whatever state each one finds the terminal in: the terminal is the
    only state that the programs read besides their inputs. *)
Theorem derivation_deterministic :
  forall (password userSalt applicationSalt : jsstring)
         (costParameter : integral),
    (forall seed : bytes,
        Generator.derivedKey password userSalt applicationSalt costParameter
        = Return seed ->
        length seed = 32%nat /\
        SolGenerator.derivedKey
          password userSalt applicationSalt costParameter = Return seed /\
        Generator.generateWalletFromPassword
          password userSalt applicationSalt costParameter =
        (if in_scalar_range seed
         then Return
                {| Generator.wallet :=
                     {| Ethers.privateKey := js "0x" ++ hex seed;
                        Ethers.publicKey :=
                          x04 :: Secp256k1.public_xy (be_value seed);
                        Ethers.address :=
                          Ethers.computeAddress
                            (Secp256k1.public_xy (be_value seed)) |};
                   Generator.actualN := Generator.N costParameter |}
         else Throw InvalidKeyMaterial) /\
        exists publicKeyBytes : bytes,
          Ed25519.getPublicKey seed = Return publicKeyBytes /\
          SolGenerator.generateWalletFromPassword
            password userSalt applicationSalt costParameter =
          Return
            {| SolGenerator.privateKey :=
                 Bs58.encode (seed ++ publicKeyBytes);
               SolGenerator.publicKey := Bs58.encode publicKeyBytes;
               SolGenerator.address := Bs58.encode publicKeyBytes;
               SolGenerator.actualN := SolGenerator.N costParameter |}) /\
    (forall e : Z,
        costParameter = Finite e -> 1 <= e <= 14 ->
        Generator.derivedKey password userSalt applicationSalt costParameter
        = Return (Scrypt.scrypt
                    (utf8 password)
                    (sha256 (utf8 (userSalt ++ applicationSalt)))
                    (2 ^ e) 8 1 32)) /\
    (forall (events : list jsstring) (answer : jsstring)
            (t t' : GetPassword.terminal),
        main_with_prompts Generator.main events answer t =
        main_with_prompts Generator.main events answer t' /\
        main_with_prompts SolGenerator.main events answer t =
        main_with_prompts SolGenerator.main events answer t').
Proof.
  intros password userSalt applicationSalt costParameter.
  split; [|split].
  - intros seed Hseed.
    pose proof (derivedKey_length _ _ _ _ _ Hseed) as Hlen.
    split; [exact Hlen|].
    split; [rewrite same_derivedKey; exact Hseed|].
    split.
    + unfold Generator.generateWalletFromPassword. rewrite Hseed.
      cbn [bind]. unfold Generator.materialize.
      rewrite (Wallet_of_seed seed Hlen).
      destruct (in_scalar_range seed); reflexivity.
    + destruct (sol_materialize seed (SolGenerator.N costParameter) Hlen)
        as [publicKeyBytes [Hpub Hmat]].
      exists publicKeyBytes. split; [exact Hpub|].
      unfold SolGenerator.generateWalletFromPassword.
      rewrite same_derivedKey, Hseed. cbn [bind]. exact Hmat.
  - intros e -> He. apply derivedKey_valid. exact He.
  - intros events answer t t'. split; apply main_with_prompts_same.
Qed.

Lemma derivation_deterministic_witness :
  Generator.derivedKey (js "correct horse") (js "battery") (js "staple") 1
  = Return scenario_seed /\
  length scenario_seed = 32%nat /\
  SolGenerator.derivedKey (js "correct horse") (js "battery") (js "staple") 1
  = Return scenario_seed.
Proof.
  pose proof (proj1 (derivation_deterministic
                       (js "correct horse") (js "battery") (js "staple") 1)
                    scenario_seed scenario_derivedKey) as [Hlen [Hsol _]].
  exact (conj scenario_derivedKey (conj Hlen Hsol)).
Defined.

(** C2.  For a cost exponent [e] that Node accepts (1 to 14 under the
    default ceiling), the derived seed is scrypt of the password and the
    32-byte combined salt with N = 2^e, r = 8, p = 1 and 32 bytes asked
    for, and it is exactly 32 bytes long; in both programs. *)
Theorem derived_seed_is_scrypt :
  forall (password userSalt applicationSalt : jsstring) (e : Z),
    1 <= e <= 14 ->
    let salt := Generator.combinedSalt userSalt applicationSalt in
    let seed := Scrypt.scrypt (utf8 password) salt (2 ^ e) 8 1 32 in
    length salt = 32%nat /\
    Generator.derivedKey password userSalt applicationSalt e = Return seed /\
    SolGenerator.derivedKey password userSalt applicationSalt e = Return seed /\
    length seed = 32%nat.
Proof.
  intros password userSalt applicationSalt e He. cbv zeta.
  split; [apply sha256_length|].
  split; [apply derivedKey_valid; exact He|].
  split; [rewrite same_derivedKey; apply derivedKey_valid; exact He|].
  apply scrypt_length.
Qed.

Lemma derived_seed_is_scrypt_witness :
  1 <= 12 <= 14 /\
  Generator.derivedKey (js "correct horse") (js "battery") (js "staple") 12 =
  Return (Scrypt.scrypt (utf8 (js "correct horse"))
            (Generator.combinedSalt (js "battery") (js "staple"))
            (2 ^ 12) 8 1 32).
Proof.
  assert (H : 1 <= 12 <= 14) by lia.
  split; [exact H|].
  exact (proj1 (proj2 (derived_seed_is_scrypt
                         (js "correct horse") (js "battery") (js "staple")
                         12 H))).
Defined.

(** C3.  The combined salt is the SHA-256 digest of the user salt
    directly followed by the application salt, nothing between and
    nothing before; it is 32 bytes long whatever the two salts are, the
    empty ones included, and nothing in it can fail.  The digest is taken
    over the UTF-8 bytes of the concatenated string, which are the bytes
    of the one salt followed by the bytes of the other unless the
    concatenation joins the two halves of a surrogate pair. *)
Theorem combined_salt_is_sha256 :
  forall userSalt applicationSalt : jsstring,
    Generator.combinedSalt userSalt applicationSalt =
    sha256 (utf8 (userSalt ++ applicationSalt)) /\
    SolGenerator.combinedSalt userSalt applicationSalt =
    sha256 (utf8 (userSalt ++ applicationSalt)) /\
    length (Generator.combinedSalt userSalt applicationSalt) = 32%nat /\
    (splits_pair userSalt applicationSalt = false ->
     Generator.combinedSalt userSalt applicationSalt =
     sha256 (utf8 userSalt ++ utf8 applicationSalt)).
Proof.
  intros userSalt applicationSalt.
  split; [reflexivity|]. split; [reflexivity|].
  split; [apply sha256_length|].
  intros H. unfold Generator.combinedSalt. rewrite utf8_app by exact H.
  reflexivity.
Qed.

Lemma combined_salt_is_sha256_witness :
  splits_pair (js "battery") (js "staple") = false /\
  Generator.combinedSalt (js "battery") (js "staple") =
  sha256 (utf8 (js "battery") ++ utf8 (js "staple")).
Proof.
  assert (H : splits_pair (js "battery") (js "staple") = false)
    by reflexivity.
  split; [exact H|].
  exact (proj2 (proj2 (proj2 (combined_salt_is_sha256
                                (js "battery") (js "staple")))) H).
Defined.

Example combined_salt_of_empty_salts :
  hex (Generator.combinedSalt [] []) =
  js "e3b0c44298fc1c149afbf4c8996fb92427ae41e4649b934ca495991b7852b855".
Proof. by_evaluation. Qed.

(** C4 fails as stated: two different salts whose concatenations agree
    in both orders give the same combined salt. *)
Lemma salt_order_counterexample :
  js "a" <> js "aa" /\
  Generator.combinedSalt (js "a") (js "aa") =
  Generator.combinedSalt (js "aa") (js "a").
Proof. split; [discriminate | reflexivity]. Qed.

(** C4, amended.  For salts with no surrogate on its own, the combined
    salt is the SHA-256 digest of the bytes of the first salt followed by
    the bytes of the second, in both programs.  combine(a, b) =
    combine(b, a) whenever a || b = b || a, which happens exactly when a
    and b repeat one common string, as "a" and "aa" do.  For every other
    pair the two orders hash different bytes, so that combine(a, b) <>
    combine(b, a) unless the two byte strings are a collision of
    SHA-256. *)
Theorem salt_order_matters_up_to_collision :
  forall a b : jsstring,
    well_formed a = true -> well_formed b = true ->
    Generator.combinedSalt a b = sha256 (utf8 a ++ utf8 b) /\
    SolGenerator.combinedSalt a b = sha256 (utf8 a ++ utf8 b) /\
    (a ++ b = b ++ a <-> exists w i j, a = power w i /\ b = power w j) /\
    (a ++ b = b ++ a ->
     Generator.combinedSalt a b = Generator.combinedSalt b a) /\
    (a ++ b <> b ++ a ->
     utf8 a ++ utf8 b <> utf8 b ++ utf8 a /\
     (Generator.combinedSalt a b <> Generator.combinedSalt b a \/
      collision (utf8 a ++ utf8 b) (utf8 b ++ utf8 a))).
Proof.
  intros a b Ha Hb.
  assert (Hab : Generator.combinedSalt a b = sha256 (utf8 a ++ utf8 b)).
  { unfold Generator.combinedSalt.
    rewrite utf8_app_well_formed by exact Ha.
    reflexivity. }
  assert (Hba : Generator.combinedSalt b a = sha256 (utf8 b ++ utf8 a)).
  { unfold Generator.combinedSalt.
    rewrite utf8_app_well_formed by exact Hb.
    reflexivity. }
  split; [exact Hab|]. split; [exact Hab|].
  split; [apply commute_iff_powers|].
  split.
  - intros E. unfold Generator.combinedSalt. rewrite E. reflexivity.
  - intros Hne.
    assert (Hbytes : utf8 a ++ utf8 b <> utf8 b ++ utf8 a).
    { intros E. apply Hne.
      apply utf8_inj; [apply well_formed_app; assumption
                      | apply well_formed_app; assumption |].
      rewrite !utf8_app_well_formed by assumption. exact E. }
    split; [exact Hbytes|].
    rewrite Hab, Hba.
    destruct (list_eq_dec Byte.byte_eq_dec
                          (sha256 (utf8 a ++ utf8 b))
                          (sha256 (utf8 b ++ utf8 a))) as [Same|Differ].
    + right. split; [exact Hbytes | exact Same].
    + left. exact Differ.
Qed.

Lemma salt_order_matters_up_to_collision_witness :
  well_formed (js "battery") = true /\
  well_formed (js "staple") = true /\
  js "battery" ++ js "staple" <> js "staple" ++ js "battery" /\
  utf8 (js "battery") ++ utf8 (js "staple")
  <> utf8 (js "staple") ++ utf8 (js "battery").
Proof.
  assert (Hne : js "battery" ++ js "staple" <> js "staple" ++ js "battery")
    by discriminate.
  exact (conj eq_refl
           (conj eq_refl
              (conj Hne
                 (proj1 (proj2 (proj2 (proj2 (proj2
                    (salt_order_matters_up_to_collision
                       (js "battery") (js "staple") eq_refl eq_refl))))
                    Hne))))).
Defined.

(** Where the concatenations differ, so do the salts of the scenario. *)
Example salt_order_matters_for_scenario :
  Generator.combinedSalt (js "battery") (js "staple") <>
  Generator.combinedSalt (js "staple") (js "battery").
Proof. intros H. vm_compute in H. discriminate H. Qed.

(** Surrogates on their own are why the salts have to be well formed:
    [utf8] writes U+FFFD for each of them, so that two salts of one such
    code unit each hash the same bytes in either order. *)
Example salt_order_lost_on_lone_surrogates :
  [0xD800] ++ [0xD801] <> [0xD801] ++ [0xD800] /\
  well_formed [0xD800] = false /\
  Generator.combinedSalt [0xD800] [0xD801] =
  Generator.combinedSalt [0xD801] [0xD800].
Proof.
  split; [discriminate|]. split; [reflexivity|].
  unfold Generator.combinedSalt. apply (f_equal sha256). reflexivity.
Qed.

(** C5 fails as stated: a line that is not an integer is accepted when it
    starts with one.  "3.5" is read as 3 and the run goes on to the
    derivation: whatever it ends with, it is not the refusal of the
    number. *)
Lemma cost_input_counterexample :
  Generator.getNumber (js "3.5") = Resolved 3 /\
  SolGenerator.getNumber (js "3.5") = Resolved 3 /\
  stderr (Generator.main (js "correct horse") (js "battery") (js "staple")
            (js "3.5")) <> Some valid_positive_number.
Proof.
  split; [reflexivity|]. split; [reflexivity|].
  unfold Generator.main.
  change (Generator.getNumber (js "3.5")) with (@Resolved integral 3).
  cbv beta iota.
  change (is_empty (js "correct horse") || is_empty (js "battery")
          || is_empty (js "staple")) with false.
  cbv beta iota.
  destruct (Generator.generateWalletFromPassword _ _ _ _);
    cbn [stderr fatal]; discriminate.
Qed.

Lemma refused_when (answer : jsstring) :
  match parseInt answer with
  | None => True
  | Some num => nonpositive num = true
  end -> refused answer.
Proof.
  intros H.
  assert (E : Generator.getNumber answer = Exit 1 valid_positive_number).
  { rewrite getNumber_parseInt.
    destruct (parseInt answer) as [num|]; [|reflexivity].
    rewrite H. reflexivity. }
  split; [exact E|]. split; [exact E|].
  intros password userSalt applicationSalt.
  unfold Generator.main, SolGenerator.main.
  change (SolGenerator.getNumber answer) with (Generator.getNumber answer).
  rewrite E. split; reflexivity.
Qed.

Lemma accepted_when (answer : jsstring) (num : integral) :
  parseInt answer = Some num -> nonpositive num = false ->
  accepted answer num.
Proof.
  intros E Hpos.
  assert (G : Generator.getNumber answer = Resolved num).
  { rewrite getNumber_parseInt, E, Hpos. reflexivity. }
  split; exact G.
Qed.

(** [parseInt] on white space, an optional sign, a run of digits and a
    rest that does not go on with a digit. *)
Lemma parseInt_shape (ws sign ds t : jsstring) :
  Forall (fun c => is_whitespace c = true) ws ->
  In sign [[]; [43]; [45]] ->
  Forall (fun c => is_digit c = true) ds ->
  not_digit_first t ->
  (ds = [] -> sign = [] -> no_number_first t) ->
  parseInt (ws ++ sign ++ ds ++ t) =
  match ds with
  | [] => None
  | _ => Some (double (signed sign ds))
  end.
Proof.
  intros Hws Hsign Hds Ht Hnone. rewrite (parseInt_skip _ _ Hws).
  destruct Hsign as [<- | [<- | [<- | []]]]; cbn [app signed].
  - destruct ds as [|d ds'].
    + cbn [app]. apply parseInt_no_number. apply Hnone; reflexivity.
    + apply parseInt_digits; [discriminate | exact Hds | exact Ht].
  - destruct ds as [|d ds'].
    + cbn [app]. apply parseInt_sign_only; [right; reflexivity | exact Ht].
    + apply parseInt_plus; [discriminate | exact Hds | exact Ht].
  - destruct ds as [|d ds'].
    + cbn [app]. apply parseInt_sign_only; [left; reflexivity | exact Ht].
    + apply parseInt_minus; [discriminate | exact Hds | exact Ht].
Qed.

(** Every line is white space, an optional sign, a run of digits and a
    rest that does not go on with a digit. *)
Lemma line_shape (line : jsstring) :
  exists ws sign ds t : jsstring,
    line = ws ++ sign ++ ds ++ t /\
    Forall (fun c => is_whitespace c = true) ws /\
    In sign [[]; [43]; [45]] /\
    Forall (fun c => is_digit c = true) ds /\
    not_digit_first t /\
    (ds = [] -> sign = [] -> no_number_first t).
Proof.
  assert (Digits : forall r : jsstring,
             r = take_while is_digit r ++ drop_while is_digit r /\
             Forall (fun c => is_digit c = true) (take_while is_digit r) /\
             not_digit_first (drop_while is_digit r)).
  { intros r. split; [symmetry; apply take_drop_while|].
    split; [apply take_while_all|].
    pose proof (drop_while_stops is_digit r) as H.
    destruct (drop_while is_digit r); [exact I | exact H]. }
  exists (take_while is_whitespace line).
  pose proof (take_drop_while is_whitespace line) as Hline.
  pose proof (take_while_all is_whitespace line) as Hws.
  pose proof (drop_while_stops is_whitespace line) as Hfirst.
  destruct (drop_while is_whitespace line) as [|c r] eqn:E.
  - exists [], [], []. rewrite app_nil_r in Hline.
    split; [cbn [app]; rewrite app_nil_r; symmetry; exact Hline|].
    split; [exact Hws|]. split; [left; reflexivity|].
    split; [constructor|]. split; [exact I|]. intros _ _. exact I.
  - destruct (Z.eq_dec c 45) as [->|H45]; [|destruct (Z.eq_dec c 43)
                                              as [->|H43]].
    + destruct (Digits r) as [Hr [Hd Ht]].
      exists [45], (take_while is_digit r), (drop_while is_digit r).
      split; [rewrite <- Hline at 1; cbn [app]; rewrite <- Hr; reflexivity|].
      split; [exact Hws|]. split; [right; right; left; reflexivity|].
      split; [exact Hd|]. split; [exact Ht|]. discriminate.
    + destruct (Digits r) as [Hr [Hd Ht]].
      exists [43], (take_while is_digit r), (drop_while is_digit r).
      split; [rewrite <- Hline at 1; cbn [app]; rewrite <- Hr; reflexivity|].
      split; [exact Hws|]. split; [right; left; reflexivity|].
      split; [exact Hd|]. split; [exact Ht|]. discriminate.
    + destruct (Digits (c :: r)) as [Hr [Hd Ht]].
      exists [], (take_while is_digit (c :: r)),
             (drop_while is_digit (c :: r)).
      split; [rewrite <- Hline at 1; cbn [app]; rewrite <- Hr; reflexivity|].
      split; [exact Hws|]. split; [left; reflexivity|].
      split; [exact Hd|]. split; [exact Ht|].
      intros Hnil _. cbn [take_while drop_while] in *.
      destruct (is_digit c) eqn:Ed; [discriminate Hnil|].
      cbn. repeat split; assumption.
Qed.

(** The diagnostic of the number is printed for a refused number and for
    nothing else. *)
Lemma number_diagnostic (password userSalt applicationSalt answer : jsstring) :
  (stderr (Generator.main password userSalt applicationSalt answer)
   = Some valid_positive_number <->
   Generator.getNumber answer = Exit 1 valid_positive_number) /\
  (stderr (SolGenerator.main password userSalt applicationSalt answer)
   = Some valid_positive_number <->
   SolGenerator.getNumber answer = Exit 1 valid_positive_number).
Proof.
  unfold Generator.main, SolGenerator.main.
  change (SolGenerator.getNumber answer) with (Generator.getNumber answer).
  destruct (Generator.getNumber answer) as [num|code d] eqn:E.
  - destruct (is_empty password || is_empty userSalt
              || is_empty applicationSalt).
    + split; split; discriminate.
    + split.
      * destruct (Generator.generateWalletFromPassword _ _ _ _);
          split; discriminate.
      * destruct (SolGenerator.generateWalletFromPassword _ _ _ _);
          split; discriminate.
  - destruct (getNumber_exit _ _ _ E) as [-> ->].
    split; split; reflexivity.
Qed.

(** C5, amended.  A typed line is white space, an optional sign, a run of
    digits and a rest; [parseInt] reads the signed integer and ignores
    the rest, a fractional part included.  The line is refused when there
    is no digit where the number should start or when the integer is zero
    or negative: both programs end with status 1, as for every other
    failure, with the diagnostic 'Please enter a valid positive number',
    which nothing else prints, and with no account.  Otherwise the line is
    accepted and the cost parameter is the integer as a JavaScript number:
    the integer itself below 2^53, the nearest double from there on,
    [Infinity] in the end. *)
Theorem cost_input_leading_integer :
  forall ws sign ds t : jsstring,
    Forall (fun c => is_whitespace c = true) ws ->
    In sign [[]; [43]; [45]] ->
    Forall (fun c => is_digit c = true) ds ->
    not_digit_first t ->
    (ds = [] -> sign = [] -> no_number_first t) ->
    let line := ws ++ sign ++ ds ++ t in
    (ds = [] \/ signed sign ds <= 0 -> refused line) /\
    (ds <> [] -> 0 < signed sign ds ->
     accepted line (double (signed sign ds)) /\
     (signed sign ds < 2 ^ 53 -> accepted line (Finite (signed sign ds)))) /\
    (forall any : jsstring,
        exists ws' sign' ds' t' : jsstring,
          any = ws' ++ sign' ++ ds' ++ t' /\
          Forall (fun c => is_whitespace c = true) ws' /\
          In sign' [[]; [43]; [45]] /\
          Forall (fun c => is_digit c = true) ds' /\
          not_digit_first t' /\
          (ds' = [] -> sign' = [] -> no_number_first t')) /\
    (forall password userSalt applicationSalt answer : jsstring,
        (stderr (Generator.main password userSalt applicationSalt answer)
         = Some valid_positive_number <->
         Generator.getNumber answer = Exit 1 valid_positive_number) /\
        (stderr (SolGenerator.main password userSalt applicationSalt answer)
         = Some valid_positive_number <->
         SolGenerator.getNumber answer = Exit 1 valid_positive_number)).
Proof.
  intros ws sign ds t Hws Hsign Hds Ht Hnone. cbv zeta.
  pose proof (parseInt_shape ws sign ds t Hws Hsign Hds Ht Hnone) as Hparse.
  split; [|split; [|split; [exact line_shape | exact number_diagnostic]]].
  - intros Hcase. apply refused_when. rewrite Hparse.
    destruct ds as [|d ds']; [exact I|].
    destruct Hcase as [Hnil | Hle]; [discriminate Hnil|].
    rewrite nonpositive_double. apply Z.leb_le. exact Hle.
  - intros Hne Hpos.
    assert (Hsome : parseInt (ws ++ sign ++ ds ++ t)
                    = Some (double (signed sign ds))).
    { rewrite Hparse. destruct ds; [contradiction | reflexivity]. }
    assert (Hnp : nonpositive (double (signed sign ds)) = false).
    { rewrite nonpositive_double. apply Z.leb_gt. exact Hpos. }
    split; [exact (accepted_when _ _ Hsome Hnp)|].
    intros Hsmall.
    rewrite <- (double_exact (signed sign ds)) by lia.
    exact (accepted_when _ _ Hsome Hnp).
Qed.

Lemma cost_input_leading_integer_witness :
  Forall (fun c => is_whitespace c = true) [32] /\
  In [43] [[]; [43]; [45]] /\
  Forall (fun c => is_digit c = true) (js "9007199254740993") /\
  not_digit_first (js ".5") /\
  js "9007199254740993" <> [] /\
  0 < signed [43] (js "9007199254740993") /\
  accepted ([32] ++ [43] ++ js "9007199254740993" ++ js ".5")
           (double (signed [43] (js "9007199254740993"))) /\
  In [45] [[]; [43]; [45]] /\
  refused ([] ++ [45] ++ [] ++ js "abc").
Proof.
  assert (H1 : Forall (fun c => is_whitespace c = true) [32])
    by (repeat constructor).
  assert (H2 : In [43] [[]; [43]; [45]]) by (right; left; reflexivity).
  assert (H3 : Forall (fun c => is_digit c = true) (js "9007199254740993"))
    by (repeat constructor).
  assert (H4 : not_digit_first (js ".5")) by reflexivity.
  assert (H5 : js "9007199254740993" = [] -> [43] = [] ->
               no_number_first (js ".5")) by (intros H; discriminate H).
  assert (H6 : js "9007199254740993" <> []) by discriminate.
  assert (H7 : 0 < signed [43] (js "9007199254740993")) by reflexivity.
  assert (N1 : Forall (fun c => is_whitespace c = true) [])
    by constructor.
  assert (N2 : In [45] [[]; [43]; [45]])
    by (right; right; left; reflexivity).
  assert (N3 : Forall (fun c => is_digit c = true) []) by constructor.
  assert (N4 : not_digit_first (js "abc")) by reflexivity.
  assert (N5 : @nil Z = [] -> [45] = [] -> no_number_first (js "abc"))
    by (intros _ H; discriminate H).
  pose proof (cost_input_leading_integer [32] [43] (js "9007199254740993")
                (js ".5") H1 H2 H3 H4 H5) as [_ [Acc _]].
  pose proof (cost_input_leading_integer [] [45] [] (js "abc")
                N1 N2 N3 N4 N5) as [Ref _].
  exact (conj H1 (conj H2 (conj H3 (conj H4 (conj H6 (conj H7
           (conj (proj1 (Acc H6 H7))
              (conj N2 (Ref (or_introl eq_refl)))))))))).
Defined.

(** The line of the finding above: the number typed is not a double, and
    the cost parameter is the double next to it. *)
Example getNumber_rounds :
  Generator.getNumber (js "9007199254740993") = Resolved 9007199254740992 /\
  Generator.getNumber (js " +5") = Resolved 5 /\
  Generator.getNumber (js "-abc") = Exit 1 valid_positive_number /\
  Generator.getNumber (js " abc") = Exit 1 valid_positive_number /\
  Generator.getNumber (49 :: repeat 48 309) = Resolved PlusInfinity.
Proof. repeat split. Qed.

(** C6 fails as stated: from e = 32 on the bound 128 * N * r is over the
    ceiling and the derivation does fail, but with the range error of N
    (N must be an unsigned 32-bit integer), not with the error of the
    memory limit. *)
Lemma memory_ceiling_counterexample :
  Node.default_maxmem < 128 * 2 ^ 32 * Generator.r /\
  Generator.generateWalletFromPassword
    (js "correct horse") (js "battery") (js "staple") 32 =
  Throw ERR_OUT_OF_RANGE /\
  SolGenerator.generateWalletFromPassword
    (js "correct horse") (js "battery") (js "staple") 32 =
  Throw ERR_OUT_OF_RANGE /\
  ERR_OUT_OF_RANGE <> ERR_CRYPTO_INVALID_SCRYPT_PARAMS memory_limit_exceeded.
Proof.
  assert (Hthrow := derivedKey_over_ceiling
                      (js "correct horse") (js "battery") (js "staple")
                      32 ltac:(lia)).
  change (32 <=? 31) with false in Hthrow. cbv iota in Hthrow.
  split; [reflexivity|]. split; [|split].
  - unfold Generator.generateWalletFromPassword. rewrite Hthrow. reflexivity.
  - unfold SolGenerator.generateWalletFromPassword.
    change (SolGenerator.derivedKey (js "correct horse") (js "battery")
              (js "staple") 32)
      with (Generator.derivedKey (js "correct horse") (js "battery")
              (js "staple") 32).
    rewrite Hthrow. reflexivity.
  - discriminate.
Qed.

(** C6, amended.  A cost exponent whose memory bound 128 * N * r reaches
    or exceeds the ceiling (Node's default of 32 MiB, as neither program
    sets one: every exponent from 15 on) makes the derivation fail in
    both programs, and no account comes out: with the error of the memory
    limit up to e = 31, with the range error of N from e = 32 on and for
    an infinite cost parameter.  scrypt is handed N = 2^e as it is
    ([Infinity] where 2^e is beyond the doubles), never a smaller value;
    a run ends with status 1, the caught error as its diagnostic,
    nothing reported and nothing written. *)
Theorem memory_ceiling_enforced :
  forall (password userSalt applicationSalt : jsstring) (e : Z),
    Node.default_maxmem <= 128 * 2 ^ e * Generator.r ->
    let failure :=
      if e <=? 31
      then ERR_CRYPTO_INVALID_SCRYPT_PARAMS memory_limit_exceeded
      else ERR_OUT_OF_RANGE in
    Generator.N e = (if e <? 1024 then Int (2 ^ e) else Infinity) /\
    Generator.generateWalletFromPassword
      password userSalt applicationSalt e = Throw failure /\
    SolGenerator.generateWalletFromPassword
      password userSalt applicationSalt e = Throw failure /\
    Generator.generateWalletFromPassword
      password userSalt applicationSalt PlusInfinity
    = Throw ERR_OUT_OF_RANGE /\
    SolGenerator.generateWalletFromPassword
      password userSalt applicationSalt PlusInfinity
    = Throw ERR_OUT_OF_RANGE /\
    forall answer : jsstring,
      Generator.getNumber answer = Resolved e ->
      let r := Generator.main password userSalt applicationSalt answer in
      let r' := SolGenerator.main password userSalt applicationSalt answer in
      exit_code r = 1 /\ reported r = None /\ written r = None /\
      exit_code r' = 1 /\ reported r' = None /\ written r' = None /\
      (password <> [] -> userSalt <> [] -> applicationSalt <> [] ->
       stderr r = Some (caught failure) /\
       stderr r' = Some (caught failure)).
Proof.
  intros password userSalt applicationSalt e Hover. cbv zeta.
  assert (He : 15 <= e).
  { destruct (Z.lt_ge_cases e 15) as [Hlt|Hge]; [exfalso | exact Hge].
    unfold Node.default_maxmem, Generator.r in Hover.
    destruct (Z.lt_ge_cases e 0) as [Hneg|Hnn].
    - rewrite Z.pow_neg_r in Hover by exact Hneg. lia.
    - assert (2 ^ e <= 2 ^ 14) by (apply Z.pow_le_mono_r; lia).
      change (2 ^ 14) with 16384 in *. lia. }
  assert (Hthrow := derivedKey_over_ceiling
                      password userSalt applicationSalt e He).
  assert (G : Generator.generateWalletFromPassword
                password userSalt applicationSalt e =
              Throw (if e <=? 31
                     then ERR_CRYPTO_INVALID_SCRYPT_PARAMS
                            memory_limit_exceeded
                     else ERR_OUT_OF_RANGE)).
  { unfold Generator.generateWalletFromPassword. rewrite Hthrow.
    reflexivity. }
  assert (S : SolGenerator.generateWalletFromPassword
                password userSalt applicationSalt e =
              Throw (if e <=? 31
                     then ERR_CRYPTO_INVALID_SCRYPT_PARAMS
                            memory_limit_exceeded
                     else ERR_OUT_OF_RANGE)).
  { unfold SolGenerator.generateWalletFromPassword.
    change (SolGenerator.derivedKey password userSalt applicationSalt e)
      with (Generator.derivedKey password userSalt applicationSalt e).
    rewrite Hthrow. reflexivity. }
  split; [|split; [exact G|split; [exact S|split; [|split]]]].
  - unfold Generator.N, power2, pow2.
    destruct (Z.ltb_spec e 1024) as [Hlt|Hge].
    + replace (1024 <=? e) with false by (symmetry; apply Z.leb_gt; lia).
      replace (0 <=? e) with true by (symmetry; apply Z.leb_le; lia).
      reflexivity.
    + replace (1024 <=? e) with true by (symmetry; apply Z.leb_le; lia).
      reflexivity.
  - reflexivity.
  - reflexivity.
  - intros answer Hanswer. unfold Generator.main, SolGenerator.main.
    change (SolGenerator.getNumber answer) with (Generator.getNumber answer).
    rewrite Hanswer.
    destruct (is_empty password || is_empty userSalt
              || is_empty applicationSalt) eqn:Hb.
    + do 6 (split; [reflexivity|]). intros Hp Hu Ha.
      pose proof (proj2 (none_empty _ _ _) (conj Hp (conj Hu Ha))).
      congruence.
    + rewrite G, S. do 6 (split; [reflexivity|]). intros _ _ _.
      split; reflexivity.
Qed.

Lemma memory_ceiling_enforced_witness :
  Node.default_maxmem <= 128 * 2 ^ 15 * Generator.r /\
  Generator.generateWalletFromPassword
    (js "correct horse") (js "battery") (js "staple") 15 =
  Throw (if 15 <=? 31
         then ERR_CRYPTO_INVALID_SCRYPT_PARAMS memory_limit_exceeded
         else ERR_OUT_OF_RANGE).
Proof.
  assert (H : Node.default_maxmem <= 128 * 2 ^ 15 * Generator.r)
    by (vm_compute; discriminate).
  split; [exact H|].
  exact (proj1 (proj2 (memory_ceiling_enforced
                         (js "correct horse") (js "battery") (js "staple")
                         15 H))).
Defined.

(** C7.  In the secp256k1 program a derived seed is 32 bytes read as a
    big-endian scalar.  When the scalar is zero or not less than the order
    of the curve the wallet constructor throws InvalidKeyMaterial and the
    pipeline returns no account; otherwise the private key of the wallet
    is the seed itself, digit for digit, never a reduced value. *)
Theorem scalar_range_enforced :
  forall (seed : bytes) (n : number),
    length seed = 32%nat ->
    (be_value seed = 0 \/ Secp256k1.n <= be_value seed ->
     Generator.materialize seed n = Throw InvalidKeyMaterial) /\
    (0 < be_value seed < Secp256k1.n ->
     exists w,
       Generator.materialize seed n = Return {| Generator.wallet := w;
                                                Generator.actualN := n |} /\
       Ethers.privateKey w = js "0x" ++ hex seed /\
       unhex (skipn 2 (Ethers.privateKey w)) = Some seed) /\
    (forall (password userSalt applicationSalt : jsstring) (e : integral),
        Generator.derivedKey password userSalt applicationSalt e
        = Return seed ->
        Generator.generateWalletFromPassword
          password userSalt applicationSalt e
        = Generator.materialize seed (Generator.N e)).
Proof.
  intros seed n Hlen.
  pose proof (Wallet_of_seed seed Hlen) as HW. unfold in_scalar_range in HW.
  split; [|split].
  - intros Hout. unfold Generator.materialize. rewrite HW.
    replace ((0 <? be_value seed) && (be_value seed <? Secp256k1.n))
      with false; [reflexivity|].
    symmetry. apply andb_false_iff.
    destruct Hout as [Hz|Hbig].
    + left. apply Z.ltb_ge. lia.
    + right. apply Z.ltb_ge. exact Hbig.
  - intros [Hpos Hlt]. unfold Generator.materialize. rewrite HW.
    replace ((0 <? be_value seed) && (be_value seed <? Secp256k1.n))
      with true.
    + eexists. split; [reflexivity|]. cbn [Ethers.privateKey].
      split; [reflexivity|].
      change (skipn 2 (js "0x" ++ hex seed)) with (hex seed).
      apply unhex_hex.
    + symmetry. apply andb_true_iff. split; apply Z.ltb_lt; assumption.
  - intros password userSalt applicationSalt e Hseed.
    unfold Generator.generateWalletFromPassword. rewrite Hseed. reflexivity.
Qed.

Lemma scalar_range_enforced_witness :
  (length (repeat x00 32) = 32%nat /\
   (be_value (repeat x00 32) = 0 \/
    Secp256k1.n <= be_value (repeat x00 32)) /\
   Generator.materialize (repeat x00 32) (Int 2)
   = Throw InvalidKeyMaterial) /\
  (length (repeat xff 32) = 32%nat /\
   (be_value (repeat xff 32) = 0 \/
    Secp256k1.n <= be_value (repeat xff 32)) /\
   Generator.materialize (repeat xff 32) (Int 2)
   = Throw InvalidKeyMaterial) /\
  (length (be_bytes 32 1) = 32%nat /\
   0 < be_value (be_bytes 32 1) < Secp256k1.n /\
   exists w,
     Generator.materialize (be_bytes 32 1) (Int 2)
     = Return {| Generator.wallet := w; Generator.actualN := Int 2 |} /\
     Ethers.privateKey w = js "0x" ++ hex (be_bytes 32 1) /\
     unhex (skipn 2 (Ethers.privateKey w)) = Some (be_bytes 32 1)).
Proof.
  assert (L0 : length (repeat x00 32) = 32%nat) by reflexivity.
  assert (R0 : be_value (repeat x00 32) = 0 \/
               Secp256k1.n <= be_value (repeat x00 32))
    by (left; reflexivity).
  assert (L1 : length (repeat xff 32) = 32%nat) by reflexivity.
  assert (R1 : be_value (repeat xff 32) = 0 \/
               Secp256k1.n <= be_value (repeat xff 32))
    by (right; vm_compute; discriminate).
  assert (L2 : length (be_bytes 32 1) = 32%nat) by reflexivity.
  assert (R2 : 0 < be_value (be_bytes 32 1) < Secp256k1.n)
    by (split; reflexivity).
  exact (conj
           (conj L0 (conj R0
              (proj1 (scalar_range_enforced _ (Int 2) L0) R0)))
           (conj
              (conj L1 (conj R1
                 (proj1 (scalar_range_enforced _ (Int 2) L1) R1)))
              (conj L2 (conj R2
                 (proj1 (proj2 (scalar_range_enforced _ (Int 2) L2)) R2))))).
Defined.

(** C8.  In the Ed25519 program, for every derived seed, decoding the
    exported base-58 secret gives back exactly 64 bytes, the seed in the
    first 32 and the Ed25519 public key of the seed in the last 32, and
    the address is the base-58 encoding of those 32 bytes of public key
    alone. *)
Theorem export_round_trip :
  forall (password userSalt applicationSalt : jsstring) (e : integral)
         (seed : bytes),
    SolGenerator.derivedKey password userSalt applicationSalt e
    = Return seed ->
    exists (publicKeyBytes : bytes) (g : SolGenerator.generated),
      Ed25519.getPublicKey seed = Return publicKeyBytes /\
      length publicKeyBytes = 32%nat /\
      SolGenerator.generateWalletFromPassword
        password userSalt applicationSalt e = Return g /\
      Bs58.decode (SolGenerator.privateKey g)
      = Return (seed ++ publicKeyBytes) /\
      length (seed ++ publicKeyBytes) = 64%nat /\
      firstn 32 (seed ++ publicKeyBytes) = seed /\
      skipn 32 (seed ++ publicKeyBytes) = publicKeyBytes /\
      SolGenerator.address g = Bs58.encode publicKeyBytes.
Proof.
  intros password userSalt applicationSalt e seed Hseed.
  assert (Hlen : length seed = 32%nat).
  { rewrite same_derivedKey in Hseed. exact (derivedKey_length _ _ _ _ _ Hseed). }
  set (P := Ed25519.mul (Z.to_pos (Ed25519.secret_scalar seed)) Ed25519.B).
  assert (Hpk : Ed25519.getPublicKey seed = Return (Ed25519.encode P)).
  { unfold Ed25519.getPublicKey. rewrite Hlen. reflexivity. }
  assert (Hpklen : length (Ed25519.encode P) = 32%nat).
  { destruct P as [[[X Y] Zc] T]. apply le_bytes_length. }
  exists (Ed25519.encode P).
  exists {| SolGenerator.privateKey := Bs58.encode (seed ++ Ed25519.encode P);
            SolGenerator.publicKey := Bs58.encode (Ed25519.encode P);
            SolGenerator.address := Bs58.encode (Ed25519.encode P);
            SolGenerator.actualN := SolGenerator.N e |}.
  cbn [SolGenerator.privateKey SolGenerator.address].
  split; [exact Hpk|]. split; [exact Hpklen|].
  split.
  { unfold SolGenerator.generateWalletFromPassword. rewrite Hseed.
    cbn [bind]. unfold SolGenerator.materialize. rewrite Hpk. reflexivity. }
  split; [apply bs58_decode_encode|].
  split; [rewrite length_app, Hlen, Hpklen; reflexivity|].
  split; [|split; [|reflexivity]].
  - rewrite <- Hlen, firstn_app, Nat.sub_diag, firstn_all, firstn_O.
    apply app_nil_r.
  - rewrite <- Hlen, skipn_app, Nat.sub_diag, skipn_all. reflexivity.
Qed.

Lemma scenario_sol_derivedKey :
  SolGenerator.derivedKey (js "correct horse") (js "battery") (js "staple") 1
  = Return scenario_seed.
Proof. rewrite same_derivedKey. exact scenario_derivedKey. Qed.

Lemma export_round_trip_witness :
  SolGenerator.derivedKey (js "correct horse") (js "battery") (js "staple") 1
  = Return scenario_seed /\
  exists (publicKeyBytes : bytes) (g : SolGenerator.generated),
    Ed25519.getPublicKey scenario_seed = Return publicKeyBytes /\
    length publicKeyBytes = 32%nat /\
    SolGenerator.generateWalletFromPassword
      (js "correct horse") (js "battery") (js "staple") 1 = Return g /\
    Bs58.decode (SolGenerator.privateKey g)
    = Return (scenario_seed ++ publicKeyBytes) /\
    length (scenario_seed ++ publicKeyBytes) = 64%nat /\
    firstn 32 (scenario_seed ++ publicKeyBytes) = scenario_seed /\
    skipn 32 (scenario_seed ++ publicKeyBytes) = publicKeyBytes /\
    SolGenerator.address g = Bs58.encode publicKeyBytes.
Proof.
  exact (conj scenario_sol_derivedKey
              (export_round_trip _ _ _ _ _ scenario_sol_derivedKey)).
Defined.

(** C9.  On identical inputs the two programs compute the same combined
    salt and the same derived seed (or fail to derive with the same
    error); they part only where the account is made from the seed. *)
Theorem shared_prefix_agrees :
  forall (password userSalt applicationSalt : jsstring)
         (costParameter : integral),
    Generator.combinedSalt userSalt applicationSalt =
    SolGenerator.combinedSalt userSalt applicationSalt /\
    Generator.derivedKey password userSalt applicationSalt costParameter =
    SolGenerator.derivedKey password userSalt applicationSalt costParameter /\
    Generator.generateWalletFromPassword
      password userSalt applicationSalt costParameter =
    (let* seed := Generator.derivedKey
                    password userSalt applicationSalt costParameter in
     Generator.materialize seed (Generator.N costParameter)) /\
    SolGenerator.generateWalletFromPassword
      password userSalt applicationSalt costParameter =
    (let* seed := Generator.derivedKey
                    password userSalt applicationSalt costParameter in
     SolGenerator.materialize seed (Generator.N costParameter)).
Proof. intros. repeat split. Qed.

(** C10.  For every account that the secp256k1 program produces, putting
    the address in lower case and applying the mixed-case checksum again
    gives the address back.  An account is what the materialization of a
    derived key returns, and the pipeline returns nothing else. *)
Theorem checksum_reproduces_address :
  forall (seed : bytes) (n : number) (g : Generator.generated),
    Generator.materialize seed n = Return g ->
    (let address := Ethers.address (Generator.wallet g) in
     Ethers.getChecksumAddress (toLowerCase address) = address) /\
    (forall (password userSalt applicationSalt : jsstring) (e : integral)
            (g' : Generator.generated),
        Generator.generateWalletFromPassword
          password userSalt applicationSalt e = Return g' ->
        let address' := Ethers.address (Generator.wallet g') in
        Ethers.getChecksumAddress (toLowerCase address') = address').
Proof.
  assert (Account :
            forall seed n g,
              Generator.materialize seed n = Return g ->
              Ethers.getChecksumAddress
                (toLowerCase (Ethers.address (Generator.wallet g)))
              = Ethers.address (Generator.wallet g)).
  { intros seed n g Hg. unfold Generator.materialize, Ethers.Wallet in Hg.
    destruct (Ethers.strip_0x (Generator.privateKey seed)) as [digits|];
      [|discriminate Hg].
    destruct (unhex digits) as [k|]; [|discriminate Hg].
    destruct (negb (length k =? 32)%nat); [discriminate Hg|].
    destruct ((0 <? be_value k) && (be_value k <? Secp256k1.n));
      [|discriminate Hg].
    cbn [bind] in Hg. injection Hg as <-.
    cbn [Generator.wallet Ethers.address]. unfold Ethers.computeAddress.
    apply getChecksumAddress_idem.
    rewrite hex_length, length_skipn, keccak256_length. simpl. lia. }
  intros seed n g Hg. cbv zeta. split; [exact (Account seed n g Hg)|].
  intros password userSalt applicationSalt e g' Hg'.
  unfold Generator.generateWalletFromPassword in Hg'.
  destruct (Generator.derivedKey password userSalt applicationSalt e)
    as [seed'|err]; [|discriminate Hg'].
  exact (Account seed' _ g' Hg').
Qed.

Lemma wallet_of_key_1_materialized :
  Generator.materialize (be_bytes 32 1) (Int 2) =
  Return
    {| Generator.wallet :=
         {| Ethers.privateKey := js "0x" ++ hex (be_bytes 32 1);
            Ethers.publicKey :=
              x04 :: Secp256k1.public_xy (be_value (be_bytes 32 1));
            Ethers.address :=
              Ethers.computeAddress
                (Secp256k1.public_xy (be_value (be_bytes 32 1))) |};
       Generator.actualN := Int 2 |}.
Proof.
  unfold Generator.materialize.
  rewrite (Wallet_of_seed (be_bytes 32 1) eq_refl).
  change (in_scalar_range (be_bytes 32 1)) with true. reflexivity.
Qed.

Lemma checksum_reproduces_address_witness :
  Generator.materialize (be_bytes 32 1) (Int 2) =
  Return
    {| Generator.wallet :=
         {| Ethers.privateKey := js "0x" ++ hex (be_bytes 32 1);
            Ethers.publicKey :=
              x04 :: Secp256k1.public_xy (be_value (be_bytes 32 1));
            Ethers.address :=
              Ethers.computeAddress
                (Secp256k1.public_xy (be_value (be_bytes 32 1))) |};
       Generator.actualN := Int 2 |} /\
  Ethers.getChecksumAddress
    (toLowerCase
       (Ethers.computeAddress
          (Secp256k1.public_xy (be_value (be_bytes 32 1))))) =
  Ethers.computeAddress (Secp256k1.public_xy (be_value (be_bytes 32 1))).
Proof.
  exact (conj wallet_of_key_1_materialized
              (proj1 (checksum_reproduces_address
                        _ _ _ wallet_of_key_1_materialized))).
Defined.

(** ** Properties of the prompt *)

(** X1.  How the typed code units are cut into 'data' events does not
    matter to one prompt: the promise and the terminal come out as if
    everything had arrived in a single event. *)
Theorem getPassword_chunks :
  forall (prompt : jsstring) (events : list jsstring)
         (t : GetPassword.terminal),
    outcome (GetPassword.getPassword prompt events t) =
    outcome (GetPassword.getPassword prompt [concat events] t).
Proof.
  intros prompt events t. rewrite !getPassword_keys.
  change (concat [concat events]) with (concat events ++ []).
  rewrite app_nil_r. reflexivity.
Qed.

(** X2.  What follows Enter in the same 'data' event is dropped: the
    prompt returns the same promise, the same terminal and the same
    events still to come as if the event had ended with Enter. *)
Theorem getPassword_drops_after_enter :
  forall (prompt a x : jsstring) (ch : Z) (later : list jsstring)
         (t : GetPassword.terminal),
    is_enter ch = true ->
    GetPassword.getPassword prompt ((a ++ ch :: x) :: later) t =
    GetPassword.getPassword prompt ((a ++ [ch]) :: later) t.
Proof.
  intros prompt a x ch later t Hch.
  rewrite !getPassword_first_event, !keys_app.
  destruct (keys a _ _) as [[c'|pw|code] t']; try reflexivity.
  cbn [keys]. rewrite Hch. reflexivity.
Qed.

Lemma getPassword_drops_after_enter_witness :
  is_enter 13 = true /\
  GetPassword.getPassword (js "Enter password: ")
    [js "hunter2" ++ 13 :: js "battery"] fresh_terminal =
  GetPassword.getPassword (js "Enter password: ")
    [js "hunter2" ++ [13]] fresh_terminal.
Proof.
  assert (H : is_enter 13 = true) by reflexivity.
  split; [exact H|].
  exact (getPassword_drops_after_enter (js "Enter password: ") (js "hunter2")
           (js "battery") 13 [] fresh_terminal H).
Defined.

Lemma keys_no_enter (a : jsstring) :
  Forall (fun ch => is_enter ch = false) a ->
  forall c t pw, fst (keys a c t) <> GetPassword.Resolve pw.
Proof.
  induction 1 as [|ch a Hch Ha IH]; intros c t pw; cbn [keys].
  - discriminate.
  - rewrite Hch. destruct (ch =? 3); [discriminate|].
    destruct ((ch =? 127) || (ch =? 8)).
    + destruct (GetPassword.password c); apply IH.
    + destruct (ch <? 32); apply IH.
Qed.

(** X3.  Ctrl+C before Enter ends the process with status 130, whatever
    was typed before it and whatever follows it. *)
Theorem getPassword_ctrl_c :
  forall (prompt a x : jsstring) (later : list jsstring)
         (t : GetPassword.terminal),
    Forall (fun ch => is_enter ch = false) a ->
    fst (outcome (GetPassword.getPassword prompt ((a ++ 3 :: x) :: later) t))
    = GetPassword.ProcessExit 130.
Proof.
  intros prompt a x later t Ha.
  rewrite getPassword_keys.
  change (concat ((a ++ 3 :: x) :: later))
    with ((a ++ 3 :: x) ++ concat later).
  rewrite <- app_assoc, keys_app.
  pose proof (keys_no_enter a Ha (opening_closure t)
                (opening_terminal prompt t)) as Hno.
  destruct (keys a _ _) as [[c'|pw|code] t'] eqn:E.
  - reflexivity.
  - exfalso. exact (Hno pw eq_refl).
  - rewrite (keys_exit_code _ _ _ _ _ E). reflexivity.
Qed.

Lemma getPassword_ctrl_c_witness :
  Forall (fun ch => is_enter ch = false) (js "hunt") /\
  fst (outcome (GetPassword.getPassword (js "Enter password: ")
                  [js "hunt" ++ 3 :: js "er2"] fresh_terminal))
  = GetPassword.ProcessExit 130.
Proof.
  assert (H : Forall (fun ch => is_enter ch = false) (js "hunt"))
    by (repeat constructor).
  split; [exact H|].
  exact (getPassword_ctrl_c (js "Enter password: ") (js "hunt") (js "er2")
           [] fresh_terminal H).
Defined.

(** X4.  Typing printable code units, then backspaces, then printable
    code units and Enter resolves the prompt with the first run less as
    many of its last code units as there were backspaces (all of it when
    there were more), followed by the second run. *)
Theorem getPassword_typed :
  forall (prompt s s' : jsstring) (k : nat) (later : list jsstring)
         (t : GetPassword.terminal),
    Forall (fun ch => printable ch = true) s ->
    Forall (fun ch => printable ch = true) s' ->
    exists t',
      GetPassword.getPassword prompt
        ((s ++ repeat 127 k ++ s' ++ [13]) :: later) t =
      (GetPassword.Resolve (firstn (length s - k) s ++ s'), t', later).
Proof.
  intros prompt s s' k later t Hs Hs'.
  rewrite getPassword_first_event.
  destruct (keys_typed s (repeat 127 k ++ s' ++ [13]) Hs
              (opening_closure t) (opening_terminal prompt t)) as [t1 ->].
  destruct (keys_backspaces k (s' ++ [13])
              (GetPassword.set_password
                 (GetPassword.password (opening_closure t) ++ s)
                 (opening_closure t)) t1) as [t2 ->].
  match goal with
  | |- context [keys (s' ++ [13]) ?c t2] =>
      destruct (keys_typed s' [13] Hs' c t2) as [t3 ->]
  end.
  cbn [keys is_enter Z.eqb orb GetPassword.password GetPassword.set_password
       opening_closure app].
  eexists. reflexivity.
Qed.

Lemma getPassword_typed_witness :
  Forall (fun ch => printable ch = true) (js "hunter3") /\
  Forall (fun ch => printable ch = true) (js "2") /\
  exists t',
    GetPassword.getPassword (js "Enter password: ")
      [js "hunter3" ++ repeat 127 1 ++ js "2" ++ [13]] fresh_terminal =
    (GetPassword.Resolve (js "hunter2"), t', []).
Proof.
  assert (H1 : Forall (fun ch => printable ch = true) (js "hunter3"))
    by (repeat constructor).
  assert (H2 : Forall (fun ch => printable ch = true) (js "2"))
    by (repeat constructor).
  split; [exact H1|]. split; [exact H2|].
  exact (getPassword_typed (js "Enter password: ") (js "hunter3") (js "2") 1
           [] fresh_terminal H1 H2).
Defined.

(** X5.  A password that a prompt holds or resolves with has no control
    character in it: every code unit is 32 or more and none is 127. *)
Theorem getPassword_alphabet :
  forall (prompt : jsstring) (events : list jsstring)
         (t : GetPassword.terminal) (pw : jsstring),
    password_of (fst (outcome (GetPassword.getPassword prompt events t)))
    = Some pw ->
    Forall (fun ch => printable ch = true) pw.
Proof.
  intros prompt events t pw. rewrite getPassword_keys.
  apply keys_printable. constructor.
Qed.

Lemma getPassword_alphabet_witness :
  password_of
    (fst (outcome (GetPassword.getPassword (js "Enter password: ")
                     [[104; 27; 91; 65; 9; 105; 13]] fresh_terminal)))
  = Some [104; 91; 65; 105] /\
  Forall (fun ch => printable ch = true) [104; 91; 65; 105].
Proof.
  assert (H : password_of
                (fst (outcome (GetPassword.getPassword (js "Enter password: ")
                                 [[104; 27; 91; 65; 9; 105; 13]]
                                 fresh_terminal)))
              = Some [104; 91; 65; 105]) by reflexivity.
  split; [exact H|].
  exact (getPassword_alphabet (js "Enter password: ")
           [[104; 27; 91; 65; 9; 105; 13]] fresh_terminal
           [104; 91; 65; 105] H).
Defined.

(** X6.  The echo of a prompt is made of asterisks, blanks and
    backspaces, after the prompt text and before the line feed that ends
    it, and it leaves the cursor as many columns past the prompt text as
    the password has code units. *)
Theorem getPassword_echo :
  forall (prompt : jsstring) (events : list jsstring)
         (t : GetPassword.terminal),
    let '(p, t') := outcome (GetPassword.getPassword prompt events t) in
    exists echo,
      GetPassword.stdout t' =
        GetPassword.stdout t ++ prompt ++ echo
        ++ (if settled p then [10] else []) /\
      Forall (fun ch => In ch [42; 8; 32]) echo /\
      forall pw, password_of p = Some pw ->
                 column echo = Z.of_nat (length pw).
Proof.
  intros prompt events t. rewrite getPassword_keys.
  pose proof (keys_echo (concat events) (opening_closure t)
                (opening_terminal prompt t)) as H.
  destruct (keys _ _ _) as [p t'].
  destruct H as [echo [Hout [Hall Hcol]]].
  exists echo. split; [|split].
  - rewrite Hout. cbn [GetPassword.stdout opening_terminal].
    rewrite <- !app_assoc. reflexivity.
  - exact Hall.
  - intros pw Hpw. rewrite (Hcol pw Hpw). cbn. lia.
Qed.

(** X7.  A control character other than Enter, Ctrl+C and backspace is
    passed over, ESC included: the characters that follow an ESC are read
    as typed, the branch that would consume an escape sequence is never
    reached. *)
Theorem getPassword_passes_over :
  forall (prompt a b : jsstring) (ch : Z) (later : list jsstring)
         (t : GetPassword.terminal),
    passed_over ch = true ->
    GetPassword.getPassword prompt ((a ++ ch :: b) :: later) t =
    GetPassword.getPassword prompt ((a ++ b) :: later) t.
Proof.
  intros prompt a b ch later t Hch.
  rewrite !getPassword_first_event, !keys_app.
  destruct (keys a _ _) as [[c'|pw|code] t']; try reflexivity.
  unfold passed_over in Hch. apply andb_true_iff in Hch.
  destruct Hch as [Hlt Hnot]. apply negb_true_iff in Hnot.
  cbn [existsb] in Hnot. rewrite !orb_false_iff in Hnot.
  destruct Hnot as [H3 [H8 [H10 [H13 _]]]].
  apply Z.ltb_lt in Hlt.
  cbn [keys]. unfold is_enter. rewrite H13, H10, H3, H8.
  replace (ch =? 127) with false by (symmetry; apply Z.eqb_neq; lia).
  replace (ch <? 32) with true by (symmetry; apply Z.ltb_lt; lia).
  reflexivity.
Qed.

Lemma getPassword_passes_over_witness :
  passed_over 27 = true /\
  GetPassword.getPassword (js "Enter password: ")
    [js "hunter2" ++ 27 :: js "[A" ++ [13]] fresh_terminal =
  GetPassword.getPassword (js "Enter password: ")
    [js "hunter2" ++ js "[A" ++ [13]] fresh_terminal.
Proof.
  assert (H : passed_over 27 = true) by reflexivity.
  split; [exact H|].
  exact (getPassword_passes_over (js "Enter password: ") (js "hunter2")
           (js "[A" ++ [13]) 27 [] fresh_terminal H).
Defined.

(** X8.  While a prompt waits, stdin is in raw mode, flowing and listened
    to; once it has settled, by Enter or by Ctrl+C, raw mode and pause
    are as they were before the prompt and the listener is gone. *)
Theorem getPassword_restores_terminal :
  forall (prompt : jsstring) (events : list jsstring)
         (t : GetPassword.terminal),
    let '(p, t') := outcome (GetPassword.getPassword prompt events t) in
    if settled p
    then GetPassword.isRaw t' = GetPassword.isRaw t /\
         GetPassword.isPaused t' = GetPassword.isPaused t /\
         GetPassword.listening t' = false
    else GetPassword.isRaw t' = true /\
         GetPassword.isPaused t' = false /\
         GetPassword.listening t' = true.
Proof.
  intros prompt events t. rewrite getPassword_keys.
  pose proof (keys_flags (concat events) (opening_closure t)
                (opening_terminal prompt t)) as H.
  destruct (keys _ _ _) as [p t'].
  destruct (settled p).
  - destruct H as [H1 [H2 H3]]. split; [exact H1|]. split; [|exact H3].
    rewrite H2. cbn. destruct (GetPassword.isPaused t); reflexivity.
  - exact H.
Qed.

(** ** [main] with its prompts *)

Lemma deliver_takes_an_event (events : list jsstring) :
  forall c t p t' later,
    GetPassword.deliver events c t = (p, t', later) ->
    settled p = true -> (length later < length events)%nat.
Proof.
  induction events as [|data more IH]; intros c t p t' later.
  - cbn. intros H. injection H as <- _ _. discriminate.
  - cbn [GetPassword.deliver].
    destruct (GetPassword.onData data c t) as [[c'|pw|code] t1].
    + intros H Hs. specialize (IH _ _ _ _ _ H Hs). cbn [length]. lia.
    + intros H _. injection H as _ _ <-. cbn [length]. lia.
    + intros H _. injection H as _ _ <-. cbn [length]. lia.
Qed.

Lemma getPassword_takes_an_event (prompt : jsstring) (events : list jsstring)
      (t : GetPassword.terminal) (pw : jsstring) (t' : GetPassword.terminal)
      (later : list jsstring) :
  GetPassword.getPassword prompt events t = (GetPassword.Resolve pw, t', later)
  -> (length later < length events)%nat.
Proof.
  rewrite getPassword_opening. intros H.
  apply (deliver_takes_an_event _ _ _ _ _ _ H). reflexivity.
Qed.

Lemma getPassword_exit_code (prompt : jsstring) (events : list jsstring)
      (t : GetPassword.terminal) (code : Z) (t' : GetPassword.terminal)
      (later : list jsstring) :
  GetPassword.getPassword prompt events t =
  (GetPassword.ProcessExit code, t', later) -> code = 130.
Proof.
  intros H.
  pose proof (getPassword_keys prompt events t) as K.
  rewrite H in K. cbn [outcome fst] in K. symmetry in K.
  exact (keys_exit_code _ _ _ _ _ K).
Qed.

Lemma getPassword_resolved_alphabet (prompt : jsstring)
      (events : list jsstring) (t : GetPassword.terminal) (pw : jsstring)
      (t' : GetPassword.terminal) (later : list jsstring) :
  GetPassword.getPassword prompt events t = (GetPassword.Resolve pw, t', later)
  -> Forall (fun ch => printable ch = true) pw.
Proof.
  intros H.
  pose proof (getPassword_keys prompt events t) as K.
  rewrite H in K. cbn [outcome fst] in K.
  apply (keys_printable (concat events) (opening_closure t)
           (opening_terminal prompt t) pw); [constructor|].
  rewrite <- K. reflexivity.
Qed.

(** X9.  Each prompt takes at least one 'data' event of its own: with
    fewer than three events [main] never gets to the cost parameter, the
    process waits for more input or has been ended by Ctrl+C.  Pasting
    the three secrets at once answers the first prompt only. *)
Theorem prompts_need_three_events :
  forall (A : Type)
         (main : jsstring -> jsstring -> jsstring -> jsstring -> run A)
         (events : list jsstring) (answer : jsstring)
         (t : GetPassword.terminal),
    (length events < 3)%nat ->
    main_with_prompts main events answer t = Waits \/
    main_with_prompts main events answer t = Ends (interrupted 130).
Proof.
  intros A main events answer t Hlen. unfold main_with_prompts.
  destruct (GetPassword.getPassword (js "Enter password: ") events t)
    as [[[c1|password|code1] t1] events1] eqn:E1.
  - left. reflexivity.
  - apply getPassword_takes_an_event in E1.
    destruct (GetPassword.getPassword _ events1 t1)
      as [[[c2|userSalt|code2] t2] events2] eqn:E2.
    + left. reflexivity.
    + apply getPassword_takes_an_event in E2.
      destruct events2 as [|e2 events2]; [|cbn [length] in E2; lia].
      left. reflexivity.
    + right. rewrite (getPassword_exit_code _ _ _ _ _ _ E2). reflexivity.
  - right. rewrite (getPassword_exit_code _ _ _ _ _ _ E1). reflexivity.
Qed.

Lemma prompts_need_three_events_witness :
  Nat.lt (length [js "hunter2" ++ [13] ++ js "battery" ++ [13]
                  ++ js "staple" ++ [13]]) 3 /\
  (main_with_prompts Generator.main
     [js "hunter2" ++ [13] ++ js "battery" ++ [13] ++ js "staple" ++ [13]]
     (js "14") fresh_terminal = Waits \/
   main_with_prompts Generator.main
     [js "hunter2" ++ [13] ++ js "battery" ++ [13] ++ js "staple" ++ [13]]
     (js "14") fresh_terminal = Ends (interrupted 130)).
Proof.
  assert (H : Nat.lt (length [js "hunter2" ++ [13] ++ js "battery" ++ [13]
                              ++ js "staple" ++ [13]]) 3)
    by (cbn [length]; unfold Nat.lt; lia).
  split; [exact H|].
  exact (prompts_need_three_events _ Generator.main _ (js "14")
           fresh_terminal H).
Defined.

(** X10.  However the input arrives, a run that has ended was either
    interrupted at a prompt, with status 130 and nothing reported or
    written, or is what [main] makes of three secrets without control
    characters. *)
Theorem prompts_outcomes :
  forall (A : Type)
         (main : jsstring -> jsstring -> jsstring -> jsstring -> run A)
         (events : list jsstring) (answer : jsstring)
         (t : GetPassword.terminal) (r : run A),
    main_with_prompts main events answer t = Ends r ->
    r = {| exit_code := 130; stderr := None; reported := None;
           written := None |} \/
    exists password userSalt applicationSalt,
      Forall (fun ch => printable ch = true) password /\
      Forall (fun ch => printable ch = true) userSalt /\
      Forall (fun ch => printable ch = true) applicationSalt /\
      r = main password userSalt applicationSalt answer.
Proof.
  intros A main events answer t r. unfold main_with_prompts.
  destruct (GetPassword.getPassword (js "Enter password: ") events t)
    as [[[c1|password|code1] t1] events1] eqn:E1.
  - discriminate.
  - destruct (GetPassword.getPassword _ events1 t1)
      as [[[c2|userSalt|code2] t2] events2] eqn:E2.
    + discriminate.
    + destruct (GetPassword.getPassword _ events2 t2)
        as [[[c3|applicationSalt|code3] t3] events3] eqn:E3.
      * discriminate.
      * intros H. injection H as <-. right.
        exists password, userSalt, applicationSalt.
        split; [exact (getPassword_resolved_alphabet _ _ _ _ _ _ E1)|].
        split; [exact (getPassword_resolved_alphabet _ _ _ _ _ _ E2)|].
        split; [exact (getPassword_resolved_alphabet _ _ _ _ _ _ E3)|].
        reflexivity.
      * intros H. injection H as <-. left.
        rewrite (getPassword_exit_code _ _ _ _ _ _ E3). reflexivity.
    + intros H. injection H as <-. left.
      rewrite (getPassword_exit_code _ _ _ _ _ _ E2). reflexivity.
  - intros H. injection H as <-. left.
    rewrite (getPassword_exit_code _ _ _ _ _ _ E1). reflexivity.
Qed.

Lemma prompts_outcomes_witness :
  main_with_prompts Generator.main
    [js "hunter2" ++ [13]; js "battery" ++ [13]; js "sta" ++ [3]]
    (js "14") fresh_terminal = Ends (interrupted 130) /\
  (@interrupted Generator.generated 130 =
     {| exit_code := 130; stderr := None; reported := None;
        written := None |} \/
   exists password userSalt applicationSalt,
     Forall (fun ch => printable ch = true) password /\
     Forall (fun ch => printable ch = true) userSalt /\
     Forall (fun ch => printable ch = true) applicationSalt /\
     interrupted 130 =
     Generator.main password userSalt applicationSalt (js "14")).
Proof.
  assert (H : main_with_prompts Generator.main
                [js "hunter2" ++ [13]; js "battery" ++ [13];
                 js "sta" ++ [3]]
                (js "14") fresh_terminal = Ends (interrupted 130))
    by reflexivity.
  split; [exact H|].
  exact (prompts_outcomes _ Generator.main _ (js "14") fresh_terminal _ H).
Defined.

(* ===================================================================== *)
(** * What [main] does with its four inputs *)
(* ===================================================================== *)





(** X12.  When the password, the user salt or the application salt is
    empty no account is derived, whatever the cost parameter: the run
    ends with status 1, with the diagnostic of the number when the typed
    number is refused and with 'Password, user salt, and application salt
    are all required' otherwise. *)
Theorem main_requires_all_three :
  forall password userSalt applicationSalt answer : jsstring,
    password = [] \/ userSalt = [] \/ applicationSalt = [] ->
    let d := match Generator.getNumber answer with
             | Exit _ _ => valid_positive_number
             | Resolved _ => all_required
             end in
    Generator.main password userSalt applicationSalt answer = fatal 1 d /\
    SolGenerator.main password userSalt applicationSalt answer = fatal 1 d.
Proof.
  intros password userSalt applicationSalt answer Hempty. cbv zeta.
  unfold Generator.main, SolGenerator.main.
  change (SolGenerator.getNumber answer) with (Generator.getNumber answer).
  destruct (Generator.getNumber answer) as [e|code d] eqn:E.
  - assert (Hb : is_empty password || is_empty userSalt
                 || is_empty applicationSalt = true).
    { destruct Hempty as [-> | [-> | ->]]; cbn;
        rewrite ?orb_true_r; reflexivity. }
    rewrite Hb. split; reflexivity.
  - destruct (getNumber_exit _ _ _ E) as [-> ->]. split; reflexivity.
Qed.

Lemma main_requires_all_three_witness :
  (js "hunter2" = [] \/ @nil Z = [] \/ js "staple" = []) /\
  Generator.main (js "hunter2") [] (js "staple") (js "14")
  = fatal 1 all_required /\
  SolGenerator.main (js "hunter2") [] (js "staple") (js "14")
  = fatal 1 all_required.
Proof.
  assert (H : js "hunter2" = [] \/ @nil Z = [] \/ js "staple" = [])
    by (right; left; reflexivity).
  split; [exact H|].
  exact (main_requires_all_three (js "hunter2") [] (js "staple") (js "14") H).
Defined.


(** X14.  What a successful run of the Ed25519 program leaves: the
    account of the scrypt seed of the inputs, with the cost factor 2^e
    that was typed, and in the file tmp-sol.log the base-58 string of the
    seed followed by the public key, from which the seed is read back. *)
Theorem sol_main_success :
  forall (password userSalt applicationSalt answer : jsstring) (e : Z),
    password <> [] -> userSalt <> [] -> applicationSalt <> [] ->
    SolGenerator.getNumber answer = Resolved e -> e <= 14 ->
    let seed :=
      Scrypt.scrypt (utf8 password)
        (SolGenerator.combinedSalt userSalt applicationSalt) (2 ^ e) 8 1 32 in
    exists publicKeyBytes,
      Ed25519.getPublicKey seed = Return publicKeyBytes /\
      SolGenerator.main password userSalt applicationSalt answer =
      {| exit_code := 0; stderr := None;
         reported :=
           Some {| SolGenerator.privateKey :=
                     Bs58.encode (seed ++ publicKeyBytes);
                   SolGenerator.publicKey := Bs58.encode publicKeyBytes;
                   SolGenerator.address := Bs58.encode publicKeyBytes;
                   SolGenerator.actualN := Int (2 ^ e) |};
         written := Some (Bs58.encode (seed ++ publicKeyBytes)) |} /\
      rmap (firstn 32) (Bs58.decode (Bs58.encode (seed ++ publicKeyBytes)))
      = Return seed.
Proof.
  intros password userSalt applicationSalt answer e H1 H2 H3 He Hle.
  cbv zeta.
  pose proof (getNumber_resolved_finite _ _ He) as Hpos.
  assert (Hr : 1 <= e <= 14) by lia.
  pose proof (derivedKey_valid password userSalt applicationSalt e Hr) as Hd.
  pose proof (derivedKey_length _ _ _ _ _ Hd) as Hlen.
  destruct (sol_materialize _ (SolGenerator.N e) Hlen) as [pk [Hpk Hm]].
  exists pk. split; [exact Hpk|]. split.
  - unfold SolGenerator.main. rewrite He.
    rewrite (proj2 (none_empty _ _ _) (conj H1 (conj H2 H3))).
    unfold SolGenerator.generateWalletFromPassword.
    rewrite same_derivedKey, Hd. cbn [bind].
    change (SolGenerator.combinedSalt userSalt applicationSalt)
      with (Generator.combinedSalt userSalt applicationSalt).
    rewrite Hm. cbn [SolGenerator.privateKey].
    change (SolGenerator.N e) with (Generator.N e).
    rewrite N_of_exponent by lia. reflexivity.
  - rewrite bs58_decode_encode. cbn [rmap].
    change (SolGenerator.combinedSalt userSalt applicationSalt)
      with (Generator.combinedSalt userSalt applicationSalt).
    rewrite firstn_app, Hlen, Nat.sub_diag, firstn_O, app_nil_r.
    rewrite firstn_all2 by lia. reflexivity.
Qed.

Lemma sol_main_success_witness :
  js "correct horse" <> [] /\ js "battery" <> [] /\ js "staple" <> [] /\
  SolGenerator.getNumber (js "1") = Resolved 1 /\ 1 <= 14 /\
  let seed :=
    Scrypt.scrypt (utf8 (js "correct horse"))
      (SolGenerator.combinedSalt (js "battery") (js "staple")) (2 ^ 1) 8 1 32 in
  exists publicKeyBytes,
    Ed25519.getPublicKey seed = Return publicKeyBytes /\
    SolGenerator.main (js "correct horse") (js "battery") (js "staple")
      (js "1") =
    {| exit_code := 0; stderr := None;
       reported :=
         Some {| SolGenerator.privateKey :=
                   Bs58.encode (seed ++ publicKeyBytes);
                 SolGenerator.publicKey := Bs58.encode publicKeyBytes;
                 SolGenerator.address := Bs58.encode publicKeyBytes;
                 SolGenerator.actualN := Int (2 ^ 1) |};
       written := Some (Bs58.encode (seed ++ publicKeyBytes)) |} /\
    rmap (firstn 32) (Bs58.decode (Bs58.encode (seed ++ publicKeyBytes)))
    = Return seed.
Proof.
  assert (H1 : js "correct horse" <> []) by discriminate.
  assert (H2 : js "battery" <> []) by discriminate.
  assert (H3 : js "staple" <> []) by discriminate.
  assert (H4 : SolGenerator.getNumber (js "1") = Resolved 1) by reflexivity.
  assert (H5 : 1 <= 14) by lia.
  exact (conj H1 (conj H2 (conj H3 (conj H4 (conj H5
           (sol_main_success (js "correct horse") (js "battery")
              (js "staple") (js "1") 1 H1 H2 H3 H4 H5)))))).
Defined.

(** X15.  What the secp256k1 program does once its inputs are accepted
    (three secrets that are not empty, a number read as an integer up to
    14): when the scrypt seed is a scalar in range the run ends with
    status 0 and the file tmp.log holds 0x and the 64 hexadecimal digits
    of the whole seed, which is read back from it; otherwise the run ends
    with status 1 and nothing is written. *)
Theorem evm_main_success :
  forall (password userSalt applicationSalt answer : jsstring) (e : Z),
    password <> [] -> userSalt <> [] -> applicationSalt <> [] ->
    Generator.getNumber answer = Resolved e -> e <= 14 ->
    let seed :=
      Scrypt.scrypt (utf8 password)
        (Generator.combinedSalt userSalt applicationSalt) (2 ^ e) 8 1 32 in
    let r := Generator.main password userSalt applicationSalt answer in
    if in_scalar_range seed
    then exit_code r = 0 /\
         written r = Some (js "0x" ++ hex seed) /\
         unhex (slice (js "0x" ++ hex seed) 2 None) = Some seed /\
         option_map Generator.actualN (reported r) = Some (Int (2 ^ e))
    else r = fatal 1 (caught InvalidKeyMaterial).
Proof.
  intros password userSalt applicationSalt answer e H1 H2 H3 He Hle.
  cbv zeta.
  pose proof (getNumber_resolved_finite _ _ He) as Hpos.
  assert (Hr : 1 <= e <= 14) by lia.
  pose proof (derivedKey_valid password userSalt applicationSalt e Hr) as Hd.
  pose proof (derivedKey_length _ _ _ _ _ Hd) as Hlen.
  unfold Generator.main. rewrite He.
  rewrite (proj2 (none_empty _ _ _) (conj H1 (conj H2 H3))).
  unfold Generator.generateWalletFromPassword. rewrite Hd. cbn [bind].
  unfold Generator.materialize. rewrite (Wallet_of_seed _ Hlen).
  destruct (in_scalar_range _); cbn [bind]; [|reflexivity].
  cbn [exit_code written reported option_map Generator.actualN
       Generator.wallet Ethers.privateKey].
  split; [reflexivity|]. split; [reflexivity|]. split.
  - change (js "0x" ++ ?h) with (48 :: 120 :: h).
    rewrite (slice_from 2) by (cbn [length]; lia).
    cbn [skipn]. apply unhex_hex.
  - rewrite N_of_exponent by lia. reflexivity.
Qed.

Lemma evm_main_success_witness :
  js "correct horse" <> [] /\ js "battery" <> [] /\ js "staple" <> [] /\
  Generator.getNumber (js "1") = Resolved 1 /\ 1 <= 14 /\
  let seed :=
    Scrypt.scrypt (utf8 (js "correct horse"))
      (Generator.combinedSalt (js "battery") (js "staple")) (2 ^ 1) 8 1 32 in
  let r := Generator.main (js "correct horse") (js "battery") (js "staple")
             (js "1") in
  if in_scalar_range seed
  then exit_code r = 0 /\
       written r = Some (js "0x" ++ hex seed) /\
       unhex (slice (js "0x" ++ hex seed) 2 None) = Some seed /\
       option_map Generator.actualN (reported r) = Some (Int (2 ^ 1))
  else r = fatal 1 (caught InvalidKeyMaterial).
Proof.
  assert (H1 : js "correct horse" <> []) by discriminate.
  assert (H2 : js "battery" <> []) by discriminate.
  assert (H3 : js "staple" <> []) by discriminate.
  assert (H4 : Generator.getNumber (js "1") = Resolved 1) by reflexivity.
  assert (H5 : 1 <= 14) by lia.
  exact (conj H1 (conj H2 (conj H3 (conj H4 (conj H5
           (evm_main_success (js "correct horse") (js "battery")
              (js "staple") (js "1") 1 H1 H2 H3 H4 H5)))))).
Defined.


Lemma private_key_line_of_seed (seed : bytes) :
  length seed = 32%nat ->
  private_key_line (js "0x" ++ hex seed) =
  js "Private Key: 0x" ++ firstn 1 (hex seed) ++ js "..."
  ++ skipn 61 (hex seed) ++ [10].
Proof.
  intros Hlen. unfold private_key_line.
  assert (Hhex : length (hex seed) = 64%nat) by (rewrite hex_length; lia).
  change (js "0x" ++ hex seed) with (48 :: 120 :: hex seed).
  rewrite (slice_first _ 3).
  rewrite (slice_last _ 3) by lia.
  cbn [length]. rewrite Hhex.
  change (S (S 64) - 3)%nat with 63%nat.
  change (skipn 63 (48 :: 120 :: hex seed)) with (skipn 61 (hex seed)).
  change (firstn 3 (48 :: 120 :: hex seed))
    with (48 :: 120 :: firstn 1 (hex seed)).
  rewrite <- !app_assoc. reflexivity.
Qed.

(** X17.  The line of the report that shows the private key of a
    secp256k1 account gives 0x, the first hexadecimal digit of the seed,
    three dots and its last three hexadecimal digits: sixteen bits of the
    key are on the console. *)
Theorem private_key_line_shows :
  forall (seed : bytes) (n : number) (g : Generator.generated),
    length seed = 32%nat ->
    Generator.materialize seed n = Return g ->
    private_key_line (Ethers.privateKey (Generator.wallet g)) =
    js "Private Key: 0x" ++ firstn 1 (hex seed) ++ js "..."
    ++ skipn 61 (hex seed) ++ [10].
Proof.
  intros seed n g Hlen. unfold Generator.materialize.
  rewrite (Wallet_of_seed _ Hlen).
  destruct (in_scalar_range seed); cbn [bind]; [|discriminate].
  intros Hg. injection Hg as <-.
  cbn [Generator.wallet Ethers.privateKey].
  apply private_key_line_of_seed. exact Hlen.
Qed.

Lemma private_key_line_shows_witness :
  length (be_bytes 32 1) = 32%nat /\
  Generator.materialize (be_bytes 32 1) (Int 2) =
  Return
    {| Generator.wallet :=
         {| Ethers.privateKey := js "0x" ++ hex (be_bytes 32 1);
            Ethers.publicKey :=
              x04 :: Secp256k1.public_xy (be_value (be_bytes 32 1));
            Ethers.address :=
              Ethers.computeAddress
                (Secp256k1.public_xy (be_value (be_bytes 32 1))) |};
       Generator.actualN := Int 2 |} /\
  private_key_line (js "0x" ++ hex (be_bytes 32 1)) =
  js "Private Key: 0x" ++ firstn 1 (hex (be_bytes 32 1)) ++ js "..."
  ++ skipn 61 (hex (be_bytes 32 1)) ++ [10].
Proof.
  assert (H : length (be_bytes 32 1) = 32%nat) by reflexivity.
  exact (conj H (conj wallet_of_key_1_materialized
           (private_key_line_shows _ _ _ H wallet_of_key_1_materialized))).
Defined.

Example private_key_line_of_key_1 :
  private_key_line (Generator.privateKey (be_bytes 32 1)) =
  js "Private Key: 0x0...001" ++ [10].
Proof. reflexivity. Qed.

Lemma trim_white_space (ws1 ws2 s : jsstring) :
  Forall (fun c => is_whitespace c = true) ws1 ->
  Forall (fun c => is_whitespace c = true) ws2 ->
  trim (ws1 ++ s ++ ws2) = trim s.
Proof.
  intros H1 H2. unfold trim. rewrite (drop_while_all _ _ _ H1). f_equal.
  induction s as [|c s IH].
  - cbn [app]. rewrite <- (app_nil_r ws2), (drop_while_all _ _ _ H2).
    reflexivity.
  - cbn [app drop_while]. destruct (is_whitespace c); [exact IH|].
    change (c :: s ++ ws2) with ((c :: s) ++ ws2).
    rewrite rev_app_distr. apply drop_while_all.
    apply Forall_rev. exact H2.
Qed.

(** X18.  White space before and after the typed number does not change
    what [getNumber] makes of the line, in either program. *)
Theorem getNumber_ignores_white_space :
  forall ws1 ws2 answer : jsstring,
    Forall (fun c => is_whitespace c = true) ws1 ->
    Forall (fun c => is_whitespace c = true) ws2 ->
    Generator.getNumber (ws1 ++ answer ++ ws2) = Generator.getNumber answer /\
    SolGenerator.getNumber (ws1 ++ answer ++ ws2)
    = SolGenerator.getNumber answer.
Proof.
  intros ws1 ws2 answer H1 H2.
  unfold Generator.getNumber, SolGenerator.getNumber.
  rewrite (trim_white_space _ _ _ H1 H2). split; reflexivity.
Qed.

Lemma getNumber_ignores_white_space_witness :
  Forall (fun c => is_whitespace c = true) [32; 9] /\
  Forall (fun c => is_whitespace c = true) [32; 13] /\
  Generator.getNumber ([32; 9] ++ js "14 or so" ++ [32; 13])
  = Generator.getNumber (js "14 or so") /\
  SolGenerator.getNumber ([32; 9] ++ js "14 or so" ++ [32; 13])
  = SolGenerator.getNumber (js "14 or so").
Proof.
  assert (H1 : Forall (fun c => is_whitespace c = true) [32; 9])
    by (repeat constructor).
  assert (H2 : Forall (fun c => is_whitespace c = true) [32; 13])
    by (repeat constructor).
  split; [exact H1|]. split; [exact H2|].
  exact (getNumber_ignores_white_space [32; 9] [32; 13] (js "14 or so")
           H1 H2).
Defined.

Lemma utf8_high_last (s : jsstring) (h : Z) :
  is_high_surrogate h = true -> utf8 (s ++ [h]) = utf8 s ++ utf8_point 0xFFFD.
Proof.
  intros Hh.
  assert (Hlow : is_low_surrogate h = false).
  { unfold is_high_surrogate in Hh. unfold is_low_surrogate.
    apply andb_true_iff in Hh. destruct Hh as [_ Hh]. apply Z.leb_le in Hh.
    replace (56320 <=? h) with false by (symmetry; apply Z.leb_gt; lia).
    reflexivity. }
  rewrite utf8_app.
  - cbn [utf8]. rewrite Hh. reflexivity.
  - unfold splits_pair. rewrite Hlow. apply andb_false_r.
Qed.

(** X19.  A password is hashed as UTF-8, in which half a surrogate pair
    has no encoding of its own: two passwords that differ only in the
    high surrogate they end with, as the prompt leaves them when a
    backspace follows a character outside the basic plane, derive the
    same key and the same account, in both programs. *)
Theorem half_character_passwords_agree :
  forall (password userSalt applicationSalt : jsstring) (h h' : Z)
         (e : integral),
    is_high_surrogate h = true -> is_high_surrogate h' = true ->
    Generator.derivedKey (password ++ [h]) userSalt applicationSalt e =
    Generator.derivedKey (password ++ [h']) userSalt applicationSalt e /\
    Generator.generateWalletFromPassword
      (password ++ [h]) userSalt applicationSalt e =
    Generator.generateWalletFromPassword
      (password ++ [h']) userSalt applicationSalt e /\
    SolGenerator.generateWalletFromPassword
      (password ++ [h]) userSalt applicationSalt e =
    SolGenerator.generateWalletFromPassword
      (password ++ [h']) userSalt applicationSalt e.
Proof.
  intros password userSalt applicationSalt h h' e Hh Hh'.
  assert (Key : Generator.derivedKey (password ++ [h]) userSalt
                  applicationSalt e =
                Generator.derivedKey (password ++ [h']) userSalt
                  applicationSalt e).
  { unfold Generator.derivedKey.
    rewrite (utf8_high_last _ _ Hh), (utf8_high_last _ _ Hh'). reflexivity. }
  split; [exact Key|].
  unfold Generator.generateWalletFromPassword,
    SolGenerator.generateWalletFromPassword.
  change (SolGenerator.derivedKey (password ++ [h]) userSalt
            applicationSalt e)
    with (Generator.derivedKey (password ++ [h]) userSalt applicationSalt e).
  rewrite Key. split; reflexivity.
Qed.

Lemma half_character_passwords_agree_witness :
  is_high_surrogate 0xD83D = true /\ is_high_surrogate 0xD83E = true /\
  Generator.generateWalletFromPassword
    (js "hunter2" ++ [0xD83D]) (js "battery") (js "staple") 12 =
  Generator.generateWalletFromPassword
    (js "hunter2" ++ [0xD83E]) (js "battery") (js "staple") 12.
Proof.
  assert (H1 : is_high_surrogate 0xD83D = true) by reflexivity.
  assert (H2 : is_high_surrogate 0xD83E = true) by reflexivity.
  split; [exact H1|]. split; [exact H2|].
  exact (proj1 (proj2 (half_character_passwords_agree
                         (js "hunter2") (js "battery") (js "staple")
                         0xD83D 0xD83E 12 H1 H2))).
Defined.

Lemma getPassword_plain_line (prompt s : jsstring) (later : list jsstring)
      (t : GetPassword.terminal) :
  Forall (fun ch => printable ch = true) s ->
  exists t',
    GetPassword.getPassword prompt ((s ++ [13]) :: later) t =
    (GetPassword.Resolve s, t', later).
Proof.
  intros Hs. rewrite getPassword_first_event.
  destruct (keys_typed s [13] Hs (opening_closure t)
              (opening_terminal prompt t)) as [t1 ->].
  cbn [keys is_enter Z.eqb orb GetPassword.password GetPassword.set_password
       opening_closure app].
  eexists. reflexivity.
Qed.

(** X20.  Three secrets of printable code units, each typed in an event
    of its own and ended with Enter, reach [main] exactly as typed:
    nothing is trimmed, added or taken away between the keyboard and the
    derivation. *)
Theorem prompts_hand_over_what_was_typed :
  forall (A : Type)
         (main : jsstring -> jsstring -> jsstring -> jsstring -> run A)
         (password userSalt applicationSalt answer : jsstring)
         (t : GetPassword.terminal),
    Forall (fun ch => printable ch = true) password ->
    Forall (fun ch => printable ch = true) userSalt ->
    Forall (fun ch => printable ch = true) applicationSalt ->
    main_with_prompts main
      [password ++ [13]; userSalt ++ [13]; applicationSalt ++ [13]]
      answer t
    = Ends (main password userSalt applicationSalt answer).
Proof.
  intros A main password userSalt applicationSalt answer t Hp Hu Ha.
  unfold main_with_prompts.
  destruct (getPassword_plain_line (js "Enter password: ") password
              [userSalt ++ [13]; applicationSalt ++ [13]] t Hp) as [t1 ->].
  cbv beta iota.
  destruct (getPassword_plain_line
              (js "Enter user salt/passphrase (remember this!): ") userSalt
              [applicationSalt ++ [13]] t1 Hu) as [t2 ->].
  cbv beta iota.
  destruct (getPassword_plain_line
              (js "Enter application salt (remember this!): ")
              applicationSalt (@nil (list Z)) t2 Ha) as [t3 ->].
  reflexivity.
Qed.

Lemma prompts_hand_over_what_was_typed_witness :
  Forall (fun ch => printable ch = true) (js " correct horse ") /\
  Forall (fun ch => printable ch = true) (js "battery") /\
  Forall (fun ch => printable ch = true) (js "staple") /\
  main_with_prompts SolGenerator.main
    [js " correct horse " ++ [13]; js "battery" ++ [13]; js "staple" ++ [13]]
    (js "14") fresh_terminal
  = Ends (SolGenerator.main (js " correct horse ") (js "battery")
            (js "staple") (js "14")).
Proof.
  assert (H1 : Forall (fun ch => printable ch = true) (js " correct horse "))
    by (repeat constructor).
  assert (H2 : Forall (fun ch => printable ch = true) (js "battery"))
    by (repeat constructor).
  assert (H3 : Forall (fun ch => printable ch = true) (js "staple"))
    by (repeat constructor).
  split; [exact H1|]. split; [exact H2|]. split; [exact H3|].
  exact (prompts_hand_over_what_was_typed _ SolGenerator.main
           (js " correct horse ") (js "battery") (js "staple") (js "14")
           fresh_terminal H1 H2 H3).
Defined.
